(** * A genetic algorithm evolving neural-network weights: the engine of main.py

    The development embeds [Individual] and [GA] of [src/main.py].

    - Python floats are IEEE binary64 numbers.  A finite binary64 number is a
      rational, so floats are values of [Q] and every arithmetic operation is
      the exact operation followed by rounding to nearest, ties to even
      ([B64.b64]).  Magnitudes of 2^1024 and more (infinities, Python's
      OverflowError) are not represented: the exponent range is open above,
      and the model computes what the code computes as long as every result
      stays below 2^1024.  The statements about the value of the fitness
      therefore bound the score by 2^1000, where no operation leaves that
      range ([compute_fitness_steps_finite]).
    - numpy arrays live in a heap of buffers; a slice such as [a[:n]] is a
      view of a buffer, not a copy of it.
    - The random source and the game are inputs: a stream of raw draws and
      an oracle, gathered in [Env].
    - An uncaught exception ends the run: a step that raises returns [None].

    The gene files are kept as the lists of numbers they hold, and the
    driver loop as its first [n] turns. *)

From Stdlib Require Import ZArith QArith Qround Qpower Qabs Lia Lqa.
From Stdlib Require Floats.SpecFloat.
From stdpp Require Import gmap list sorting.

(** * Binary64 rounding *)

Module B64.
Local Open Scope Q_scope.

(** [ilog2 q] is the binary exponent of a positive rational:
    [2^(ilog2 q) <= q < 2^(ilog2 q + 1)]. *)
Definition ilog2 (q : Q) : Z :=
  let k := (Z.log2 (Qnum q) - Z.log2 (Zpos (Qden q)))%Z in
  if Qle_bool (2 ^ k) q then k else (k - 1)%Z.

(** The exponent of the last place: 53 significant bits, and never below the
    exponent of the smallest subnormal number. *)
Definition fexp (q : Q) : Z := Z.max (ilog2 q - 52) (-1074).

(** Nearest integer, ties to the even one. *)
Definition rne (x : Q) : Z :=
  let f := Qfloor x in
  match Qcompare (x - inject_Z f) (1 # 2) with
  | Lt => f
  | Gt => (f + 1)%Z
  | Eq => if Z.even f then f else (f + 1)%Z
  end.

Definition round_pos (q : Q) : Q :=
  let e := fexp q in Qred (inject_Z (rne (q / 2 ^ e)) * 2 ^ e).

Definition b64 (q : Q) : Q :=
  match Qcompare q 0 with
  | Eq => 0
  | Gt => round_pos q
  | Lt => - round_pos (- q)
  end.

(** A rational is representable when it is [m * 2^e] for a significand of at
    most 53 bits and an exponent not below the smallest binary64 exponent. *)
Definition representable (x : Q) : Prop :=
  exists m e : Z, (Z.abs m < 2 ^ 53)%Z /\ (-1074 <= e)%Z /\ x == inject_Z m * 2 ^ e.

End B64.

(** * Python numbers *)

Definition fadd (x y : Q) : Q := B64.b64 (x + y).
Definition fsub (x y : Q) : Q := B64.b64 (x - y).
Definition fmul (x y : Q) : Q := B64.b64 (x * y).

(** [float(z)] for an integer: the nearest float.  Python raises
    OverflowError when that is 2^1024 or more, which is outside the range of
    the model. *)
Definition float_of_int (z : Z) : Q := B64.b64 (inject_Z z).

(** [a / b] on two integers: the correctly rounded quotient, ZeroDivisionError
    on a zero divisor. *)
Definition int_truediv (a b : Z) : option Q :=
  if (b =? 0)%Z then None else Some (B64.b64 (inject_Z a / inject_Z b)).

(** [x < y] *)
Definition Qltb (x y : Q) : bool := negb (Qle_bool y x).

(** The literal [0.2]. *)
Definition point_two : Q := Eval vm_compute in B64.b64 (1 # 5).

(** * numpy buffers and views *)

Abbreviation loc := nat (only parsing).
Abbreviation buffers := (gmap nat (list Q)) (only parsing).

(** [a[:stop]]: the first [stop] cells of buffer [base] (fewer when the buffer
    is shorter).  A view holds no data of its own. *)
Record view := View { v_base : loc; v_stop : nat }.

Definition view_read (h : buffers) (v : view) : option (list Q) :=
  take (v_stop v) <$> h !! v_base v.

(** [target[...] = src]: the cells of the target view are overwritten.  The
    shapes must agree, except that a single value is broadcast. *)
Definition view_assign (h : buffers) (v : view) (src : list Q) : option buffers :=
  g ← h !! v_base v;
  let k := min (v_stop v) (length g) in
  if decide (length src = k) then Some (<[v_base v := src ++ drop k g]> h)
  else if decide (length src = 1%nat)
       then Some (<[v_base v := replicate k (default 0%Q (head src)) ++ drop k g]> h)
       else None.

(** [a.copy()]: a new buffer with the contents of [a]. *)
Definition ndarray_copy (h : buffers) (a : loc) : option (loc * buffers) :=
  g ← h !! a; Some (fresh (dom h), <[fresh (dom h) := g]> h).

(** [c1[:point + 1], c2[:point + 1] = c2[:point + 1], c1[:point + 1]].
    The right-hand side is a pair of views; the two assignments then run from
    left to right, each reading its source when it runs. *)
Definition crossover_at (point : nat) (c1 c2 : loc) (h : buffers) : option buffers :=
  let rhs1 := View c2 (point + 1) in
  let rhs2 := View c1 (point + 1) in
  x ← view_read h rhs1;
  h1 ← view_assign h (View c1 (point + 1)) x;
  y ← view_read h1 rhs2;
  view_assign h1 (View c2 (point + 1)) y.

(** * The process state *)

(** What the engine does not own: the game and the random source. *)
Record Env := {
  play : nat -> list Q -> Z * Z * Z;  (** [Game([genes]).play()], by call number *)
  raw : nat -> Z;                     (** raw draws of the generator *)
  gauss : nat -> Q                    (** standard normal draws *)
}.

Record world := World {
  heap : gmap nat (list Q);   (** the numpy buffers *)
  cursor : nat;               (** draws consumed so far *)
  plays : nat;                (** games played so far *)
  files : gmap nat (list Q)   (** [genes/all/{i}], by slot [i] *)
}.

Definition set_heap (h : gmap nat (list Q)) (w : world) : world :=
  World h (cursor w) (plays w) (files w).
Definition advance (w : world) : world :=
  World (heap w) (S (cursor w)) (plays w) (files w).
Definition played (w : world) : world :=
  World (heap w) (cursor w) (S (plays w)) (files w).
Definition set_files (f : gmap nat (list Q)) (w : world) : world :=
  World (heap w) (cursor w) (plays w) f.

(** State and failure: [None] is an uncaught Python exception. *)
Definition M (A : Type) : Type := world -> option (A * world).

Definition ret {A} (a : A) : M A := fun w => Some (a, w).
Definition bind {A B} (m : M A) (k : A -> M B) : M B :=
  fun w => match m w with Some (a, w') => k a w' | None => None end.
Definition fail {A} : M A := fun _ => None.
Definition lift {A} (o : option A) : M A :=
  fun w => match o with Some a => Some (a, w) | None => None end.

Declare Scope engine_scope.
Delimit Scope engine_scope with engine.
Notation "x <~ m ;; k" := (bind m (fun x => k))
  (at level 100, m at next level, right associativity) : engine_scope.
Notation "m ;;; k" := (bind m (fun _ => k))
  (at level 100, right associativity) : engine_scope.
Local Open Scope engine_scope.

Fixpoint repeatM {A} (n : nat) (m : M A) : M (list A) :=
  match n with
  | O => ret []
  | S n' => x <~ m ;; xs <~ repeatM n' m ;; ret (x :: xs)
  end.

(** * Individuals *)

Record Individual := {
  genes : loc;
  score : Z;
  steps : Z;
  fitness : Q;
  seed : option Z
}.

(** [Individual.__init__] *)
Definition new_Individual (g : loc) : Individual :=
  {| genes := g; score := 0; steps := 0; fitness := 0; seed := None |}.

(** [(score + 1 / steps) * 100000]: the division, the conversion of the
    score, the sum and the product, each rounded once.  The code computes
    this value as long as all four stay below 2^1024, which they do for a
    score of at most 2^1000 in magnitude; beyond, Python stores [inf] or
    raises OverflowError. *)
Definition compute_fitness (score steps : Z) : option Q :=
  r ← int_truediv 1 steps;
  Some (fmul (fadd (float_of_int score) r) (float_of_int 100000)).

(** * The engine *)

Record GA := {
  p_size : Z;
  c_size : Z;
  genes_len : Z;
  mutate_rate : Q;
  population : list Individual;
  best_individual : option Individual;
  avg_score : Q
}.

Definition set_population (pop : list Individual) (self : GA) : GA :=
  {| p_size := p_size self; c_size := c_size self; genes_len := genes_len self;
     mutate_rate := mutate_rate self; population := pop;
     best_individual := best_individual self; avg_score := avg_score self |}.
Definition set_best_individual (b : Individual) (self : GA) : GA :=
  {| p_size := p_size self; c_size := c_size self; genes_len := genes_len self;
     mutate_rate := mutate_rate self; population := population self;
     best_individual := Some b; avg_score := avg_score self |}.
Definition set_avg_score (a : Q) (self : GA) : GA :=
  {| p_size := p_size self; c_size := c_size self; genes_len := genes_len self;
     mutate_rate := mutate_rate self; population := population self;
     best_individual := best_individual self; avg_score := a |}.

(** [l[:k]] with Python's reading of a negative bound. *)
Definition slice_to {A} (l : list A) (k : Z) : list A :=
  if (k <? 0)%Z then take (length l - Z.to_nat (- k)) l else take (Z.to_nat k) l.

(** [fitter a b]: [a] is at least as fit as [b]. *)
Definition fitter (a b : Individual) : Prop := (fitness b <= fitness a)%Q.

(** [sorted(..., key=fitness, reverse=True)]: descending, and stable. *)
Fixpoint insert_desc (x : Individual) (l : list Individual) : list Individual :=
  match l with
  | [] => [x]
  | y :: l' =>
      if Qle_bool (fitness y) (fitness x) then x :: y :: l'
      else y :: insert_desc x l'
  end.

Definition sorted_desc (l : list Individual) : list Individual :=
  foldr insert_desc [] l.

Definition elitism_selection (self : GA) (size : Z) : list Individual :=
  slice_to (sorted_desc (population self)) size.

(** [sum(individual.fitness for individual in population)]: the fitnesses
    added one after the other from 0, which is also how the inner loop below
    accumulates [current]. *)
Definition wheel_sum (pop : list Individual) : Q :=
  foldl (fun acc i => fadd acc (fitness i)) 0%Q pop.

(** The running total [current] once the individuals up to index [n] are
    added, from [c] on and from the start. *)
Definition wheel_from (c : Q) (pop : list Individual) : Q :=
  foldl (fun acc i => fadd acc (fitness i)) c pop.
Definition cumulative (pop : list Individual) (n : nat) : Q :=
  wheel_sum (take (S n) pop).

(** The inner loop of the roulette wheel: [None] when the loop ends without a
    [break]. *)
Fixpoint spin (pop : list Individual) (current pick : Q) : option Individual :=
  match pop with
  | [] => None
  | i :: rest =>
      let current' := fadd current (fitness i) in
      if Qltb pick current' then Some i else spin rest current' pick
  end.

(** [random.shuffle]: the permutation the draws [ks] select. *)
Fixpoint permute {A} (ks : list Z) (l : list A) : list A :=
  match ks with
  | [] => l
  | k :: ks' =>
      let i := Z.to_nat (k mod Z.of_nat (length l)) in
      match l !! i with
      | Some x => x :: permute ks' (delete i l)
      | None => l
      end
  end.

(** A float in [0, 1) out of 53 random bits. *)
Definition unit_of (r : Z) : Q := Qred (Qmake (r mod 2 ^ 53) (2 ^ 53)).

Definition uniform_of (low high u : Q) : Q := fadd low (fmul (fsub high low) u).

(** [n] draws later. *)
Definition skip (n : nat) (w : world) : world :=
  World (heap w) (cursor w + n) (plays w) (files w).

Section Engine.
Variable E : Env.

(** ** The random source *)

Definition next_raw : M Z := fun w => Some (raw E (cursor w), advance w).

(** [np.random.random()]: 53 random bits, in [0, 1). *)
Definition random_sample : M Q :=
  r <~ next_raw ;; ret (unit_of r).

(** [np.random.uniform(low, high)] is [low + (high - low) * random_sample()]. *)
Definition uniform (low high : Q) : M Q :=
  u <~ random_sample ;; ret (uniform_of low high u).

(** The value [np.random.uniform(0, wheel)] returns at draw number [c]. *)
Definition pick_at (wheel : Q) (c : nat) : Q :=
  uniform_of 0 wheel (unit_of (raw E c)).

(** [np.random.randint(low, high)]: ValueError on an empty range. *)
Definition randint (low high : Z) : M Z :=
  if (low <? high)%Z then r <~ next_raw ;; ret (low + r mod (high - low))%Z
  else fail.

Definition standard_normal : M Q := fun w => Some (gauss E (cursor w), advance w).

Definition shuffle {A} (l : list A) : M (list A) :=
  ks <~ repeatM (length l) next_raw ;; ret (permute ks l).

(** ** Heap access *)

Definition load (a : loc) : M (list Q) := fun w => lift (heap w !! a) w.
Definition store (a : loc) (g : list Q) : M unit :=
  fun w => Some (tt, set_heap (<[a := g]> (heap w)) w).
Definition copy (a : loc) : M loc :=
  fun w => match ndarray_copy (heap w) a with
           | Some (b, h) => Some (b, set_heap h w)
           | None => None
           end.

(** ** Individual.get_fitness *)

Definition get_fitness (self : Individual) : M Individual :=
  g <~ load (genes self) ;;
  fun w =>
    let '(sc, st, sd) := play E (plays w) g in
    match compute_fitness sc st with
    | Some f =>
        Some ({| genes := genes self; score := sc; steps := st;
                 fitness := f; seed := Some sd |}, played w)
    | None => None
    end.

(** ** GA.generate_ancestor *)

Fixpoint generate_ancestor_loop (self : GA) (n : nat) (pop : list Individual)
  : M (list Individual) :=
  match n with
  | O => ret pop
  | S n' =>
      g <~ (if (genes_len self <? 0)%Z then fail
            else repeatM (Z.to_nat (genes_len self)) (uniform (-1) 1)) ;;
      a <~ (fun w => Some (fresh (dom (heap w)),
                           set_heap (<[fresh (dom (heap w)) := g]> (heap w)) w)) ;;
      generate_ancestor_loop self n' (pop ++ [new_Individual a])
  end.

Definition generate_ancestor (self : GA) : M GA :=
  pop <~ generate_ancestor_loop self (Z.to_nat (p_size self)) (population self) ;;
  ret (set_population pop self).

(** ** GA.crossover *)

Definition crossover (self : GA) (c1 c2 : loc) : M unit :=
  point <~ randint 0 (genes_len self) ;;
  fun w => match crossover_at (Z.to_nat point) c1 c2 (heap w) with
           | Some h => Some (tt, set_heap h w)
           | None => None
           end.

(** ** GA.mutate *)

Fixpoint mutate_cells (rate : Q) (g us zs : list Q) : list Q :=
  match g, us, zs with
  | x :: g', u :: us', z :: zs' =>
      (if Qltb u rate then fadd x (fmul z point_two) else x)
        :: mutate_cells rate g' us' zs'
  | _, _, _ => g
  end.

Definition mutate (self : GA) (c : loc) : M unit :=
  g <~ load c ;;
  us <~ repeatM (length g) random_sample ;;
  zs <~ repeatM (length g) standard_normal ;;
  store c (mutate_cells (mutate_rate self) g us zs).

(** ** GA.roulette_wheel_selection *)

Fixpoint roulette_loop (pop : list Individual) (wheel : Q) (n : nat)
    (selection : list Individual) : M (list Individual) :=
  match n with
  | O => ret selection
  | S n' =>
      pick <~ uniform 0 wheel ;;
      roulette_loop pop wheel n'
        (match spin pop 0 pick with
         | Some i => selection ++ [i]
         | None => selection
         end)
  end.

Definition roulette_wheel_selection (self : GA) (size : Z) : M (list Individual) :=
  roulette_loop (population self) (wheel_sum (population self)) (Z.to_nat size) [].

(** ** GA.evolve *)

(** The evaluation loop, with its running [sum_score]. *)
Fixpoint evaluate_all (pop : list Individual) (sum_score : Z)
  : M (list Individual * Z) :=
  match pop with
  | [] => ret ([], sum_score)
  | i :: rest =>
      i' <~ get_fitness i ;;
      r <~ evaluate_all rest (sum_score + score i')%Z ;;
      ret (i' :: fst r, snd r)
  end.

Definition evaluate_phase (self : GA) : M GA :=
  r <~ evaluate_all (population self) 0 ;;
  avg <~ lift (int_truediv (snd r) (Z.of_nat (length (fst r)))) ;;
  ret (set_avg_score avg (set_population (fst r) self)).

Definition select_phase (self : GA) : M GA :=
  let parents := elitism_selection self (p_size self) in
  best <~ lift (head parents) ;;
  shuffled <~ shuffle parents ;;
  ret (set_population shuffled (set_best_individual best self)).

(** The [while len(children) < c_size] loop.  Every turn adds two children,
    so [c_size] turns always suffice; [fuel] counts them. *)
Fixpoint breed (self : GA) (fuel : nat) (children : list Individual)
  : M (list Individual) :=
  match fuel with
  | O => if (Z.of_nat (length children) <? c_size self)%Z then fail else ret children
  | S fuel' =>
      if (Z.of_nat (length children) <? c_size self)%Z then
        sel <~ roulette_wheel_selection self 2 ;;
        match sel with
        | [p1; p2] =>
            c1_genes <~ copy (genes p1) ;;
            c2_genes <~ copy (genes p2) ;;
            crossover self c1_genes c2_genes ;;;
            mutate self c1_genes ;;;
            mutate self c2_genes ;;;
            breed self fuel'
              (children ++ [new_Individual c1_genes; new_Individual c2_genes])
        | _ => fail
        end
      else ret children
  end.

Definition reproduce_phase (self : GA) : M GA :=
  children <~ breed self (Z.to_nat (c_size self)) [] ;;
  children' <~ shuffle children ;;
  ret (set_population (population self ++ children') self).

Definition evolve (self : GA) : M GA :=
  self1 <~ evaluate_phase self ;;
  self2 <~ select_phase self1 ;;
  reproduce_phase self2.


(** ** GA.save_all *)

(** The file holds the genes as text, one number after the other; its content
    is kept as the list of numbers written. *)
Definition write_genes (slot : nat) (ind : Individual) : M unit :=
  g <~ load (genes ind) ;;
  fun w => Some (tt, set_files (<[slot := g]> (files w)) w).

Fixpoint save_slots (self : GA) (slots : list nat) : M unit :=
  match slots with
  | [] => ret tt
  | i :: rest =>
      ind <~ lift (population self !! i) ;;
      write_genes i ind ;;;
      save_slots self rest
  end.

Definition save_all (self : GA) : M GA :=
  r <~ evaluate_all (population self) 0 ;;
  let self' := set_population (fst r) self in
  let population := elitism_selection self' (p_size self') in
  save_slots self' (seq 0 (length population)) ;;;
  ret self'.

End Engine.

(** * What the engine relies on *)

(** An individual owns a buffer of [len] genes. *)
Definition has_genes (len : nat) (h : gmap nat (list Q)) (i : Individual) : Prop :=
  exists g : list Q, h !! genes i = Some g /\ length g = len.

(** Every individual of the population owns [genes_len] genes. *)
Definition wf_engine (self : GA) (w : world) : Prop :=
  Forall (has_genes (Z.to_nat (genes_len self)) (heap w)) (population self).


(** [np.random.uniform(0, wheel)] keeps below [wheel]. *)
Definition picks_in_range (E : Env) (pop : list Individual) : Prop :=
  forall c : nat, (pick_at E (wheel_sum pop) c < wheel_sum pop)%Q.



(** * The rest of the engine *)

(** [GA.__init__] *)
Definition new_GA (p c g : Z) (m : Q) : GA :=
  {| p_size := p; c_size := c; genes_len := g; mutate_rate := m;
     population := []; best_individual := None; avg_score := 0 |}.

(** [np.array(values)]: a new buffer holding the values. *)
Definition alloc (g : list Q) : M nat :=
  fun w => Some (fresh (dom (heap w)),
                 set_heap (<[fresh (dom (heap w)) := g]> (heap w)) w).

(** [GA.inherit_ancestor].  A gene file is kept as the list of numbers it
    holds: the text that [save_all] writes, one [str(gene)] after the other,
    reads back through [float] as the same numbers.  Opening a file that does
    not exist raises. *)
Fixpoint inherit_ancestor_loop (slots : list nat) (pop : list Individual)
  : M (list Individual) :=
  match slots with
  | [] => ret pop
  | i :: rest =>
      (g <~ (fun w => lift (files w !! i) w) ;;
       a <~ alloc g ;;
       inherit_ancestor_loop rest (pop ++ [new_Individual a]))%engine
  end.

Definition inherit_ancestor (self : GA) : M GA :=
  (pop <~ inherit_ancestor_loop (seq 0 (Z.to_nat (p_size self))) (population self) ;;
   ret (set_population pop self))%engine.

(** The sum of the scores of a population. *)
Definition total_score (pop : list Individual) : Z :=
  foldr (fun i acc => (score i + acc)%Z) 0%Z pop.

(** An individual as [Individual.__init__] leaves it. *)
Definition unevaluated (i : Individual) : Prop := i = new_Individual (genes i).

(** The game counter and the gene files are those of [w]. *)
Definition same_io (w w' : world) : Prop :=
  plays w' = plays w /\ files w' = files w.

(** A pair of children bred without mutation: the first has the genes of a
    parent with a prefix of the second parent's genes written over them, the
    second is an exact copy of the second parent. *)
Definition bred_pair (self : GA) (h h' : gmap nat (list Q)) (ab : Individual * Individual)
  : Prop :=
  exists (p1 p2 : Individual) (g1 g2 : list Q) (point : nat),
    p1 ∈ population self /\ p2 ∈ population self /\
    h !! genes p1 = Some g1 /\ h !! genes p2 = Some g2 /\
    (Z.of_nat point < genes_len self)%Z /\
    h' !! genes ab.1 = Some (take (S point) g2 ++ drop (S point) g1) /\
    h' !! genes ab.2 = Some g2.

(** * The driver *)

(** [GA.save_best] writes two files named after the score of the best
    individual: its genes under [genes/best] and its seed under [seed].  The
    two directories are kept as maps from the score to the content. *)
Record archive := Archive {
  best_genes : gmap Z (list Q);
  best_seed : gmap Z (option Z)
}.

Definition save_best (self : GA) (h : gmap nat (list Q)) (a : archive) : option archive :=
  best ← best_individual self;
  g ← h !! genes best;
  Some (Archive (<[score best := g]> (best_genes a))
                (<[score best := seed best]> (best_seed a))).

(** What the driver prints after a generation. *)
Record line := Line {
  l_generation : Z;
  l_record : Z;
  l_best : Z;
  l_average : Q
}.

(** The state of the main loop. *)
Record session := Session {
  engine : GA;
  state : world;
  disk : archive;
  generation : Z;
  record : Z;
  printed : list line
}.

Section Driver.
Variable E : Env.

(** The first population: loaded with [--inherit], drawn otherwise. *)
Definition start (inherit : bool) (ga : GA) : M GA :=
  if inherit then inherit_ancestor ga else generate_ancestor E ga.

(** One turn of [while True].  With [--show] the best individual plays one
    more game, of which nothing is kept. *)
Definition generation_step (show : bool) (s : session) : option session :=
  '(ga, w) ← evolve E (engine s) (state s);
  best ← best_individual ga;
  let generation' := (generation s + 1)%Z in
  let out := Line generation' (record s) (score best) (avg_score ga) in
  '(record', disk') ← (if (record s <=? score best)%Z
                        then a ← save_best ga (heap w) (disk s); Some (score best, a)
                        else Some (record s, disk s));
  let w1 := if show then played w else w in
  '(ga2, w2) ← (if (generation' mod 20 =? 0)%Z then save_all E ga w1 else Some (ga, w1));
  Some (Session ga2 w2 disk' generation' record' (printed s ++ [out])).

(** The first [n] turns of the loop. *)
Fixpoint run (show : bool) (n : nat) (s : session) : option session :=
  match n with
  | O => Some s
  | S n' => s' ← generation_step show s; run show n' s'
  end.

(** The program, stopped after [n] generations: an engine of the configured
    sizes, the first population, then the loop. *)
Definition main (inherit show : bool) (p c g : Z) (m : Q) (n : nat)
    (w : world) (a : archive) : option session :=
  '(ga, w1) ← start inherit (new_GA p c g m) w;
  run show n (Session ga w1 a 0 0 []).

End Driver.

(** Both files of the record exist. *)
Definition record_saved (s : session) : Prop :=
  is_Some (best_genes (disk s) !! record s) /\ is_Some (best_seed (disk s) !! record s).

(** * Worked inputs *)

(** A game that scores the integer part of the first gene in ten steps, and a
    random source that alternates between the draws 0 and 1/2. *)
Definition demo_env : Env := {|
  play := fun _ g => (match g with x :: _ => Qfloor x | [] => 0%Z end, 10%Z, 42%Z);
  raw := fun c => if Nat.even c then 0%Z else (2 ^ 52)%Z;
  gauss := fun _ => 5%Q
|}.

Definition demo_individual (g : nat) (f : Q) : Individual :=
  {| genes := g; score := 0; steps := 1; fitness := f; seed := None |}.

Definition demo_engine (p c : Z) (pop : list Individual) : GA :=
  {| p_size := p; c_size := c; genes_len := 3; mutate_rate := 1 # 2;
     population := pop; best_individual := None; avg_score := 0 |}.

Definition demo_heap : gmap nat (list Q) :=
  <[0%nat := [1; 2; 3]%Q]> (<[1%nat := [4; 5; 6]%Q]> (<[2%nat := [7; 8; 9]%Q]> ∅)).

Definition demo_world : world := World demo_heap 0 0 ∅.

(** An engine of two parents and two children over the three individuals of
    [demo_heap], none evaluated yet. *)
Definition demo_ga : GA :=
  demo_engine 2 2 [new_Individual 0; new_Individual 1; new_Individual 2].

(** ** More worked inputs *)

(** The worked engine with three children asked for, and without mutation. *)
Definition odd_ga : GA :=
  demo_engine 2 3 [new_Individual 0; new_Individual 1; new_Individual 2].

Definition still_ga : GA :=
  {| p_size := 2; c_size := 2; genes_len := 3; mutate_rate := 0;
     population := [new_Individual 0; new_Individual 1; new_Individual 2];
     best_individual := None; avg_score := 0 |}.

(** A game that always ends after one step with the score -1: every fitness
    is [(-1 + 1 / 1) * 100000 = 0]. *)
Definition losing_env : Env := {|
  play := fun _ _ => ((-1)%Z, 1%Z, 0%Z);
  raw := raw demo_env;
  gauss := gauss demo_env
|}.

(** The worked world with two saved individuals on disk. *)
Definition saved_world : world :=
  World demo_heap 0 0 (<[0%nat := [1; 2; 3]%Q]> (<[1%nat := [4; 5; 6]%Q]> ∅)).

Definition empty_archive : archive := Archive ∅ ∅.

(** The smallest positive float, and a random source whose every draw is the
    largest that [np.random.random] returns, [1 - 2^-53]. *)
Definition tiny_fitness : Q := 2 ^ (-1074).

Definition top_env : Env := {|
  play := play demo_env;
  raw := fun _ => (2 ^ 53 - 1)%Z;
  gauss := gauss demo_env
|}.

Definition demo_session : session := Session demo_ga demo_world empty_archive 0 0 [].

(** * The IEEE 754 operations of the standard library, for comparison *)

Module IEEE.
Import SpecFloat.

Definition of_Z (z : Z) : spec_float := binary_normalize 53 1024 z 0 false.

(** The value of a finite float. *)
Definition to_Q (x : spec_float) : Q :=
  match x with
  | S754_finite s m e =>
      Qred ((if s then inject_Z (Z.neg m) else inject_Z (Z.pos m)) * 2 ^ e)%Q
  | _ => 0%Q
  end.

(** [q] is the value of [x], or [x] is not finite. *)
Definition agrees (q : Q) (x : spec_float) : bool :=
  match x with
  | S754_infinity _ | S754_nan => true
  | _ => Qeq_bool q (to_Q x)
  end.

Definition agree_add (x y : spec_float) : bool :=
  agrees (fadd (to_Q x) (to_Q y)) (SFadd 53 1024 x y).
Definition agree_sub (x y : spec_float) : bool :=
  agrees (fsub (to_Q x) (to_Q y)) (SFsub 53 1024 x y).
Definition agree_mul (x y : spec_float) : bool :=
  agrees (fmul (to_Q x) (to_Q y)) (SFmul 53 1024 x y).
Definition agree_div (x y : spec_float) : bool :=
  agrees (B64.b64 (to_Q x / to_Q y)) (SFdiv 53 1024 x y).

(** Integers, numbers with a full significand, ties, and subnormal numbers. *)
Definition samples : list spec_float :=
  [of_Z 3; of_Z 100000; of_Z (2 ^ 53 - 1);
   S754_finite false (2 ^ 52 + 1) (-1074); S754_finite false 3 (-1074);
   S754_finite true (2 ^ 52 + 3) (-52)].

Definition all_pairs (f : spec_float -> spec_float -> bool) : bool :=
  forallb (fun x => forallb (f x) samples) samples.

(** [(score + 1 / steps) * 100000] on IEEE floats. *)
Definition fitness (s t : Z) : spec_float :=
  SFmul 53 1024 (SFadd 53 1024 (of_Z s) (SFdiv 53 1024 (of_Z 1) (of_Z t)))
    (of_Z 100000).

End IEEE.

(** * Facts about binary64 rounding *)

Module B64Facts.
Import B64.
Local Open Scope Q_scope.

(** ** Powers of two *)

Lemma pow2_pos (e : Z) : 0 < 2 ^ e.
Proof. apply Qpower_0_lt. reflexivity. Qed.

Lemma pow2_add (a b : Z) : 2 ^ (a + b) == 2 ^ a * 2 ^ b.
Proof. apply Qpower_plus. discriminate. Qed.

Lemma pow2_le (a b : Z) : (a <= b)%Z -> 2 ^ a <= 2 ^ b.
Proof. intros H. apply Qpower_le_compat_l; [exact H | discriminate]. Qed.

Lemma pow2_lt (a b : Z) : (a < b)%Z -> 2 ^ a < 2 ^ b.
Proof. intros H. apply Qpower_lt_compat_l; [exact H | reflexivity]. Qed.

Lemma pow2_succ (a : Z) : 2 ^ (a + 1) == 2 * 2 ^ a.
Proof. rewrite pow2_add. change (2 ^ 1) with 2. ring. Qed.

Lemma pow2_inject (a : Z) : (0 <= a)%Z -> inject_Z (2 ^ a) == 2 ^ a.
Proof. intros H. now rewrite Zpower_Qpower. Qed.

Lemma pow2_sub (a b : Z) : 2 ^ (a - b) == 2 ^ a / 2 ^ b.
Proof.
  pose proof (pow2_pos b) as Hb.
  assert (H : 2 ^ a == 2 ^ (a - b) * 2 ^ b).
  { rewrite <- pow2_add. now replace (a - b + b)%Z with a by ring. }
  rewrite H. field. lra.
Qed.

(** ** The binary exponent *)

Lemma ilog2_spec (q : Q) : 0 < q -> 2 ^ ilog2 q <= q /\ q < 2 ^ (ilog2 q + 1).
Proof.
  intros Hq. destruct q as [n d]. unfold ilog2. cbn [Qnum Qden].
  assert (Hn : (0 < n)%Z).
  { unfold Qlt in Hq. cbn in Hq. lia. }
  set (a := Z.log2 n). set (b := Z.log2 (Z.pos d)).
  destruct (Z.log2_spec n Hn) as [Ha1 Ha2]. fold a in Ha1, Ha2.
  destruct (Z.log2_spec (Z.pos d) eq_refl) as [Hb1 Hb2]. fold b in Hb1, Hb2.
  assert (Ha0 : (0 <= a)%Z) by apply Z.log2_nonneg.
  assert (Hb0 : (0 <= b)%Z) by apply Z.log2_nonneg.
  assert (HA1 : 2 ^ a <= inject_Z n).
  { rewrite <- pow2_inject by exact Ha0. now rewrite <- Zle_Qle. }
  assert (HA2 : inject_Z n < 2 * 2 ^ a).
  { rewrite <- pow2_succ, <- pow2_inject by lia. now rewrite <- Zlt_Qlt. }
  assert (HB1 : 2 ^ b <= inject_Z (Z.pos d)).
  { rewrite <- pow2_inject by exact Hb0. now rewrite <- Zle_Qle. }
  assert (HB2 : inject_Z (Z.pos d) < 2 * 2 ^ b).
  { rewrite <- pow2_succ, <- pow2_inject by lia. now rewrite <- Zlt_Qlt. }
  pose proof (pow2_pos b) as HBpos. pose proof (pow2_pos (a - b)) as HKpos.
  assert (HK : 2 ^ a == 2 ^ (a - b) * 2 ^ b).
  { rewrite <- pow2_add. now replace (a - b + b)%Z with a by ring. }
  assert (HD : 0 < inject_Z (Z.pos d)) by lra.
  assert (Hqd : (n # d) * inject_Z (Z.pos d) == inject_Z n).
  { rewrite (Qmake_Qdiv n d). field. lra. }
  set (q := n # d) in *. set (D := inject_Z (Z.pos d)) in *.
  set (N := inject_Z n) in *. set (K := 2 ^ (a - b)) in *.
  set (A := 2 ^ a) in *. set (B := 2 ^ b) in *.
  destruct (Qle_bool K q) eqn:E.
  - apply Qle_bool_iff in E. split; [exact E |].
    rewrite pow2_succ. fold K.
    apply Qnot_le_lt. intros Hc.
    assert (2 * K * D <= q * D) by (apply Qmult_le_compat_r; lra).
    assert (K * B <= K * D) by (apply Qmult_le_l; lra).
    lra.
  - assert (Hlt : q < K).
    { apply Qnot_le_lt. intros Hc. apply Qle_bool_iff in Hc. congruence. }
    split.
    + assert (Hh : 2 * 2 ^ (a - b - 1) == K).
      { rewrite <- pow2_succ. unfold K. now replace (a - b - 1 + 1)%Z with (a - b)%Z by ring. }
      apply Qnot_lt_le. intros Hc.
      assert (q * D < 2 ^ (a - b - 1) * D) by (apply Qmult_lt_compat_r; lra).
      assert (K * D < K * (2 * B)) by (apply Qmult_lt_l; lra).
      pose proof (pow2_pos (a - b - 1)).
      assert (2 * (2 ^ (a - b - 1) * D) == K * D) by (rewrite <- Hh; ring).
      lra.
    + replace (a - b - 1 + 1)%Z with (a - b)%Z by ring. exact Hlt.
Qed.

Lemma ilog2_unique (q : Q) (k : Z) :
  2 ^ k <= q -> q < 2 ^ (k + 1) -> ilog2 q = k.
Proof.
  intros H1 H2.
  assert (Hq : 0 < q) by (pose proof (pow2_pos k); lra).
  destruct (ilog2_spec q Hq) as [H3 H4].
  destruct (Z.lt_trichotomy (ilog2 q) k) as [Hlt | [Heq | Hgt]]; [| exact Heq |].
  - pose proof (pow2_le (ilog2 q + 1) k ltac:(lia)). lra.
  - pose proof (pow2_le (k + 1) (ilog2 q) ltac:(lia)). lra.
Qed.

Lemma ilog2_mono (x y : Q) : 0 < x -> x <= y -> (ilog2 x <= ilog2 y)%Z.
Proof.
  intros Hx Hxy.
  destruct (ilog2_spec x Hx) as [H1 H2].
  destruct (ilog2_spec y ltac:(lra)) as [H3 H4].
  destruct (Z.le_gt_cases (ilog2 x) (ilog2 y)) as [H | H]; [exact H |].
  pose proof (pow2_le (ilog2 y + 1) (ilog2 x) ltac:(lia)). lra.
Qed.

Lemma ilog2_comp (x y : Q) : 0 < x -> x == y -> ilog2 x = ilog2 y.
Proof.
  intros Hx Hxy. symmetry.
  destruct (ilog2_spec x Hx) as [H1 H2].
  apply ilog2_unique; lra.
Qed.

Lemma fexp_mono (x y : Q) : 0 < x -> x <= y -> (fexp x <= fexp y)%Z.
Proof. intros Hx Hxy. unfold fexp. pose proof (ilog2_mono x y Hx Hxy). lia. Qed.


(** ** Rounding to the nearest integer, ties to even *)

Lemma rne_bounds (x : Q) : (Qfloor x <= rne x <= Qfloor x + 1)%Z.
Proof.
  unfold rne. destruct (Qcompare _ _); [destruct (Z.even _) | |]; lia.
Qed.

Lemma rne_inject_Z (z : Z) : rne (inject_Z z) = z.
Proof.
  unfold rne. rewrite Qfloor_Z.
  destruct (Qcompare_spec (inject_Z z - inject_Z z) (1 # 2)); [lra | reflexivity | lra].
Qed.

Lemma rne_comp (x y : Q) : x == y -> rne x = rne y.
Proof.
  intros H. unfold rne. rewrite (Qfloor_comp x y H).
  assert (He : x - inject_Z (Qfloor y) == y - inject_Z (Qfloor y)) by lra.
  now rewrite (Qcompare_comp _ _ He (1 # 2) (1 # 2) (Qeq_refl _)).
Qed.

Lemma rne_mono (x y : Q) : x <= y -> (rne x <= rne y)%Z.
Proof.
  intros Hxy.
  pose proof (Qfloor_resp_le x y Hxy) as Hf.
  destruct (Z.eq_dec (Qfloor x) (Qfloor y)) as [E | E].
  - unfold rne. rewrite E.
    destruct (Qcompare_spec (x - inject_Z (Qfloor y)) (1 # 2));
      destruct (Qcompare_spec (y - inject_Z (Qfloor y)) (1 # 2));
      try destruct (Z.even (Qfloor y)); try lia; lra.
  - pose proof (rne_bounds x). pose proof (rne_bounds y). lia.
Qed.

(** ** Rounding a positive rational *)

Lemma round_pos_eq (q : Q) :
  round_pos q == inject_Z (rne (q / 2 ^ fexp q)) * 2 ^ fexp q.
Proof. unfold round_pos. apply Qred_correct. Qed.

Lemma round_pos_nonneg (q : Q) : 0 < q -> 0 <= round_pos q.
Proof.
  intros Hq. rewrite round_pos_eq.
  pose proof (pow2_pos (fexp q)) as Hp.
  apply Qmult_le_0_compat; [| lra].
  change 0 with (inject_Z 0). rewrite <- Zle_Qle.
  rewrite <- (rne_inject_Z 0). apply rne_mono.
  apply Qle_shift_div_l; [exact Hp |].
  change (inject_Z 0) with 0. lra.
Qed.

Lemma round_pos_comp (x y : Q) : 0 < x -> x == y -> round_pos x = round_pos y.
Proof.
  intros Hx Hxy. unfold round_pos, fexp.
  rewrite (ilog2_comp x y Hx Hxy).
  apply Qred_complete.
  set (e := Z.max (ilog2 y - 52) (-1074)).
  pose proof (pow2_pos e).
  assert (He : x / 2 ^ e == y / 2 ^ e) by (now rewrite Hxy).
  now rewrite (rne_comp _ _ He).
Qed.

Lemma round_pos_mono (x y : Q) : 0 < x -> x <= y -> round_pos x <= round_pos y.
Proof.
  intros Hx Hxy. rewrite !round_pos_eq.
  pose proof (fexp_mono x y Hx Hxy) as Hexp.
  pose proof (pow2_pos (fexp x)) as Hpx. pose proof (pow2_pos (fexp y)) as Hpy.
  destruct (Z.eq_dec (fexp x) (fexp y)) as [E | E].
  - rewrite E. apply Qmult_le_compat_r; [| lra].
    rewrite <- Zle_Qle. apply rne_mono.
    apply Qmult_le_compat_r; [exact Hxy |].
    apply Qlt_le_weak, Qinv_lt_0_compat, Hpy.
  - assert (Hlt : (fexp x < fexp y)%Z) by lia.
    assert (Hey : fexp y = (ilog2 y - 52)%Z) by (unfold fexp in *; lia).
    assert (Hex : (ilog2 x - 52 <= fexp x)%Z) by (unfold fexp; lia).
    destruct (ilog2_spec x Hx) as [_ Hx2].
    destruct (ilog2_spec y ltac:(lra)) as [Hy1 _].
    (* the smaller number rounds to at most 2^53 units of its exponent *)
    assert (Hrx : (rne (x / 2 ^ fexp x) <= 2 ^ 53)%Z).
    { rewrite <- (rne_inject_Z (2 ^ 53)). apply rne_mono.
      apply Qle_shift_div_r; [exact Hpx |].
      rewrite pow2_inject by lia. rewrite <- pow2_add.
      pose proof (pow2_le (ilog2 x + 1) (53 + fexp x) ltac:(lia)). lra. }
    (* the larger one to at least 2^52 units of its own *)
    assert (Hry : (2 ^ 52 <= rne (y / 2 ^ fexp y))%Z).
    { rewrite <- (rne_inject_Z (2 ^ 52)) at 1. apply rne_mono.
      apply Qle_shift_div_l; [exact Hpy |].
      rewrite pow2_inject by lia. rewrite <- pow2_add.
      replace (52 + fexp y)%Z with (ilog2 y) by lia. exact Hy1. }
    rewrite Zle_Qle in Hrx, Hry.
    rewrite pow2_inject in Hrx, Hry by lia.
    apply Qle_trans with (2 ^ 53 * 2 ^ fexp x).
    { apply Qmult_le_compat_r; [exact Hrx | lra]. }
    apply Qle_trans with (2 ^ 52 * 2 ^ fexp y).
    { rewrite <- !pow2_add. apply pow2_le. lia. }
    apply Qmult_le_compat_r; [exact Hry | lra].
Qed.


(** ** The rounding function on all rationals *)

Lemma b64_comp (x y : Q) : x == y -> b64 x = b64 y.
Proof.
  intros H. unfold b64.
  rewrite (Qcompare_comp _ _ H 0 0 (Qeq_refl _)).
  destruct (Qcompare_spec y 0) as [E | E | E]; [reflexivity | |].
  - f_equal. apply round_pos_comp; lra.
  - apply round_pos_comp; lra.
Qed.

Lemma b64_mono (x y : Q) : x <= y -> b64 x <= b64 y.
Proof.
  intros H. unfold b64.
  destruct (Qcompare_spec x 0) as [Ex | Ex | Ex];
    destruct (Qcompare_spec y 0) as [Ey | Ey | Ey]; try lra.
  - apply round_pos_nonneg. exact Ey.
  - pose proof (round_pos_nonneg (- x) ltac:(lra)). lra.
  - pose proof (round_pos_mono (- y) (- x) ltac:(lra) ltac:(lra)). lra.
  - pose proof (round_pos_nonneg (- x) ltac:(lra)).
    pose proof (round_pos_nonneg y Ey). lra.
  - apply round_pos_mono; assumption.
Qed.

Lemma b64_0 : b64 0 = 0.
Proof. reflexivity. Qed.

Lemma b64_nonneg (x : Q) : 0 <= x -> 0 <= b64 x.
Proof. intros H. rewrite <- b64_0. now apply b64_mono. Qed.

Lemma round_pos_fix (m e : Z) :
  (0 < m < 2 ^ 53)%Z -> (-1074 <= e)%Z ->
  round_pos (inject_Z m * 2 ^ e) == inject_Z m * 2 ^ e.
Proof.
  intros Hm He. set (x := inject_Z m * 2 ^ e).
  pose proof (pow2_pos e) as Hpe.
  assert (Hm0 : 0 < inject_Z m) by (change 0 with (inject_Z 0); rewrite <- Zlt_Qlt; lia).
  assert (Hx : 0 < x) by (apply Qmult_lt_0_compat; assumption).
  destruct (ilog2_spec x Hx) as [Hl _].
  assert (Hub : x < 2 ^ (53 + e)).
  { rewrite pow2_add, <- pow2_inject by lia. unfold x.
    apply Qmult_lt_compat_r; [exact Hpe |]. rewrite <- Zlt_Qlt. lia. }
  assert (Hlog : (ilog2 x < 53 + e)%Z).
  { destruct (Z.lt_ge_cases (ilog2 x) (53 + e)) as [H | H]; [exact H |].
    pose proof (pow2_le _ _ H). lra. }
  assert (Hf : (fexp x <= e)%Z) by (unfold fexp; lia).
  rewrite round_pos_eq.
  set (f := fexp x) in *. pose proof (pow2_pos f) as Hpf.
  assert (Hs : x / 2 ^ f == inject_Z (m * 2 ^ (e - f))).
  { rewrite inject_Z_mult, pow2_inject, pow2_sub by lia. unfold x. field. lra. }
  rewrite (rne_comp _ _ Hs), rne_inject_Z.
  rewrite inject_Z_mult, pow2_inject, pow2_sub by lia. unfold x. field. lra.
Qed.

Lemma b64_fix (x : Q) : representable x -> b64 x == x.
Proof.
  intros (m & e & Hm & He & Hx).
  rewrite (b64_comp _ _ Hx). rewrite Hx. clear x Hx.
  pose proof (pow2_pos e) as Hpe.
  destruct (Z.lt_trichotomy m 0) as [Hneg | [Hz | Hpos]].
  - assert (Hlt : inject_Z m * 2 ^ e < 0).
    { assert (0 < inject_Z (- m) * 2 ^ e).
      { apply Qmult_lt_0_compat; [| exact Hpe].
        change 0 with (inject_Z 0). rewrite <- Zlt_Qlt. lia. }
      rewrite inject_Z_opp in H. lra. }
    unfold b64. destruct (Qcompare_spec (inject_Z m * 2 ^ e) 0); try lra.
    assert (Hc : - (inject_Z m * 2 ^ e) == inject_Z (- m) * 2 ^ e)
      by (rewrite inject_Z_opp; ring).
    assert (Hp : 0 < - (inject_Z m * 2 ^ e)) by lra.
    rewrite (round_pos_comp _ _ Hp Hc).
    rewrite round_pos_fix by lia. rewrite inject_Z_opp. ring.
  - subst m. rewrite (b64_comp _ 0) by ring. rewrite b64_0. ring.
  - assert (Hgt : 0 < inject_Z m * 2 ^ e).
    { apply Qmult_lt_0_compat; [| exact Hpe].
      change 0 with (inject_Z 0). rewrite <- Zlt_Qlt. lia. }
    unfold b64. destruct (Qcompare_spec (inject_Z m * 2 ^ e) 0); try lra.
    apply round_pos_fix; lia.
Qed.

Lemma representable_Z (z : Z) : (Z.abs z < 2 ^ 53)%Z -> representable (inject_Z z).
Proof. intros H. exists z, 0%Z. repeat split; [exact H | lia |]. change (2 ^ 0) with 1. ring. Qed.

Lemma b64_inject_Z (z : Z) : (Z.abs z < 2 ^ 53)%Z -> b64 (inject_Z z) == inject_Z z.
Proof. intros H. apply b64_fix, representable_Z, H. Qed.

End B64Facts.

(** * Fitness *)

Section FitnessFacts.
Import B64 B64Facts.
Local Open Scope Q_scope.

Lemma b64_1 : b64 1 == 1.
Proof. reflexivity. Qed.

Lemma b64_scale : b64 (inject_Z 100000) == 100000.
Proof. reflexivity. Qed.

Lemma b64_dyadic (m e : Z) :
  (Z.abs m < 2 ^ 53)%Z -> (-1074 <= e)%Z ->
  b64 (inject_Z m * 2 ^ e) == inject_Z m * 2 ^ e.
Proof. intros Hm He. apply b64_fix. exists m, e. repeat split; [exact Hm | exact He]. Qed.

Lemma inject_Z_pos (z : Z) : (0 < z)%Z -> 0 < inject_Z z.
Proof. intros H. change 0 with (inject_Z 0). now rewrite <- Zlt_Qlt. Qed.

Lemma inject_Z_nonneg (z : Z) : (0 <= z)%Z -> 0 <= inject_Z z.
Proof. intros H. change 0 with (inject_Z 0). now rewrite <- Zle_Qle. Qed.

(** The tie-breaker [1 / steps], as computed, lies in [0, 1]. *)
Lemma tie_breaker_bounds (t : Z) :
  (0 < t)%Z -> 0 <= b64 (inject_Z 1 / inject_Z t) <= 1.
Proof.
  intros Ht. pose proof (inject_Z_pos t Ht) as Hq.
  assert (H1 : (1 <= t)%Z) by lia. rewrite Zle_Qle in H1.
  split.
  - apply b64_nonneg. apply Qle_shift_div_l; [exact Hq |]. change (inject_Z 1) with 1. lra.
  - rewrite <- b64_1. apply b64_mono.
    apply Qle_shift_div_r; [exact Hq |]. change (inject_Z 1) with 1 in *. lra.
Qed.

Lemma int_truediv_1 (t : Z) :
  (0 < t)%Z -> int_truediv 1 t = Some (b64 (inject_Z 1 / inject_Z t)).
Proof. intros Ht. unfold int_truediv. destruct (Z.eqb_spec t 0); [lia | reflexivity]. Qed.

Lemma compute_fitness_eq (s t : Z) :
  (0 < t)%Z ->
  compute_fitness s t =
    Some (fmul (fadd (float_of_int s) (b64 (inject_Z 1 / inject_Z t))) (float_of_int 100000)).
Proof. intros Ht. unfold compute_fitness. now rewrite int_truediv_1. Qed.

(** The sum [score + 1 / steps], as computed, is not below [score] and not
    above [score + 1], as long as these are exact floats. *)
Lemma score_plus_tie_lower (s t : Z) :
  (0 <= s < 2 ^ 53)%Z -> (0 < t)%Z ->
  inject_Z s <= fadd (float_of_int s) (b64 (inject_Z 1 / inject_Z t)).
Proof.
  intros Hs Ht. unfold fadd, float_of_int.
  destruct (tie_breaker_bounds t Ht) as [Hr0 Hr1].
  set (r := b64 (inject_Z 1 / inject_Z t)) in *.
  assert (HS : b64 (inject_Z s) == inject_Z s) by (apply b64_inject_Z; lia).
  rewrite <- HS at 1. apply b64_mono. lra.
Qed.

Lemma score_plus_tie_upper (s t : Z) :
  (0 <= s)%Z -> (s + 1 < 2 ^ 53)%Z -> (0 < t)%Z ->
  fadd (float_of_int s) (b64 (inject_Z 1 / inject_Z t)) <= inject_Z s + 1.
Proof.
  intros Hs Hs1 Ht. unfold fadd, float_of_int.
  destruct (tie_breaker_bounds t Ht) as [Hr0 Hr1].
  set (r := b64 (inject_Z 1 / inject_Z t)) in *.
  assert (HS : b64 (inject_Z s) == inject_Z s) by (apply b64_inject_Z; lia).
  assert (HS1 : b64 (inject_Z (s + 1)) == inject_Z s + 1).
  { rewrite b64_inject_Z by lia. rewrite inject_Z_plus. reflexivity. }
  rewrite <- HS1. apply b64_mono. rewrite inject_Z_plus. change (inject_Z 1) with 1. lra.
Qed.

Lemma fitness_upper (s t : Z) :
  (0 <= s)%Z -> (s + 1 < 2 ^ 53)%Z -> (0 < t)%Z ->
  fmul (fadd (float_of_int s) (b64 (inject_Z 1 / inject_Z t))) (float_of_int 100000)
    <= b64 (inject_Z ((s + 1) * 100000)).
Proof.
  intros Hs Hs1 Ht. unfold fmul at 1.
  pose proof (score_plus_tie_upper s t Hs Hs1 Ht) as Hub.
  apply b64_mono. unfold float_of_int at 2. rewrite b64_scale.
  rewrite inject_Z_mult, inject_Z_plus. change (inject_Z 1) with 1.
  change (inject_Z 100000) with 100000.
  apply Qmult_le_compat_r; [exact Hub | lra].
Qed.

Lemma fitness_lower (s t : Z) :
  (0 <= s < 2 ^ 53)%Z -> (0 < t)%Z ->
  b64 (inject_Z (s * 100000))
    <= fmul (fadd (float_of_int s) (b64 (inject_Z 1 / inject_Z t))) (float_of_int 100000).
Proof.
  intros Hs Ht. unfold fmul at 1.
  pose proof (score_plus_tie_lower s t Hs Ht) as Hlb.
  apply b64_mono. unfold float_of_int at 2. rewrite b64_scale.
  rewrite inject_Z_mult. change (inject_Z 100000) with 100000.
  apply Qmult_le_compat_r; [exact Hlb | lra].
Qed.

(** With a score below 2^20 and at most 2^32 steps the tie-breaker survives
    both roundings. *)
Lemma fitness_lower_strict (s t : Z) :
  (0 <= s < 2 ^ 20)%Z -> (0 < t <= 2 ^ 32)%Z ->
  inject_Z (s * 100000)
    < fmul (fadd (float_of_int s) (b64 (inject_Z 1 / inject_Z t))) (float_of_int 100000).
Proof.
  intros Hs Ht. unfold fmul, fadd, float_of_int.
  pose proof (inject_Z_pos t ltac:(lia)) as Hq.
  assert (Ht2 : inject_Z t <= 4294967296).
  { change 4294967296 with (inject_Z (2 ^ 32)). rewrite <- Zle_Qle. lia. }
  assert (Hp32 : 2 ^ (-32) == 1 # 4294967296) by reflexivity.
  assert (Hp16 : 2 ^ (-16) == 1 # 65536) by reflexivity.
  (* the tie-breaker is at least 2^-32 *)
  assert (Hr : 1 # 4294967296 <= b64 (inject_Z 1 / inject_Z t)).
  { assert (Hfix : b64 (inject_Z 1 * 2 ^ (-32)) == inject_Z 1 * 2 ^ (-32))
      by (apply b64_dyadic; [reflexivity | lia]).
    rewrite Hp32 in Hfix at 2.
    assert (Hle : inject_Z 1 * 2 ^ (-32) <= inject_Z 1 / inject_Z t).
    { rewrite Hp32. change (inject_Z 1) with 1.
      apply Qle_shift_div_l; [exact Hq |]. lra. }
    apply b64_mono in Hle. change (inject_Z 1) with 1 in *. lra. }
  set (r := b64 (inject_Z 1 / inject_Z t)) in *.
  assert (HS : b64 (inject_Z s) == inject_Z s) by (apply b64_inject_Z; lia).
  (* so the sum is at least score + 2^-32, which is a float *)
  assert (Ha : inject_Z s + (1 # 4294967296) <= b64 (b64 (inject_Z s) + r)).
  { assert (Hfix : b64 (inject_Z (s * 2 ^ 32 + 1) * 2 ^ (-32))
                   == inject_Z (s * 2 ^ 32 + 1) * 2 ^ (-32))
      by (apply b64_dyadic; lia).
    assert (Hval : inject_Z (s * 2 ^ 32 + 1) * 2 ^ (-32) == inject_Z s + (1 # 4294967296)).
    { rewrite Hp32, inject_Z_plus, inject_Z_mult.
      change (inject_Z (2 ^ 32)) with 4294967296. change (inject_Z 1) with 1. field. }
    assert (Hle : inject_Z (s * 2 ^ 32 + 1) * 2 ^ (-32) <= b64 (inject_Z s) + r) by lra.
    apply b64_mono in Hle. lra. }
  set (a := b64 (b64 (inject_Z s) + r)) in *.
  (* and the product at least score * 100000 + 2^-16, a float again *)
  assert (Hfix : b64 (inject_Z (s * 100000 * 2 ^ 16 + 1) * 2 ^ (-16))
                 == inject_Z (s * 100000 * 2 ^ 16 + 1) * 2 ^ (-16))
    by (apply b64_dyadic; lia).
  assert (Hval : inject_Z (s * 100000 * 2 ^ 16 + 1) * 2 ^ (-16)
                 == inject_Z (s * 100000) + (1 # 65536)).
  { rewrite Hp16, inject_Z_plus, !inject_Z_mult.
    change (inject_Z (2 ^ 16)) with 65536. change (inject_Z 1) with 1. field. }
  assert (Hle : inject_Z (s * 100000 * 2 ^ 16 + 1) * 2 ^ (-16) <= a * b64 (inject_Z 100000)).
  { rewrite Hval, b64_scale, inject_Z_mult. change (inject_Z 100000) with 100000.
    assert ((inject_Z s + (1 # 4294967296)) * 100000 <= a * 100000)
      by (apply Qmult_le_compat_r; lra).
    lra. }
  apply b64_mono in Hle. lra.
Qed.

End FitnessFacts.

(** * How far a rounded result is from the exact one *)

Section RoundingAccuracy.
Import B64 B64Facts.
Local Open Scope Q_scope.

(** Rounding to the nearest integer moves by at most one half. *)
Lemma rne_err (y : Q) :
  inject_Z (rne y) - y <= 1 # 2 /\ y - inject_Z (rne y) <= 1 # 2.
Proof.
  pose proof (Qfloor_le y) as Hlo. pose proof (Qlt_floor y) as Hhi.
  rewrite inject_Z_plus in Hhi. change (inject_Z 1) with 1 in Hhi.
  unfold rne. set (f := Qfloor y) in *.
  destruct (Qcompare_spec (y - inject_Z f) (1 # 2)) as [He | Hl | Hg].
  - destruct (Z.even f).
    + split; lra.
    + rewrite inject_Z_plus. change (inject_Z 1) with 1. split; lra.
  - split; lra.
  - rewrite inject_Z_plus. change (inject_Z 1) with 1. split; lra.
Qed.

(** A positive number is rounded by at most half a unit in its last place. *)
Lemma round_pos_err (q : Q) :
  0 < q ->
  round_pos q - q <= 2 ^ fexp q * (1 # 2) /\ q - round_pos q <= 2 ^ fexp q * (1 # 2).
Proof.
  intros Hq. rewrite round_pos_eq.
  pose proof (pow2_pos (fexp q)) as Hp. set (P := 2 ^ fexp q) in *.
  destruct (rne_err (q / P)) as [H1 H2].
  set (n := inject_Z (rne (q / P))) in *.
  assert (Hy : q == q / P * P) by (field; lra).
  assert (G1 : (n - q / P) * P <= (1 # 2) * P) by (apply Qmult_le_compat_r; lra).
  assert (G2 : (q / P - n) * P <= (1 # 2) * P) by (apply Qmult_le_compat_r; lra).
  split; lra.
Qed.

(** The unit in the last place: 2^-52 of the number, or the spacing of the
    subnormal numbers. *)
Lemma fexp_pow (q : Q) :
  0 < q ->
  2 ^ fexp q <= q * 2 ^ (-52) \/ fexp q = (-1074)%Z.
Proof.
  intros Hq. unfold fexp.
  destruct (Z.max_spec (ilog2 q - 52) (-1074)) as [[_ ->] | [_ ->]]; [now right | left].
  destruct (ilog2_spec q Hq) as [Hl _].
  replace (ilog2 q - 52)%Z with (ilog2 q + -52)%Z by ring. rewrite pow2_add.
  pose proof (pow2_pos (-52)). apply Qmult_le_compat_r; lra.
Qed.



(** A rounded result is a binary64 number. *)
Lemma round_pos_representable (q : Q) : 0 < q -> representable (round_pos q).
Proof.
  intros Hq. pose proof (pow2_pos (fexp q)) as Hp.
  destruct (ilog2_spec q Hq) as [_ Hq2].
  assert (Hex : (ilog2 q - 52 <= fexp q)%Z) by (unfold fexp; lia).
  assert (Hef : (-1074 <= fexp q)%Z) by (unfold fexp; lia).
  assert (Hhi : (rne (q / 2 ^ fexp q) <= 2 ^ 53)%Z).
  { rewrite <- (rne_inject_Z (2 ^ 53)). apply rne_mono.
    apply Qle_shift_div_r; [exact Hp |].
    rewrite pow2_inject by lia. rewrite <- pow2_add.
    pose proof (pow2_le (ilog2 q + 1) (53 + fexp q) ltac:(lia)). lra. }
  assert (Hlo : (0 <= rne (q / 2 ^ fexp q))%Z).
  { rewrite <- (rne_inject_Z 0) at 1. apply rne_mono.
    apply Qle_shift_div_l; [exact Hp |]. change (inject_Z 0) with 0. lra. }
  set (n := rne (q / 2 ^ fexp q)) in *.
  destruct (Z.eq_dec n (2 ^ 53)%Z) as [Heq | Hne].
  - exists (2 ^ 52)%Z, (fexp q + 1)%Z. split; [reflexivity |]. split; [lia |].
    rewrite round_pos_eq. fold n. rewrite Heq, pow2_succ.
    rewrite !pow2_inject by lia.
    assert (H53 : 2 ^ 53 == 2 * 2 ^ 52) by reflexivity. rewrite H53. ring.
  - exists n, (fexp q). split; [lia |]. split; [exact Hef |].
    rewrite round_pos_eq. reflexivity.
Qed.

Lemma b64_representable (x : Q) : representable (b64 x).
Proof.
  unfold b64. destruct (Qcompare_spec x 0) as [E | E | E].
  - exists 0%Z, 0%Z. split; [reflexivity |]. split; [lia |]. reflexivity.
  - destruct (round_pos_representable (- x) ltac:(lra)) as (m & e & Hm & He & Hx).
    exists (- m)%Z, e. split; [lia |]. split; [exact He |].
    rewrite Hx, inject_Z_opp. ring.
  - now apply round_pos_representable.
Qed.

(** Rounding twice is rounding once. *)
Lemma b64_idem (x : Q) : b64 (b64 x) == b64 x.
Proof. apply b64_fix, b64_representable. Qed.

End RoundingAccuracy.

(** * The fitness within the range of the floats *)

(** Python converts the score to a float and raises OverflowError from 2^1024
    on; a sum or a product of that size becomes [inf].  The rounding model
    has no such bound, so it computes what the code computes exactly as long
    as every result stays below 2^1024.  For scores up to 2^1000 in magnitude
    that is the case, and the fitness is then the exact value of
    [(score + 1 / steps) * 100000] up to the rounding errors. *)
Section FitnessRange.
Import B64 B64Facts.
Local Open Scope Q_scope.


Lemma score_in_range (s : Z) :
  (Z.abs s <= 2 ^ 1000)%Z -> - 2 ^ 1000 <= inject_Z s /\ inject_Z s <= 2 ^ 1000.
Proof.
  intros H. rewrite <- (pow2_inject 1000) by lia. rewrite <- inject_Z_opp.
  rewrite <- !Zle_Qle. lia.
Qed.

Lemma tie_breaker_unit (t : Z) :
  t <> 0%Z -> -1 <= b64 (1 / inject_Z t) /\ b64 (1 / inject_Z t) <= 1.
Proof.
  intros Ht.
  assert (H1 : b64 1 == 1) by reflexivity.
  assert (H2 : b64 (-1) == -1) by reflexivity.
  destruct (Z.lt_trichotomy t 0) as [Hn | [Hz | Hp]]; [| contradiction |].
  - assert (Hq : inject_Z t <= -1).
    { change (-1) with (inject_Z (-1)). rewrite <- Zle_Qle. lia. }
    assert (Hr : -1 <= 1 / inject_Z t /\ 1 / inject_Z t <= 0).
    { assert (Hpos : 0 < - inject_Z t) by lra.
      assert (E : 1 / inject_Z t == - (1 / - inject_Z t)) by (field; lra).
      assert (G1 : 0 <= 1 / - inject_Z t).
      { apply Qle_shift_div_l; [exact Hpos | lra]. }
      assert (G2 : 1 / - inject_Z t <= 1).
      { apply Qle_shift_div_r; [exact Hpos | lra]. }
      split; lra. }
    destruct Hr as [Ha Hb].
    apply b64_mono in Ha. apply b64_mono in Hb. rewrite b64_0 in Hb. split; lra.
  - destruct (tie_breaker_bounds t Hp) as [Ha Hb].
    change (inject_Z 1) with 1 in Ha, Hb. split; lra.
Qed.

(** Line 28, operation by operation: the conversion of the score, the
    division, the sum and the product, each rounded once. *)
Lemma compute_fitness_value (s t : Z) :
  t <> 0%Z ->
  compute_fitness s t
  = Some (b64 (b64 (b64 (inject_Z s) + b64 (1 / inject_Z t)) * 100000)).
Proof.
  intros Ht. unfold compute_fitness, int_truediv.
  destruct (Z.eqb_spec t 0) as [E | _]; [contradiction |].
  cbn [mbind option_bind]. reflexivity.
Qed.

(** No operation of line 28 leaves the range of the finite floats. *)
Lemma compute_fitness_steps_finite (s t : Z) :
  (Z.abs s <= 2 ^ 1000)%Z -> t <> 0%Z ->
  Qabs (b64 (inject_Z s)) < 2 ^ 1024 /\
  Qabs (b64 (1 / inject_Z t)) < 2 ^ 1024 /\
  Qabs (b64 (b64 (inject_Z s) + b64 (1 / inject_Z t))) < 2 ^ 1024 /\
  Qabs (b64 (b64 (b64 (inject_Z s) + b64 (1 / inject_Z t)) * 100000)) < 2 ^ 1024.
Proof.
  intros Hs Ht.
  destruct (score_in_range s Hs) as [Hs1 Hs2].
  destruct (tie_breaker_unit t Ht) as [Hr1 Hr2].
  set (S := inject_Z s) in *. set (r := b64 (1 / inject_Z t)) in *.
  assert (F0 : b64 (inject_Z 1 * 2 ^ 1000) == inject_Z 1 * 2 ^ 1000)
    by (apply b64_dyadic; [reflexivity | lia]).
  assert (F0' : b64 (inject_Z (-1) * 2 ^ 1000) == inject_Z (-1) * 2 ^ 1000)
    by (apply b64_dyadic; [reflexivity | lia]).
  assert (F1 : b64 (inject_Z 1 * 2 ^ 1001) == inject_Z 1 * 2 ^ 1001)
    by (apply b64_dyadic; [reflexivity | lia]).
  assert (F1' : b64 (inject_Z (-1) * 2 ^ 1001) == inject_Z (-1) * 2 ^ 1001)
    by (apply b64_dyadic; [reflexivity | lia]).
  assert (F2 : b64 (inject_Z 1 * 2 ^ 1018) == inject_Z 1 * 2 ^ 1018)
    by (apply b64_dyadic; [reflexivity | lia]).
  assert (F2' : b64 (inject_Z (-1) * 2 ^ 1018) == inject_Z (-1) * 2 ^ 1018)
    by (apply b64_dyadic; [reflexivity | lia]).
  assert (P1 : 2 ^ 1001 == 2 * 2 ^ 1000) by apply (pow2_succ 1000).
  assert (P2 : 2 ^ 1018 == 262144 * 2 ^ 1000).
  { change 1018%Z with (18 + 1000)%Z. rewrite pow2_add. reflexivity. }
  assert (P3 : 2 ^ 1024 == 16777216 * 2 ^ 1000).
  { change 1024%Z with (24 + 1000)%Z. rewrite pow2_add. reflexivity. }
  assert (Hone : 1 <= 2 ^ 1000).
  { change 1 with (2 ^ 0). apply pow2_le. lia. }
  change (inject_Z 1) with 1 in F0, F1, F2.
  change (inject_Z (-1)) with (-1) in F0', F1', F2'.
  assert (A1 : b64 (-1 * 2 ^ 1000) <= b64 S) by (apply b64_mono; lra).
  assert (A2 : b64 S <= b64 (1 * 2 ^ 1000)) by (apply b64_mono; lra).
  set (s' := b64 S) in *.
  assert (B1 : b64 (-1 * 2 ^ 1001) <= b64 (s' + r)) by (apply b64_mono; lra).
  assert (B2 : b64 (s' + r) <= b64 (1 * 2 ^ 1001)) by (apply b64_mono; lra).
  set (a := b64 (s' + r)) in *.
  assert (C1 : b64 (-1 * 2 ^ 1018) <= b64 (a * 100000)) by (apply b64_mono; lra).
  assert (C2 : b64 (a * 100000) <= b64 (1 * 2 ^ 1018)) by (apply b64_mono; lra).
  set (f := b64 (a * 100000)) in *.
  repeat split; apply Qabs_Qlt_condition; split; lra.
Qed.


End FitnessRange.

(** * The rounding agrees with the IEEE 754 operations *)

(** On every pair of sample values, each operation of the model returns the
    value of the IEEE operation whenever that one is finite. *)
Example b64_agrees_with_ieee :
  IEEE.all_pairs IEEE.agree_add = true /\ IEEE.all_pairs IEEE.agree_sub = true /\
  IEEE.all_pairs IEEE.agree_mul = true /\ IEEE.all_pairs IEEE.agree_div = true.
Proof. vm_compute. repeat split. Qed.

Example compute_fitness_agrees_with_ieee :
  forallb (fun st : Z * Z =>
             match compute_fitness st.1 st.2 with
             | Some f => IEEE.agrees f (IEEE.fitness st.1 st.2)
             | None => false
             end)
    [(1, 2 ^ 54); (0, 1); (3, 7); (0, 10); (12, 345); (2 ^ 52, 3); (7, 2 ^ 60)]%Z
  = true.
Proof. vm_compute. reflexivity. Qed.

(** * Claims about the fitness contract *)

Section FitnessClaims.
Import B64 B64Facts.
Local Open Scope Q_scope.

(** C6, as stated, fails on the code: with score 1 after 2^54 steps the
    tie-breaker is lost in the rounding of [1 + 1 / 2^54], and the fitness
    equals that of score 0 after one step. *)
Lemma fitness_tie_breaker_absorbed :
  compute_fitness 1 (2 ^ 54) = Some 100000 /\ compute_fitness 0 1 = Some 100000.
Proof. split; vm_compute; reflexivity. Qed.

(** C6 (amended): for integer scores [0 <= s2 < s1 < 2^53] and positive
    steps, the fitness computed for the higher score is never below the one
    computed for the lower score, whatever the steps, and the computed
    tie-breaker [1 / steps] lies in [0, 1].  The fitness is strictly greater
    when the higher score is below 2^20 and was reached in at most 2^32
    steps. *)
Theorem fitness_score_dominates (s1 s2 t1 t2 : Z) :
  (0 <= s2 < s1)%Z -> (s1 < 2 ^ 53)%Z -> (0 < t1)%Z -> (0 < t2)%Z ->
  exists f1 f2 r1,
    compute_fitness s1 t1 = Some f1 /\ compute_fitness s2 t2 = Some f2 /\
    int_truediv 1 t1 = Some r1 /\ 0 <= r1 <= 1 /\
    f2 <= f1 /\
    ((s1 < 2 ^ 20)%Z -> (t1 <= 2 ^ 32)%Z -> f2 < f1).
Proof.
  intros Hs Hs1 Ht1 Ht2.
  eexists _, _, _.
  split; [apply compute_fitness_eq; exact Ht1 |].
  split; [apply compute_fitness_eq; exact Ht2 |].
  split; [apply int_truediv_1; exact Ht1 |].
  split; [apply tie_breaker_bounds; exact Ht1 |].
  pose proof (fitness_upper s2 t2 ltac:(lia) ltac:(lia) Ht2) as Hup.
  pose proof (fitness_lower s1 t1 ltac:(lia) Ht1) as Hlo.
  assert (Hmid : inject_Z ((s2 + 1) * 100000) <= inject_Z (s1 * 100000))
    by (rewrite <- Zle_Qle; lia).
  split.
  - apply b64_mono in Hmid. lra.
  - intros Hs20 Ht32.
    pose proof (fitness_lower_strict s1 t1 ltac:(lia) ltac:(lia)) as Hst.
    assert (Hfix : b64 (inject_Z ((s2 + 1) * 100000)) == inject_Z ((s2 + 1) * 100000))
      by (apply b64_inject_Z; lia).
    lra.
Qed.

Lemma fitness_score_dominates_witness :
  exists f1 f2 r1,
    compute_fitness 3 7 = Some f1 /\ compute_fitness 2 1 = Some f2 /\
    int_truediv 1 7 = Some r1 /\ 0 <= r1 <= 1 /\
    f2 <= f1 /\
    ((3 < 2 ^ 20)%Z -> (7 <= 2 ^ 32)%Z -> f2 < f1).
Proof. apply (fitness_score_dominates 3 2 7 1); lia. Defined.

End FitnessClaims.

(** * The state monad and the random source *)

Section MonadFacts.
Local Open Scope engine_scope.

Lemma bind_Some {A B} (m : M A) (k : A -> M B) (w w'' : world) (b : B) :
  bind m k w = Some (b, w'') <->
  exists a w', m w = Some (a, w') /\ k a w' = Some (b, w'').
Proof.
  unfold bind. split.
  - destruct (m w) as [[a w'] |]; [| discriminate]. intros H. now exists a, w'.
  - intros (a & w' & Hm & Hk). now rewrite Hm.
Qed.

Lemma bind_eq {A B} (m : M A) (k : A -> M B) (w w' : world) (a : A) :
  m w = Some (a, w') -> bind m k w = k a w'.
Proof. intros H. unfold bind. now rewrite H. Qed.

Lemma skip_0 (w : world) : skip 0 w = w.
Proof. destruct w. unfold skip. cbn. now rewrite Nat.add_0_r. Qed.

Lemma skip_advance (n : nat) (w : world) : skip n (advance w) = skip (S n) w.
Proof. unfold skip, advance. cbn. f_equal. lia. Qed.

Lemma skip_skip (n m : nat) (w : world) : skip n (skip m w) = skip (m + n) w.
Proof. unfold skip. cbn. f_equal. lia. Qed.

(** A monadic draw reads the stream at the cursor and moves it by one. *)
Lemma repeatM_draw {A} (m : M A) (f : nat -> A) :
  (forall w, m w = Some (f (cursor w), advance w)) ->
  forall n w, repeatM n m w = Some (map f (seq (cursor w) n), skip n w).
Proof.
  intros Hm n. induction n as [| n IH]; intros w.
  - cbn. unfold ret. now rewrite skip_0.
  - cbn [repeatM]. rewrite (bind_eq _ _ _ _ _ (Hm w)).
    rewrite (bind_eq _ _ _ _ _ (IH (advance w))).
    unfold ret. now rewrite skip_advance.
Qed.

End MonadFacts.

Section RandomFacts.
Variable E : Env.
Local Open Scope engine_scope.

Lemma next_raw_eq (w : world) : next_raw E w = Some (raw E (cursor w), advance w).
Proof. reflexivity. Qed.

Lemma random_sample_eq (w : world) :
  random_sample E w = Some (unit_of (raw E (cursor w)), advance w).
Proof. reflexivity. Qed.

Lemma standard_normal_eq (w : world) :
  standard_normal E w = Some (gauss E (cursor w), advance w).
Proof. reflexivity. Qed.

Lemma uniform_eq (low high : Q) (w : world) :
  uniform E low high w
  = Some (uniform_of low high (unit_of (raw E (cursor w))), advance w).
Proof. reflexivity. Qed.

Lemma randint_eq (high : Z) (w : world) :
  (0 < high)%Z ->
  randint E 0 high w = Some ((raw E (cursor w) mod high)%Z, advance w).
Proof.
  intros H. unfold randint. destruct (Z.ltb_spec 0 high); [| lia].
  unfold bind, ret. cbn. now rewrite Z.sub_0_r.
Qed.

Lemma permute_Permutation {A} (ks : list Z) (l : list A) : permute ks l ≡ₚ l.
Proof.
  revert l. induction ks as [| k ks IH]; intros l; [reflexivity |].
  cbn [permute].
  destruct (l !! Z.to_nat (k mod Z.of_nat (length l))) as [x |] eqn:Hx; [| reflexivity].
  rewrite IH. symmetry. now apply delete_Permutation.
Qed.

Lemma shuffle_eq {A} (l : list A) (w : world) :
  shuffle E l w
  = Some (permute (map (raw E) (seq (cursor w) (length l))) l, skip (length l) w).
Proof.
  unfold shuffle.
  now rewrite (bind_eq _ _ _ _ _ (repeatM_draw _ _ (next_raw_eq) (length l) w)).
Qed.

End RandomFacts.

(** * Roulette-wheel selection *)

Section RouletteFacts.
Variable E : Env.
Import B64 B64Facts.
Local Open Scope Q_scope.

Lemma Qltb_lt (x y : Q) : Qltb x y = true <-> x < y.
Proof.
  unfold Qltb. rewrite negb_true_iff. split.
  - intros H. apply Qnot_le_lt. intros Hle. apply Qle_bool_iff in Hle. congruence.
  - intros H. destruct (Qle_bool y x) eqn:Hb; [| reflexivity].
    apply Qle_bool_iff in Hb. lra.
Qed.

Lemma Qltb_ge (x y : Q) : Qltb x y = false <-> y <= x.
Proof.
  unfold Qltb. rewrite negb_false_iff. apply Qle_bool_iff.
Qed.

Lemma wheel_from_cons (c : Q) (i : Individual) (pop : list Individual) :
  wheel_from c (i :: pop) = wheel_from (fadd c (fitness i)) pop.
Proof. reflexivity. Qed.

Lemma wheel_from_take_S (c : Q) (i : Individual) (pop : list Individual) (n : nat) :
  wheel_from c (take (S n) (i :: pop)) = wheel_from (fadd c (fitness i)) (take n pop).
Proof. reflexivity. Qed.

Lemma wheel_from_take_0 (c : Q) (pop : list Individual) :
  wheel_from c (take 0 pop) = c.
Proof. reflexivity. Qed.

(** What the inner loop returns: the first individual, in population order,
    whose running total exceeds the pick. *)
Lemma spin_first (pop : list Individual) (c pick : Q) (i : Individual) :
  spin pop c pick = Some i <->
  exists n : nat,
    pop !! n = Some i /\
    pick < wheel_from c (take (S n) pop) /\
    forall m : nat, (m < n)%nat -> wheel_from c (take (S m) pop) <= pick.
Proof.
  revert c. induction pop as [| i0 rest IH]; intros c.
  - cbn [spin]. split; [discriminate | intros (n & Hn & _); discriminate].
  - cbn [spin].
    destruct (Qltb pick (fadd c (fitness i0))) eqn:Hb.
    + apply Qltb_lt in Hb. split.
      * intros [= <-]. exists 0%nat.
        rewrite wheel_from_take_S, wheel_from_take_0.
        repeat split; [exact Hb | intros m Hm; lia].
      * intros (n & Hn & Hlt & Hfirst). destruct n as [| n]; [now cbn in Hn |].
        specialize (Hfirst 0%nat ltac:(lia)).
        rewrite wheel_from_take_S, wheel_from_take_0 in Hfirst. lra.
    + apply Qltb_ge in Hb. rewrite IH. split.
      * intros (n & Hn & Hlt & Hfirst). exists (S n).
        rewrite wheel_from_take_S.
        repeat split; [exact Hn | exact Hlt |].
        intros [| m] Hm; rewrite wheel_from_take_S; [now rewrite wheel_from_take_0 |].
        apply (Hfirst m). lia.
      * intros (n & Hn & Hlt & Hfirst). destruct n as [| n].
        { rewrite wheel_from_take_S, wheel_from_take_0 in Hlt. lra. }
        exists n. rewrite wheel_from_take_S in Hlt.
        repeat split; [exact Hn | exact Hlt |].
        intros m Hm. specialize (Hfirst (S m) ltac:(lia)).
        now rewrite wheel_from_take_S in Hfirst.
Qed.

Lemma spin_total (pop : list Individual) (c pick : Q) :
  c <= pick -> pick < wheel_from c pop -> is_Some (spin pop c pick).
Proof.
  revert c. induction pop as [| i0 rest IH]; intros c Hc Hlt.
  - change (wheel_from c []) with c in Hlt. lra.
  - cbn [spin]. destruct (Qltb pick (fadd c (fitness i0))) eqn:Hb; [eauto |].
    apply Qltb_ge in Hb. apply IH; [exact Hb | exact Hlt].
Qed.

Lemma uniform_of_0_0 (u : Q) : uniform_of 0 0 u = 0.
Proof.
  unfold uniform_of, fadd, fmul, fsub.
  rewrite (b64_comp (0 - 0) 0) by ring. rewrite b64_0.
  rewrite (b64_comp (0 * u) 0) by ring. rewrite b64_0.
  reflexivity.
Qed.

(** A pick below the wheel always stops the inner loop. *)
Lemma spin_pick_total (pop : list Individual) (c : nat) :
  pick_at E (wheel_sum pop) c < wheel_sum pop ->
  is_Some (spin pop 0 (pick_at E (wheel_sum pop) c)).
Proof.
  destruct pop as [| i0 rest].
  - unfold pick_at. change (wheel_sum []) with 0. rewrite uniform_of_0_0. intros H. lra.
  - intros Hlt. set (pick := pick_at E (wheel_sum (i0 :: rest)) c) in *.
    cbn [spin]. destruct (Qltb pick (fadd 0 (fitness i0))) eqn:Hb; [eauto |].
    apply Qltb_ge in Hb. apply spin_total; [exact Hb | exact Hlt].
Qed.

(** The selection loop in closed form: one pick per turn, kept when the inner
    loop stops on an individual. *)
Lemma roulette_loop_eq (pop : list Individual) (wheel : Q) (n : nat)
    (sel : list Individual) (w : world) :
  roulette_loop E pop wheel n sel w
  = Some (sel ++ omap (fun c => spin pop 0 (pick_at E wheel c)) (seq (cursor w) n),
          skip n w).
Proof.
  revert sel w. induction n as [| n IH]; intros sel w.
  - cbn. unfold ret. now rewrite skip_0, app_nil_r.
  - cbn [roulette_loop]. rewrite (bind_eq _ _ _ _ _ (uniform_eq E 0 wheel w)).
    rewrite IH, skip_advance. cbn [seq omap list_omap]. f_equal. f_equal.
    unfold pick_at.
    destruct (spin pop 0 (uniform_of 0 wheel (unit_of (raw E (cursor w)))));
      [now rewrite <- app_assoc | reflexivity].
Qed.

Lemma roulette_wheel_selection_eq (self : GA) (size : Z) (w : world) :
  roulette_wheel_selection E self size w
  = Some (omap (fun c => spin (population self) 0
                           (pick_at E (wheel_sum (population self)) c))
               (seq (cursor w) (Z.to_nat size)),
          skip (Z.to_nat size) w).
Proof. unfold roulette_wheel_selection. now rewrite roulette_loop_eq. Qed.

Lemma omap_total {A B} (f : A -> option B) (l : list A) :
  Forall (fun x => is_Some (f x)) l ->
  length (omap f l) = length l /\
  forall j x, l !! j = Some x -> omap f l !! j = f x.
Proof.
  induction 1 as [| x l [y Hy] _ [IHlen IHnth]]; [split; [reflexivity | intros j x; discriminate] |].
  cbn. rewrite Hy. split; [cbn; now rewrite IHlen |].
  intros [| j] x'; cbn; [intros [= <-]; now rewrite Hy | apply IHnth].
Qed.

Lemma omap_none {A B} (f : A -> option B) (l : list A) :
  Forall (fun x => f x = None) l -> omap f l = [].
Proof. induction 1 as [| x l Hx _ IH]; [reflexivity |]. cbn. now rewrite Hx. Qed.

Lemma wheel_from_zero (pop : list Individual) :
  Forall (fun i => fitness i == 0) pop -> wheel_from 0 pop = 0.
Proof.
  induction 1 as [| i pop Hi _ IH]; [reflexivity |].
  rewrite wheel_from_cons. unfold fadd.
  rewrite (b64_comp (0 + fitness i) 0) by (rewrite Hi; ring).
  rewrite b64_0. exact IH.
Qed.

Lemma spin_zero (pop : list Individual) :
  Forall (fun i => fitness i == 0) pop -> spin pop 0 0 = None.
Proof.
  induction 1 as [| i pop Hi _ IH]; [reflexivity |].
  cbn [spin]. unfold fadd.
  rewrite (b64_comp (0 + fitness i) 0) by (rewrite Hi; ring).
  rewrite b64_0. exact IH.
Qed.

End RouletteFacts.

(** * The picks on a wheel of normal size *)

Section RouletteRange.
Variable E : Env.
Import B64 B64Facts.
Local Open Scope Q_scope.

(** The largest draw of [np.random.random] is [1 - 2^-53]. *)
Lemma unit_of_top (r : Z) : 0 <= unit_of r /\ unit_of r <= 1 - 2 ^ (-53).
Proof.
  unfold unit_of. rewrite Qred_correct.
  pose proof (Z.mod_pos_bound r (2 ^ 53) ltac:(lia)) as Hb.
  assert (Hv : 1 - 2 ^ (-53) == (2 ^ 53 - 1) # 2 ^ 53) by reflexivity.
  rewrite Hv. unfold Qle. cbn [Qnum Qden].
  change (Z.pos (2 ^ 53)) with (2 ^ 53)%Z. lia.
Qed.

(** [np.random.uniform(0, wheel)] stays below a wheel above 2^-1022: the
    product [wheel * u] is at least [wheel * 2^-53] below the wheel, more
    than half a unit in its last place. *)
Lemma uniform_below (wheel u : Q) :
  representable wheel -> 2 ^ (-1022) < wheel ->
  0 <= u -> u <= 1 - 2 ^ (-53) ->
  uniform_of 0 wheel u < wheel.
Proof.
  intros Hrep Hw Hu0 Hu1.
  pose proof (pow2_pos (-1022)) as Hp.
  assert (Hv : 2 ^ (-53) == 1 # 9007199254740992) by reflexivity.
  assert (Ht : 2 ^ (-1075) == 2 ^ (-1022) * (1 # 9007199254740992)) by reflexivity.
  assert (Hh : 2 ^ (-52) * (1 # 2) == 1 # 9007199254740992) by reflexivity.
  assert (Hk : 2 ^ (-1074) * (1 # 2) == 2 ^ (-1075)) by reflexivity.
  rewrite Hv in Hu1.
  unfold uniform_of, fadd, fmul, fsub.
  rewrite (b64_comp (wheel - 0) wheel) by ring.
  rewrite (b64_comp (b64 wheel * u) (wheel * u)) by (rewrite (b64_fix wheel Hrep); ring).
  rewrite (b64_comp (0 + b64 (wheel * u)) (b64 (wheel * u))) by ring.
  rewrite b64_idem.
  assert (Hx : wheel * u <= wheel - wheel * (1 # 9007199254740992)).
  { assert (wheel * u <= wheel * (1 - (1 # 9007199254740992)))
      by (apply Qmult_le_l; lra).
    lra. }
  set (x := wheel * u) in *.
  assert (Hx0 : 0 <= x) by (apply Qmult_le_0_compat; lra).
  unfold b64. destruct (Qcompare_spec x 0) as [E0 | E0 | E0]; [lra | lra |].
  destruct (round_pos_err x E0) as [Herr _].
  destruct (fexp_pow x E0) as [Hle | Hs].
  - assert (Hm : 2 ^ fexp x * (1 # 2) <= x * 2 ^ (-52) * (1 # 2))
      by (apply Qmult_le_compat_r; lra).
    assert (Hr : x * 2 ^ (-52) * (1 # 2) == x * (1 # 9007199254740992))
      by (rewrite <- Hh; ring).
    lra.
  - rewrite Hs in Herr.
    assert (Hg : 2 ^ (-1022) * (1 # 9007199254740992) < wheel * (1 # 9007199254740992))
      by (apply Qmult_lt_compat_r; [reflexivity | exact Hw]).
    lra.
Qed.

Lemma uniform_nonneg (wheel u : Q) :
  0 <= wheel -> 0 <= u -> 0 <= uniform_of 0 wheel u.
Proof.
  intros Hw Hu. unfold uniform_of, fadd, fmul, fsub.
  assert (H1 : 0 <= b64 (wheel - 0)) by (apply b64_nonneg; lra).
  assert (H2 : 0 <= b64 (b64 (wheel - 0) * u))
    by (apply b64_nonneg, Qmult_le_0_compat; assumption).
  apply b64_nonneg. lra.
Qed.

Lemma wheel_from_representable (c : Q) (pop : list Individual) :
  pop <> [] -> representable (wheel_from c pop).
Proof.
  revert c. induction pop as [| i rest IH]; intros c Hne; [contradiction |].
  rewrite wheel_from_cons. destruct rest as [| j rest'].
  - apply b64_representable.
  - apply IH. discriminate.
Qed.

Lemma wheel_from_lower (c : Q) (pop : list Individual) :
  2 ^ (-1021) <= c -> Forall (fun i => 0 <= fitness i) pop ->
  2 ^ (-1021) <= wheel_from c pop.
Proof.
  intros Hc Hpop. revert c Hc. induction Hpop as [| i rest Hi _ IH]; intros c Hc.
  - exact Hc.
  - rewrite wheel_from_cons. apply IH. unfold fadd.
    assert (Hfix : b64 (inject_Z 1 * 2 ^ (-1021)) == inject_Z 1 * 2 ^ (-1021))
      by (apply b64_dyadic; [reflexivity | lia]).
    change (inject_Z 1) with 1 in Hfix.
    assert (Hm : b64 (1 * 2 ^ (-1021)) <= b64 (c + fitness i)) by (apply b64_mono; lra).
    lra.
Qed.

(** A population of normal positive fitnesses has a normal wheel. *)
Lemma wheel_sum_normal (pop : list Individual) :
  pop <> [] -> Forall (fun i => 2 ^ (-1021) <= fitness i) pop ->
  representable (wheel_sum pop) /\ 2 ^ (-1021) <= wheel_sum pop.
Proof.
  intros Hne Hpop. split; [now apply wheel_from_representable |].
  pose proof (pow2_pos (-1021)) as Hp.
  destruct Hpop as [| i rest Hi Hrest]; [contradiction |].
  change (wheel_sum (i :: rest)) with (wheel_from (fadd 0 (fitness i)) rest).
  apply wheel_from_lower.
  - unfold fadd.
    assert (Hfix : b64 (inject_Z 1 * 2 ^ (-1021)) == inject_Z 1 * 2 ^ (-1021))
      by (apply b64_dyadic; [reflexivity | lia]).
    change (inject_Z 1) with 1 in Hfix.
    assert (Hm : b64 (1 * 2 ^ (-1021)) <= b64 (0 + fitness i)) by (apply b64_mono; lra).
    lra.
  - eapply Forall_impl; [exact Hrest |]. intros j Hj. cbv beta in Hj. lra.
Qed.

(** On such a population every pick falls below the wheel. *)
Lemma picks_below_wheel (pop : list Individual) :
  pop <> [] -> Forall (fun i => 2 ^ (-1021) <= fitness i) pop ->
  picks_in_range E pop.
Proof.
  intros Hne Hpop c. destruct (wheel_sum_normal pop Hne Hpop) as [Hrep Hlow].
  destruct (unit_of_top (raw E c)) as [Hu0 Hu1].
  unfold pick_at. apply uniform_below; try assumption.
  pose proof (pow2_lt (-1022) (-1021) ltac:(lia)). lra.
Qed.

End RouletteRange.

(** * Claims about roulette-wheel selection *)

Section RouletteClaims.
Variable E : Env.
Local Open Scope Q_scope.

(** When every pick falls below the wheel, [roulette_wheel_selection]
    returns exactly [size] individuals, all of the population, and the one
    drawn by a pick is the first, in population order, whose cumulative
    fitness strictly exceeds the pick. *)
Lemma roulette_wheel_selection_draws (self : GA) (size : Z) (w : world) :
  (forall j : nat, (j < Z.to_nat size)%nat ->
     pick_at E (wheel_sum (population self)) (cursor w + j)
     < wheel_sum (population self)) ->
  exists sel : list Individual,
    roulette_wheel_selection E self size w = Some (sel, skip (Z.to_nat size) w) /\
    length sel = Z.to_nat size /\
    Forall (fun ind => ind ∈ population self) sel /\
    forall j : nat, (j < Z.to_nat size)%nat ->
      exists (n : nat) (ind : Individual),
        sel !! j = Some ind /\
        population self !! n = Some ind /\
        pick_at E (wheel_sum (population self)) (cursor w + j)
          < cumulative (population self) n /\
        forall m : nat, (m < n)%nat ->
          cumulative (population self) m
            <= pick_at E (wheel_sum (population self)) (cursor w + j).
Proof.
  intros Hpick. rewrite roulette_wheel_selection_eq.
  set (pop := population self) in *. set (wheel := wheel_sum pop) in *.
  set (f := fun c => spin pop 0 (pick_at E wheel c)).
  set (k := Z.to_nat size) in *.
  assert (Htot : Forall (fun c => is_Some (f c)) (seq (cursor w) k)).
  { apply Forall_lookup. intros j c Hj. apply lookup_seq in Hj as [-> Hj].
    apply spin_pick_total, Hpick, Hj. }
  destruct (omap_total f _ Htot) as [Hlen Hnth]. rewrite length_seq in Hlen.
  assert (Hdraw : forall j, (j < k)%nat ->
            exists n ind, omap f (seq (cursor w) k) !! j = Some ind /\
              pop !! n = Some ind /\
              pick_at E wheel (cursor w + j) < cumulative pop n /\
              forall m, (m < n)%nat -> cumulative pop m <= pick_at E wheel (cursor w + j)).
  { intros j Hj.
    assert (Hs : seq (cursor w) k !! j = Some (cursor w + j)%nat)
      by (apply lookup_seq; split; [reflexivity | exact Hj]).
    specialize (Hnth j _ Hs).
    destruct (spin_pick_total E pop (cursor w + j) (Hpick j Hj)) as [ind Hind].
    fold wheel in Hind.
    destruct (proj1 (spin_first pop 0 _ ind) Hind) as (n & Hn & Hlt & Hfirst).
    exists n, ind. unfold f in Hnth at 2. rewrite Hnth.
    repeat split; [exact Hind | exact Hn | exact Hlt | exact Hfirst]. }
  eexists. split; [reflexivity |]. split; [exact Hlen |]. split; [| exact Hdraw].
  apply Forall_lookup. intros j ind Hj.
  assert (Hjk : (j < k)%nat) by (rewrite <- Hlen; eapply lookup_lt_Some, Hj).
  destruct (Hdraw j Hjk) as (n & ind' & Hj' & Hn & _).
  rewrite Hj in Hj'. injection Hj' as <-.
  eapply list_elem_of_lookup_2, Hn.
Qed.

(** C3 (amended): on a non-empty population in which every fitness is at
    least 2^-1021 (a positive normal float) and whose wheel is a finite
    float, [roulette_wheel_selection] returns exactly [size] individuals, all
    of the population; the one drawn by a pick is the first, in population
    order, whose cumulative fitness strictly exceeds the pick.  The picks
    need no assumption: on such a population every value of
    [np.random.uniform(0, wheel)] lies in [0, wheel). *)
Theorem roulette_wheel_selection_selects (self : GA) (size : Z) (w : world) :
  population self <> [] ->
  Forall (fun i => 2 ^ (-1021) <= fitness i) (population self) ->
  wheel_sum (population self) < 2 ^ 1024 ->
  (forall c : nat,
     0 <= pick_at E (wheel_sum (population self)) c /\
     pick_at E (wheel_sum (population self)) c < wheel_sum (population self)) /\
  exists sel : list Individual,
    roulette_wheel_selection E self size w = Some (sel, skip (Z.to_nat size) w) /\
    length sel = Z.to_nat size /\
    Forall (fun ind => ind ∈ population self) sel /\
    forall j : nat, (j < Z.to_nat size)%nat ->
      exists (n : nat) (ind : Individual),
        sel !! j = Some ind /\
        population self !! n = Some ind /\
        pick_at E (wheel_sum (population self)) (cursor w + j)
          < cumulative (population self) n /\
        forall m : nat, (m < n)%nat ->
          cumulative (population self) m
            <= pick_at E (wheel_sum (population self)) (cursor w + j).
Proof.
  intros Hne Hfit _. split.
  - intros c. split; [| apply (picks_below_wheel E (population self) Hne Hfit)].
    destruct (wheel_sum_normal (population self) Hne Hfit) as [_ Hlow].
    pose proof (B64Facts.pow2_pos (-1021)) as Hp.
    apply uniform_nonneg; [lra | apply unit_of_top].
  - apply roulette_wheel_selection_draws.
    intros j _. apply (picks_below_wheel E (population self) Hne Hfit).
Qed.

(** C10: when every fitness is zero the wheel is zero, every pick is zero,
    no cumulative fitness exceeds a pick, and [roulette_wheel_selection]
    returns the empty list whatever the number of draws asked for. *)
Theorem roulette_wheel_selection_all_zero (self : GA) (size : Z) (w : world) :
  Forall (fun i => fitness i == 0) (population self) ->
  wheel_sum (population self) = 0 /\
  (forall c : nat, pick_at E (wheel_sum (population self)) c = 0) /\
  roulette_wheel_selection E self size w = Some ([], skip (Z.to_nat size) w).
Proof.
  intros Hz.
  assert (Hw : wheel_sum (population self) = 0) by (apply wheel_from_zero, Hz).
  assert (Hp : forall c, pick_at E (wheel_sum (population self)) c = 0).
  { intros c. unfold pick_at. rewrite Hw. apply uniform_of_0_0. }
  split; [exact Hw |]. split; [exact Hp |].
  rewrite roulette_wheel_selection_eq. f_equal. f_equal.
  apply omap_none, Forall_forall. intros c _. rewrite Hp. apply spin_zero, Hz.
Qed.

End RouletteClaims.

Lemma roulette_wheel_selection_selects_witness :
  (forall c : nat,
     (0 <= pick_at demo_env (wheel_sum [demo_individual 0 1; demo_individual 1 3]) c)%Q /\
     (pick_at demo_env (wheel_sum [demo_individual 0 1; demo_individual 1 3]) c
      < wheel_sum [demo_individual 0 1; demo_individual 1 3])%Q) /\
  exists sel : list Individual,
    roulette_wheel_selection demo_env
      (demo_engine 2 2 [demo_individual 0 1; demo_individual 1 3]) 2 demo_world
    = Some (sel, skip (Z.to_nat 2) demo_world) /\
    length sel = Z.to_nat 2 /\
    Forall (fun ind => ind ∈ [demo_individual 0 1; demo_individual 1 3]) sel /\
    forall j : nat, (j < Z.to_nat 2)%nat ->
      exists (n : nat) (ind : Individual),
        sel !! j = Some ind /\
        [demo_individual 0 1; demo_individual 1 3] !! n = Some ind /\
        (pick_at demo_env (wheel_sum [demo_individual 0 1; demo_individual 1 3]) (0 + j)
          < cumulative [demo_individual 0 1; demo_individual 1 3] n)%Q /\
        forall m : nat, (m < n)%nat ->
          (cumulative [demo_individual 0 1; demo_individual 1 3] m
            <= pick_at demo_env (wheel_sum [demo_individual 0 1; demo_individual 1 3]) (0 + j))%Q.
Proof.
  apply (roulette_wheel_selection_selects demo_env
           (demo_engine 2 2 [demo_individual 0 1; demo_individual 1 3]) 2 demo_world).
  - discriminate.
  - repeat constructor; vm_compute; discriminate.
  - vm_compute. reflexivity.
Defined.

(** C3, as stated, fails on the code: strictly positive fitnesses do not keep
    the picks below the wheel.  With a single individual of fitness 2^-1074,
    the smallest positive float, and the draw [1 - 2^-53], the product
    [wheel * u] rounds back to the wheel: the pick equals the wheel, no
    cumulative fitness exceeds it, and one draw returns no individual. *)
Lemma roulette_wheel_selection_tiny_wheel :
  [demo_individual 0 tiny_fitness] <> [] /\
  Forall (fun i => 0 < fitness i)%Q [demo_individual 0 tiny_fitness] /\
  pick_at top_env (wheel_sum [demo_individual 0 tiny_fitness]) 0
  = wheel_sum [demo_individual 0 tiny_fitness] /\
  roulette_wheel_selection top_env
    (demo_engine 2 2 [demo_individual 0 tiny_fitness]) 1 demo_world
  = Some ([], skip (Z.to_nat 1) demo_world).
Proof.
  split; [discriminate |]. split; [repeat constructor |].
  split; vm_compute; reflexivity.
Qed.

Lemma roulette_wheel_selection_all_zero_witness :
  wheel_sum [new_Individual 0; new_Individual 1] = 0%Q /\
  (forall c : nat, pick_at demo_env (wheel_sum [new_Individual 0; new_Individual 1]) c = 0%Q) /\
  roulette_wheel_selection demo_env
    (demo_engine 2 2 [new_Individual 0; new_Individual 1]) 2 demo_world
  = Some ([], skip (Z.to_nat 2) demo_world).
Proof.
  apply (roulette_wheel_selection_all_zero demo_env
           (demo_engine 2 2 [new_Individual 0; new_Individual 1]) 2 demo_world).
  repeat constructor.
Defined.

(** * Elitism selection *)

Section ElitismFacts.
Local Open Scope Q_scope.

Lemma insert_desc_Permutation (x : Individual) (l : list Individual) :
  insert_desc x l ≡ₚ x :: l.
Proof.
  induction l as [| y l IH]; [reflexivity |].
  cbn [insert_desc]. destruct (Qle_bool (fitness y) (fitness x)); [reflexivity |].
  rewrite IH. apply Permutation_swap.
Qed.

Lemma sorted_desc_Permutation (l : list Individual) : sorted_desc l ≡ₚ l.
Proof.
  induction l as [| x l IH]; [reflexivity |].
  cbn [sorted_desc foldr]. fold (sorted_desc l).
  now rewrite insert_desc_Permutation, IH.
Qed.

Lemma insert_desc_sorted (x : Individual) (l : list Individual) :
  StronglySorted fitter l -> StronglySorted fitter (insert_desc x l).
Proof.
  induction l as [| y l IH]; intros Hs.
  - repeat constructor.
  - apply StronglySorted_cons in Hs as [Hy Hs]. cbn [insert_desc].
    destruct (Qle_bool (fitness y) (fitness x)) eqn:Hb.
    + apply Qle_bool_iff in Hb.
      apply StronglySorted_cons. split.
      * constructor; [exact Hb |].
        eapply Forall_impl; [exact Hy |]. unfold fitter. intros z Hz. lra.
      * apply StronglySorted_cons. split; assumption.
    + assert (Hlt : fitness x < fitness y).
      { apply Qnot_le_lt. intros Hle. apply Qle_bool_iff in Hle. congruence. }
      apply StronglySorted_cons. split; [| apply IH, Hs].
      rewrite insert_desc_Permutation. constructor; [| exact Hy].
      unfold fitter. lra.
Qed.

Lemma sorted_desc_sorted (l : list Individual) : StronglySorted fitter (sorted_desc l).
Proof.
  induction l as [| x l IH]; [constructor |].
  cbn [sorted_desc foldr]. fold (sorted_desc l). apply insert_desc_sorted, IH.
Qed.

Lemma slice_to_nonneg {A} (l : list A) (k : Z) :
  (0 <= k)%Z -> slice_to l k = take (Z.to_nat k) l.
Proof. intros H. unfold slice_to. destruct (Z.ltb_spec k 0); [lia | reflexivity]. Qed.

Lemma elitism_selection_eq (self : GA) (k : Z) :
  (0 <= k)%Z ->
  elitism_selection self k = take (Z.to_nat k) (sorted_desc (population self)).
Proof. intros H. unfold elitism_selection. now apply slice_to_nonneg. Qed.

Lemma elitism_selection_length (self : GA) (k : Z) :
  (0 <= k <= Z.of_nat (length (population self)))%Z ->
  length (elitism_selection self k) = Z.to_nat k.
Proof.
  intros H. rewrite elitism_selection_eq by lia.
  rewrite length_take, (Permutation_length (sorted_desc_Permutation _)). lia.
Qed.

Lemma elitism_selection_submseteq (self : GA) (k : Z) :
  elitism_selection self k ⊆+ population self.
Proof.
  unfold elitism_selection, slice_to.
  transitivity (sorted_desc (population self)).
  - destruct (k <? 0)%Z; apply submseteq_take.
  - apply Permutation_submseteq, sorted_desc_Permutation.
Qed.


End ElitismFacts.

Section ElitismClaims.
Local Open Scope Q_scope.

(** C7: for [0 <= k <= len(population)], [elitism_selection k] returns
    exactly [k] individuals, in descending order of fitness, all taken from
    the population (each at most as often as it occurs there), and none left
    out is fitter than one selected.  The selection is a value computed from
    the engine: it has no effect on the population. *)
Theorem elitism_selection_top (self : GA) (k : Z) :
  (0 <= k <= Z.of_nat (length (population self)))%Z ->
  length (elitism_selection self k) = Z.to_nat k /\
  StronglySorted fitter (elitism_selection self k) /\
  Forall (fun i => i ∈ population self) (elitism_selection self k) /\
  exists rest : list Individual,
    population self ≡ₚ elitism_selection self k ++ rest /\
    forall x y, x ∈ elitism_selection self k -> y ∈ rest -> fitter x y.
Proof.
  intros Hk. split; [apply elitism_selection_length, Hk |].
  pose proof (sorted_desc_sorted (population self)) as Hs.
  rewrite <- (take_drop (Z.to_nat k)) in Hs.
  apply StronglySorted_app in Hs as (Hcross & Hl & _).
  rewrite <- elitism_selection_eq in Hl, Hcross by lia.
  split; [exact Hl |]. split.
  - apply Forall_forall. intros x Hx.
    eapply elem_of_submseteq; [exact Hx | apply elitism_selection_submseteq].
  - exists (drop (Z.to_nat k) (sorted_desc (population self))). split; [| exact Hcross].
    rewrite elitism_selection_eq by lia. rewrite take_drop.
    symmetry. apply sorted_desc_Permutation.
Qed.

End ElitismClaims.

Lemma elitism_selection_top_witness :
  let self := demo_engine 2 2
                [demo_individual 0 1; demo_individual 1 3; demo_individual 2 2] in
  length (elitism_selection self 2) = Z.to_nat 2 /\
  StronglySorted fitter (elitism_selection self 2) /\
  Forall (fun i => i ∈ population self) (elitism_selection self 2) /\
  exists rest : list Individual,
    population self ≡ₚ elitism_selection self 2 ++ rest /\
    forall x y, x ∈ elitism_selection self 2 -> y ∈ rest -> fitter x y.
Proof.
  apply (elitism_selection_top
           (demo_engine 2 2
              [demo_individual 0 1; demo_individual 1 3; demo_individual 2 2]) 2).
  cbn. lia.
Defined.

(** * Buffers: copies, slice assignment, crossover, mutation *)

Section HeapFacts.
Implicit Types h : gmap nat (list Q).

Lemma view_assign_eq h (a n : nat) (src g : list Q) :
  h !! a = Some g -> length src = min n (length g) ->
  view_assign h (View a n) src = Some (<[a := src ++ drop n g]> h).
Proof.
  intros Ha Hlen. unfold view_assign. cbn [v_base v_stop]. rewrite Ha. cbn.
  destruct (decide (length src = n `min` length g)) as [_ | Hne]; [| contradiction].
  do 3 f_equal.
  destruct (Nat.le_gt_cases n (length g)) as [Hle | Hgt].
  - now rewrite Nat.min_l by exact Hle.
  - rewrite Nat.min_r by lia. now rewrite !drop_ge by lia.
Qed.

(** What the slice exchange does on two distinct arrays of one length: the
    first array receives the prefix of the second, and the second array is
    written with its own prefix. *)
Lemma crossover_at_distinct h (point c1 c2 : nat) (g1 g2 : list Q) :
  c1 <> c2 -> h !! c1 = Some g1 -> h !! c2 = Some g2 -> length g1 = length g2 ->
  crossover_at point c1 c2 h
  = Some (<[c2 := g2]> (<[c1 := take (S point) g2 ++ drop (S point) g1]> h)).
Proof.
  intros Hne H1 H2 Hlen. unfold crossover_at. rewrite Nat.add_1_r.
  cbv zeta. unfold view_read. cbn [v_base v_stop]. rewrite H2.
  cbn [fmap option_fmap option_map mbind option_bind].
  rewrite (view_assign_eq h c1 (S point) _ g1 H1)
    by (rewrite length_take; lia).
  cbn [mbind option_bind]. rewrite lookup_insert_eq.
  cbn [fmap option_fmap option_map mbind option_bind].
  assert (Hy : take (S point) (take (S point) g2 ++ drop (S point) g1) = take (S point) g2).
  { destruct (Nat.le_gt_cases (S point) (length g2)) as [Hle | Hgt].
    - rewrite take_app_le by (rewrite length_take; lia).
      now rewrite take_take, Nat.min_id.
    - rewrite (drop_ge g1) by lia. rewrite app_nil_r.
      now rewrite take_take, Nat.min_id. }
  rewrite Hy.
  rewrite (view_assign_eq _ c2 (S point) _ g2)
    by (try rewrite lookup_insert_ne by exact Hne; try exact H2; rewrite length_take; lia).
  now rewrite take_drop.
Qed.

Lemma ndarray_copy_eq h (a : nat) (g : list Q) :
  h !! a = Some g ->
  ndarray_copy h a = Some (fresh (dom h), <[fresh (dom h) := g]> h).
Proof. intros Ha. unfold ndarray_copy. now rewrite Ha. Qed.

Lemma fresh_lookup h : h !! fresh (dom h) = None.
Proof. apply not_elem_of_dom, is_fresh. Qed.

Lemma mutate_cells_length (rate : Q) (g us zs : list Q) :
  length (mutate_cells rate g us zs) = length g.
Proof.
  revert us zs. induction g as [| x g IH]; intros us zs; [reflexivity |].
  destruct us as [| u us]; [reflexivity |]. destruct zs as [| z zs]; [reflexivity |].
  cbn. now rewrite IH.
Qed.

End HeapFacts.

(** * Reproduction *)

Section ReproductionFacts.
Variable E : Env.
Local Open Scope engine_scope.

Lemma has_genes_weaken (len : nat) (h h' : gmap nat (list Q)) (i : Individual) :
  h ⊆ h' -> has_genes len h i -> has_genes len h' i.
Proof.
  intros Hsub (g & Hg & Hl). exists g. split; [| exact Hl].
  eapply lookup_weaken; eassumption.
Qed.

Lemma copy_eq (a : nat) (g : list Q) (w : world) :
  heap w !! a = Some g ->
  copy a w = Some (fresh (dom (heap w)),
                     set_heap (<[fresh (dom (heap w)) := g]> (heap w)) w).
Proof. intros Ha. unfold copy. now rewrite (ndarray_copy_eq _ _ _ Ha). Qed.


Lemma mutate_eq (self : GA) (c : nat) (g : list Q) (w : world) :
  heap w !! c = Some g ->
  exists g' : list Q,
    length g' = length g /\
    mutate E self c w
    = Some (tt, set_heap (<[c := g']> (heap w)) (skip (length g) (skip (length g) w))).
Proof.
  intros Hc. unfold mutate.
  assert (Hload : load c w = Some (g, w)) by (unfold load, lift; now rewrite Hc).
  rewrite (bind_eq _ _ _ _ _ Hload).
  rewrite (bind_eq _ _ _ _ _
             (repeatM_draw (random_sample E) (fun c => unit_of (raw E c))
                (random_sample_eq E) (length g) w)).
  rewrite (bind_eq _ _ _ _ _
             (repeatM_draw (standard_normal E) (gauss E)
                (standard_normal_eq E) (length g) (skip (length g) w))).
  eexists. split; [| reflexivity]. apply mutate_cells_length.
Qed.


Lemma spin_member (pop : list Individual) (c pick : Q) (i : Individual) :
  spin pop c pick = Some i -> i ∈ pop.
Proof.
  intros H. apply spin_first in H as (n & Hn & _).
  eapply list_elem_of_lookup_2, Hn.
Qed.



End ReproductionFacts.

(** * The steps of a generation *)

Section GenerationFacts.
Variable E : Env.
Local Open Scope engine_scope.






Lemma select_phase_eq (self : GA) (w : world) :
  select_phase E self w
  = match head (elitism_selection self (p_size self)) with
    | Some best =>
        Some (set_population
                (permute (map (raw E)
                            (seq (cursor w)
                               (length (elitism_selection self (p_size self)))))
                   (elitism_selection self (p_size self)))
                (set_best_individual best self),
              skip (length (elitism_selection self (p_size self))) w)
    | None => None
    end.
Proof.
  unfold select_phase. cbv zeta. unfold bind at 1, lift.
  destruct (head (elitism_selection self (p_size self))); [| reflexivity].
  now rewrite (bind_eq _ _ _ _ _ (shuffle_eq E _ w)).
Qed.




End GenerationFacts.

(** * One generation *)

Section EvolveFacts.
Variable E : Env.
Local Open Scope engine_scope.


End EvolveFacts.

(** * Every completed run *)

(** The facts of this section ask nothing of the engine: they hold for every
    call that returns. *)

Section AnyRun.
Variable E : Env.
Local Open Scope engine_scope.
Implicit Types h : gmap nat (list Q).

Lemma head_slice_to {A} (l : list A) (k : Z) (x : A) :
  head (slice_to l k) = Some x -> head l = Some x.
Proof.
  unfold slice_to. destruct (k <? 0)%Z.
  - destruct (length l - Z.to_nat (- k))%nat, l; cbn; congruence.
  - destruct (Z.to_nat k), l; cbn; congruence.
Qed.

Lemma sorted_desc_head (l : list Individual) (b : Individual) :
  head (sorted_desc l) = Some b -> b ∈ l /\ Forall (fitter b) l.
Proof.
  intros Hb.
  pose proof (sorted_desc_sorted l) as Hs.
  pose proof (sorted_desc_Permutation l) as Hp.
  destruct (sorted_desc l) as [| x l']; [discriminate |].
  injection Hb as ->. apply StronglySorted_cons in Hs as [Hb _].
  split; [rewrite <- Hp; left |].
  rewrite <- Hp. constructor; [unfold fitter; apply Qle_refl | exact Hb].
Qed.

(** [best_individual] is a fittest individual of the evaluated population. *)
Lemma evolve_best_any_run (self self' : GA) (w w' : world) :
  evolve E self w = Some (self', w') ->
  exists (self1 : GA) (w1 : world) (best : Individual),
    evaluate_phase E self w = Some (self1, w1) /\
    best_individual self' = Some best /\
    best ∈ population self1 /\ Forall (fitter best) (population self1).
Proof.
  unfold evolve. intros H.
  apply bind_Some in H as (self1 & w1 & Heval & H).
  apply bind_Some in H as (self2 & w2 & Hsel & Hrep).
  rewrite select_phase_eq in Hsel.
  destruct (head (elitism_selection self1 (p_size self1))) as [best |] eqn:Hbest;
    [| discriminate].
  injection Hsel as <- <-.
  unfold reproduce_phase in Hrep.
  apply bind_Some in Hrep as (ch & w3 & _ & Hrep).
  apply bind_Some in Hrep as (ch' & w4 & _ & Hrep).
  injection Hrep as <- <-.
  exists self1, w1, best. split; [exact Heval |]. split; [reflexivity |].
  apply sorted_desc_head. eapply head_slice_to, Hbest.
Qed.

Lemma get_fitness_heap (i i' : Individual) (w w' : world) :
  get_fitness E i w = Some (i', w') -> heap w' = heap w.
Proof.
  unfold get_fitness. intros H.
  apply bind_Some in H as (g & w0 & Hload & H).
  unfold load, lift in Hload. destruct (heap w !! genes i) as [g0 |]; [| discriminate].
  injection Hload as <- <-.
  destruct (play E (plays w) g0) as [[sc st] sd].
  destruct (compute_fitness sc st); [| discriminate].
  now injection H as <- <-.
Qed.

Lemma evaluate_all_heap (pop : list Individual) (s : Z) (w w' : world)
    (r : list Individual * Z) :
  evaluate_all E pop s w = Some (r, w') -> heap w' = heap w.
Proof.
  revert s w r. induction pop as [| i pop IH]; intros s w r H.
  - now injection H as <- <-.
  - cbn [evaluate_all] in H.
    apply bind_Some in H as (i' & w1 & Hi & H).
    apply bind_Some in H as (r' & w2 & Hr & H).
    injection H as <- <-.
    rewrite (IH _ _ _ Hr). eapply get_fitness_heap, Hi.
Qed.

Lemma evaluate_phase_heap (self self1 : GA) (w w1 : world) :
  evaluate_phase E self w = Some (self1, w1) -> heap w1 = heap w.
Proof.
  unfold evaluate_phase. intros H.
  apply bind_Some in H as (r & w0 & Hr & H).
  apply bind_Some in H as (avg & w0' & Havg & H).
  injection H as <- <-.
  unfold lift in Havg. destruct (int_truediv _ _); [| discriminate].
  injection Havg as <- <-. eapply evaluate_all_heap, Hr.
Qed.

Lemma select_phase_heap (self self2 : GA) (w w2 : world) :
  select_phase E self w = Some (self2, w2) -> heap w2 = heap w.
Proof.
  rewrite select_phase_eq.
  destruct (head _); [| discriminate]. now intros [= <- <-].
Qed.

Lemma view_assign_inv h h' (v : view) (src : list Q) :
  view_assign h v src = Some h' -> exists g : list Q, h' = <[v_base v := g]> h.
Proof.
  unfold view_assign. destruct (h !! v_base v) as [g |]; [| discriminate]. cbn.
  repeat case_decide; intros [= <-]; eauto.
Qed.

Lemma crossover_at_inv h h' (point c1 c2 : nat) :
  crossover_at point c1 c2 h = Some h' ->
  exists g1 g2 : list Q, h' = <[c2 := g2]> (<[c1 := g1]> h).
Proof.
  unfold crossover_at. cbv zeta. intros H.
  destruct (view_read h _) as [x |]; [| discriminate]. cbn in H.
  destruct (view_assign h _ x) as [h1 |] eqn:H1; [| discriminate]. cbn in H.
  destruct (view_read h1 _) as [y |]; [| discriminate]. cbn in H.
  apply view_assign_inv in H1 as [g1 ->]. apply view_assign_inv in H as [g2 ->].
  eauto.
Qed.

Lemma copy_inv (a b : nat) (w w' : world) :
  copy a w = Some (b, w') ->
  heap w !! b = None /\ exists g : list Q, heap w' = <[b := g]> (heap w).
Proof.
  destruct (heap w !! a) as [g |] eqn:Ha.
  - rewrite (copy_eq a g w Ha). intros [= <- <-].
    split; [apply fresh_lookup | eauto].
  - unfold copy, ndarray_copy. now rewrite Ha.
Qed.

Lemma crossover_inv (self : GA) (c1 c2 : nat) (w w' : world) (u : unit) :
  crossover E self c1 c2 w = Some (u, w') ->
  exists g1 g2 : list Q, heap w' = <[c2 := g2]> (<[c1 := g1]> (heap w)).
Proof.
  unfold crossover. intros H.
  apply bind_Some in H as (point & w0 & Hpt & H).
  assert (Hh : heap w0 = heap w).
  { unfold randint in Hpt. destruct (0 <? genes_len self)%Z; [| discriminate].
    now injection Hpt as _ <-. }
  destruct (crossover_at _ c1 c2 (heap w0)) as [h' |] eqn:Hx; [| discriminate].
  injection H as _ <-. cbn [heap set_heap].
  apply crossover_at_inv in Hx as (g1 & g2 & ->). rewrite Hh. eauto.
Qed.

Lemma mutate_inv (self : GA) (c : nat) (w w' : world) (u : unit) :
  mutate E self c w = Some (u, w') ->
  exists g : list Q, heap w' = <[c := g]> (heap w).
Proof.
  destruct (heap w !! c) as [g |] eqn:Hc.
  - destruct (mutate_eq E self c g w Hc) as (g' & _ & ->).
    intros [= _ <-]. eauto.
  - unfold mutate, bind, load, lift. now rewrite Hc.
Qed.

(** The loop writes new buffers only. *)
Lemma breed_frame (self : GA) (fuel : nat) (children ch : list Individual)
    (w w' : world) :
  breed E self fuel children w = Some (ch, w') -> heap w ⊆ heap w'.
Proof.
  revert children w. induction fuel as [| fuel IH]; intros children w H; cbn [breed] in H.
  - destruct (_ <? _)%Z; [discriminate |]. now injection H as _ <-.
  - destruct (_ <? _)%Z; [| now injection H as _ <-].
    rewrite (bind_eq _ _ _ _ _ (roulette_wheel_selection_eq E self 2 w)) in H.
    destruct (omap _ _) as [| p1 [| p2 [| p3 sel]]]; try discriminate.
    apply bind_Some in H as (a & w1 & Ha & H).
    apply bind_Some in H as (b & w2 & Hb & H).
    apply bind_Some in H as (u1 & w3 & Hx & H).
    apply bind_Some in H as (u2 & w4 & Hm1 & H).
    apply bind_Some in H as (u3 & w5 & Hm2 & H).
    apply IH in H.
    apply copy_inv in Ha as (Hfa & ga & Hw1). cbn [heap skip] in Hfa, Hw1.
    apply copy_inv in Hb as (Hfb & gb & Hw2).
    apply crossover_inv in Hx as (g1 & g2 & Hw3).
    apply mutate_inv in Hm1 as (g3 & Hw4).
    apply mutate_inv in Hm2 as (g4 & Hw5).
    assert (Hfb0 : heap w !! b = None).
    { rewrite Hw1 in Hfb. destruct (decide (a = b)) as [-> | Hne].
      - now rewrite lookup_insert_eq in Hfb.
      - now rewrite lookup_insert_ne in Hfb by exact Hne. }
    etransitivity; [| exact H].
    rewrite Hw5, Hw4, Hw3, Hw2, Hw1.
    repeat (apply insert_subseteq_r; [assumption |]). reflexivity.
Qed.

(** [evolve] leaves every buffer it finds as it is. *)
Lemma evolve_frame_any_run (self self' : GA) (w w' : world) :
  evolve E self w = Some (self', w') -> heap w ⊆ heap w'.
Proof.
  unfold evolve. intros H.
  apply bind_Some in H as (self1 & w1 & Heval & H).
  apply bind_Some in H as (self2 & w2 & Hsel & Hrep).
  apply evaluate_phase_heap in Heval. apply select_phase_heap in Hsel.
  unfold reproduce_phase in Hrep.
  apply bind_Some in Hrep as (ch & w3 & Hbreed & Hrep).
  apply bind_Some in Hrep as (ch' & w4 & Hsh & Hrep).
  injection Hrep as _ <-.
  rewrite shuffle_eq in Hsh. injection Hsh as _ <-. cbn [heap skip].
  apply breed_frame in Hbreed. now rewrite Hsel, Heval in Hbreed.
Qed.

Lemma write_genes_inv (slot : nat) (ind : Individual) (w w' : world) (u : unit) :
  write_genes slot ind w = Some (u, w') ->
  exists g : list Q,
    heap w !! genes ind = Some g /\ w' = set_files (<[slot := g]> (files w)) w.
Proof.
  unfold write_genes. intros H.
  apply bind_Some in H as (g & w0 & Hload & H).
  unfold load, lift in Hload.
  destruct (heap w !! genes ind) as [g0 |]; [| discriminate].
  injection Hload as <- <-. injection H as _ <-. eauto.
Qed.

Lemma save_slots_other (self : GA) (slots : list nat) (w w' : world) (u : unit) :
  save_slots self slots w = Some (u, w') ->
  heap w' = heap w /\
  forall j : nat, j ∉ slots -> files w' !! j = files w !! j.
Proof.
  revert w. induction slots as [| i slots IH]; intros w H.
  - now injection H as _ <-.
  - cbn [save_slots] in H.
    apply bind_Some in H as (ind & w0 & Hind & H).
    unfold lift in Hind. destruct (population self !! i); [| discriminate].
    injection Hind as <- <-.
    apply bind_Some in H as (u1 & w1 & Hw & H).
    apply write_genes_inv in Hw as (g & _ & ->).
    destruct (IH _ H) as (Hh & Hf). split; [exact Hh |].
    intros j Hj. apply not_elem_of_cons in Hj as [Hne Hj].
    rewrite (Hf j Hj). cbn [files set_files]. now apply lookup_insert_ne.
Qed.

(** What [save_slots] writes: slot [i] receives the genes of the individual
    at index [i] of the population, in the order the population is in. *)
Lemma save_slots_files (self : GA) (slots : list nat) (w w' : world) (u : unit) :
  NoDup slots ->
  save_slots self slots w = Some (u, w') ->
  forall i : nat, i ∈ slots ->
    exists (ind : Individual) (g : list Q),
      population self !! i = Some ind /\ heap w !! genes ind = Some g /\
      files w' !! i = Some g.
Proof.
  intros Hnd. revert w. induction Hnd as [| i slots Hni Hnd IH]; intros w H j Hj.
  - now apply elem_of_nil in Hj.
  - cbn [save_slots] in H.
    apply bind_Some in H as (ind & w0 & Hind & H).
    unfold lift in Hind.
    destruct (population self !! i) as [ind0 |] eqn:Hi; [| discriminate].
    injection Hind as <- <-.
    apply bind_Some in H as (u1 & w1 & Hw & H).
    apply write_genes_inv in Hw as (g & Hg & ->).
    apply elem_of_cons in Hj as [-> | Hj].
    + exists ind0, g. split; [exact Hi |]. split; [exact Hg |].
      destruct (save_slots_other _ _ _ _ _ H) as (_ & Hf).
      rewrite (Hf i Hni). cbn [files set_files]. apply lookup_insert_eq.
    + apply (IH _ H j Hj).
Qed.

(** [save_all] persists the first individuals of the population in the order
    the population is in, as many as the selection has. *)
Lemma save_all_files (self self' : GA) (w w' : world) :
  save_all E self w = Some (self', w') ->
  forall i : nat,
    (i < length (elitism_selection self' (p_size self')))%nat ->
    exists (ind : Individual) (g : list Q),
      population self' !! i = Some ind /\ heap w' !! genes ind = Some g /\
      files w' !! i = Some g.
Proof.
  unfold save_all. intros H i Hi.
  apply bind_Some in H as (r & w1 & Heval & H).
  cbv zeta in H.
  apply bind_Some in H as (u & w2 & Hsave & H).
  injection H as <- <-.
  destruct (save_slots_other _ _ _ _ _ Hsave) as (Hh & _).
  destruct (save_slots_files _ _ _ _ _ (NoDup_seq _ _) Hsave i) as (ind & g & H1 & H2 & H3).
  { apply elem_of_seq. lia. }
  exists ind, g. split; [exact H1 |]. split; [now rewrite Hh | exact H3].
Qed.

End AnyRun.

(** * The first population *)

Section AncestorFacts.
Variable E : Env.
Local Open Scope engine_scope.

Lemma generate_ancestor_loop_total (self : GA) (n : nat) (pop : list Individual)
    (w : world) :
  (0 <= genes_len self)%Z ->
  Forall (has_genes (Z.to_nat (genes_len self)) (heap w)) pop ->
  exists (new : list Individual) (w' : world),
    generate_ancestor_loop E self n pop w = Some (pop ++ new, w') /\
    length new = n /\
    Forall (has_genes (Z.to_nat (genes_len self)) (heap w')) (pop ++ new) /\
    Forall (fun i => fitness i = 0%Q) new.
Proof.
  intros Hlen. revert pop w. induction n as [| n IH]; intros pop w Hpop.
  - exists [], w. rewrite app_nil_r. repeat split; [exact Hpop | constructor].
  - cbn [generate_ancestor_loop].
    destruct (Z.ltb_spec (genes_len self) 0) as [Hneg | _]; [lia |].
    rewrite (bind_eq _ _ _ _ _
               (repeatM_draw (uniform E (-1) 1)
                  (fun c => uniform_of (-1) 1 (unit_of (raw E c)))
                  (uniform_eq E (-1) 1) (Z.to_nat (genes_len self)) w)).
    set (g := map _ _). set (w1 := skip _ w).
    unfold bind at 1.
    set (a := fresh (dom (heap w1))). set (w2 := set_heap _ w1).
    assert (Ha : heap w !! a = None) by apply fresh_lookup.
    destruct (IH (pop ++ [new_Individual a]) w2) as (new & w' & Hrun & Hn & Hall & Hz).
    { apply Forall_app. split.
      - eapply Forall_impl; [exact Hpop |]. intros i.
        apply has_genes_weaken. cbn. now apply insert_subseteq.
      - repeat constructor. exists g. split; [cbn; apply lookup_insert_eq |].
        unfold g. now rewrite length_map, length_seq. }
    exists (new_Individual a :: new), w'.
    rewrite <- app_assoc in Hrun, Hall. cbn [app] in Hrun, Hall.
    split; [exact Hrun |]. split; [cbn; now rewrite Hn |].
    split; [exact Hall |]. constructor; [reflexivity | exact Hz].
Qed.

(** [generate_ancestor] on a new engine: [p_size] individuals, each with
    [genes_len] genes of its own, none evaluated. *)
Lemma generate_ancestor_total (self : GA) (w : world) :
  (0 <= genes_len self)%Z -> population self = [] ->
  exists (self' : GA) (w' : world),
    generate_ancestor E self w = Some (self', w') /\
    length (population self') = Z.to_nat (p_size self) /\
    wf_engine self' w' /\
    Forall (fun i => fitness i = 0%Q) (population self').
Proof.
  intros Hlen Hpop. unfold generate_ancestor. rewrite Hpop.
  destruct (generate_ancestor_loop_total self (Z.to_nat (p_size self)) [] w Hlen)
    as (new & w' & Hrun & Hn & Hall & Hz); [constructor |].
  rewrite (bind_eq _ _ _ _ _ Hrun). unfold ret.
  eexists _, w'. split; [reflexivity |]. cbn [population set_population app].
  split; [exact Hn |]. split; [exact Hall | exact Hz].
Qed.

End AncestorFacts.

(** * Claims about the engine *)

Section EngineClaims.
Variable E : Env.
Local Open Scope engine_scope.





End EngineClaims.

(** ** The worked engine meets the preconditions *)











(** C1 fails on the code: the slices on the right-hand side are views, so the
    second assignment copies back what the first one has just written.  With
    [c1 = [1, 2, 3]], [c2 = [4, 5, 6]] and point 0, [crossover] turns [c1] into
    [[4, 2, 3]] and leaves [c2] as it was, where the exchange asks for
    [[1, 5, 6]]. *)
Theorem crossover_second_array_unchanged :
  (r ← crossover demo_env demo_ga 0 1 demo_world;
   Some (heap r.2 !! 0%nat, heap r.2 !! 1%nat))
  = Some (Some [4; 2; 3]%Q, Some [4; 5; 6]%Q).
Proof. vm_compute. reflexivity. Qed.

(** C2 fails on the code: [save_all] selects the survivors and then writes
    the genes of [self.population[i]], not of the i-th survivor.  Called after
    [evolve], as the driver does, on the worked engine: the survivors of the
    selection are the individuals with the buffers 2 and 3, and slot 1
    receives the genes [[4, 5, 6]] of the individual at index 1 of the
    population, which the selection has dropped. *)
Theorem save_all_writes_unselected :
  (r1 ← evolve demo_env demo_ga demo_world;
   r2 ← save_all demo_env r1.1 r1.2;
   Some (map genes (elitism_selection r2.1 (p_size r2.1)),
         map genes (population r2.1),
         heap r2.2 !! 3%nat, files r2.2 !! 1%nat))
  = Some ([2; 3]%nat, [2; 1; 3; 4]%nat, Some [7; 9; 9]%Q, Some [4; 5; 6]%Q).
Proof. vm_compute. reflexivity. Qed.

(** * The random source and mutation *)

Section MutationFacts.
Variable E : Env.
Import B64 B64Facts.
Local Open Scope Q_scope.

Lemma unit_of_range (r : Z) : 0 <= unit_of r /\ unit_of r < 1.
Proof.
  unfold unit_of. rewrite Qred_correct.
  pose proof (Z.mod_pos_bound r (2 ^ 53) ltac:(lia)) as Hb.
  unfold Qle, Qlt. cbn [Qnum Qden].
  change (Z.pos (2 ^ 53)) with (2 ^ 53)%Z. lia.
Qed.

Lemma mutate_cells_rate_0 (rate : Q) (g us zs : list Q) :
  rate <= 0 -> Forall (fun u => 0 <= u) us -> mutate_cells rate g us zs = g.
Proof.
  intros Hr Hus. revert g zs. induction Hus as [| u us Hu _ IH]; intros g zs.
  - now destruct g.
  - destruct g as [| x g]; [reflexivity |]. destruct zs as [| z zs]; [reflexivity |].
    cbn [mutate_cells].
    destruct (Qltb u rate) eqn:Hb; [apply Qltb_lt in Hb; lra |].
    now rewrite IH.
Qed.

Lemma mutate_cells_rate_1 (rate : Q) (g us zs : list Q) :
  1 <= rate -> Forall (fun u => u < 1) us ->
  length us = length g -> length zs = length g ->
  mutate_cells rate g us zs
  = zip_with (fun x z => fadd x (fmul z point_two)) g zs.
Proof.
  intros Hr Hus. revert g zs. induction Hus as [| u us Hu _ IH]; intros g zs Hl1 Hl2.
  - destruct g; [now destruct zs | discriminate].
  - destruct g as [| x g]; [discriminate |]. destruct zs as [| z zs]; [discriminate |].
    cbn [mutate_cells zip_with].
    destruct (Qltb u rate) eqn:Hb; [| apply Qltb_ge in Hb; lra].
    rewrite IH; [reflexivity | |]; cbn in Hl1, Hl2; lia.
Qed.

(** Each cell is kept or receives its own normal draw, scaled by 0.2. *)
Lemma mutate_cells_lookup (rate : Q) (g us zs : list Q) (i : nat) (x : Q) :
  length us = length g -> length zs = length g ->
  g !! i = Some x ->
  exists u z : Q,
    us !! i = Some u /\ zs !! i = Some z /\
    mutate_cells rate g us zs !! i
    = Some (if Qltb u rate then fadd x (fmul z point_two) else x).
Proof.
  revert us zs i. induction g as [| y g IH]; intros us zs i Hl1 Hl2 Hi; [discriminate |].
  destruct us as [| u us]; [discriminate |]. destruct zs as [| z zs]; [discriminate |].
  destruct i as [| i].
  - injection Hi as ->. exists u, z. repeat split.
  - cbn [mutate_cells]. cbn in Hi, Hl1, Hl2.
    destruct (IH us zs i ltac:(lia) ltac:(lia) Hi) as (u' & z' & H1 & H2 & H3).
    exists u', z'. repeat split; assumption.
Qed.

(** [mutate] in closed form: the mask draws first, then the normal draws. *)
Lemma mutate_run (self : GA) (c : nat) (g : list Q) (w : world) :
  heap w !! c = Some g ->
  mutate E self c w
  = Some (tt,
          set_heap
            (<[c := mutate_cells (mutate_rate self) g
                      (map (fun k => unit_of (raw E k)) (seq (cursor w) (length g)))
                      (map (gauss E) (seq (cursor w + length g) (length g)))]>
               (heap w))
            (skip (length g) (skip (length g) w))).
Proof.
  intros Hc. unfold mutate.
  assert (Hload : load c w = Some (g, w)) by (unfold load, lift; now rewrite Hc).
  rewrite (bind_eq _ _ _ _ _ Hload).
  rewrite (bind_eq _ _ _ _ _
             (repeatM_draw (random_sample E) (fun c => unit_of (raw E c))
                (random_sample_eq E) (length g) w)).
  rewrite (bind_eq _ _ _ _ _
             (repeatM_draw (standard_normal E) (gauss E)
                (standard_normal_eq E) (length g) (skip (length g) w))).
  reflexivity.
Qed.

Lemma mutate_None (self : GA) (c : nat) (w : world) :
  heap w !! c = None -> mutate E self c w = None.
Proof. intros Hc. unfold mutate, bind, load, lift. now rewrite Hc. Qed.

End MutationFacts.

Section MutationProperties.
Variable E : Env.
Import B64 B64Facts.
Local Open Scope Q_scope.

(** X1: [mutate] on an array of [n] genes rewrites that array only, keeps
    its length, plays no game and consumes [2 n] draws: cell [i] takes draw
    [i] for the mask and draw [n + i] for the normal value, and receives
    [x + z * 0.2] when its mask draw is below [mutate_rate], else stays. *)
Theorem mutate_cellwise (self : GA) (c : nat) (g : list Q) (w : world) :
  heap w !! c = Some g ->
  exists (g' : list Q) (w' : world),
    mutate E self c w = Some (tt, w') /\
    heap w' = <[c := g']> (heap w) /\
    length g' = length g /\
    cursor w' = (cursor w + 2 * length g)%nat /\
    plays w' = plays w /\ files w' = files w /\
    forall (i : nat) (x : Q), g !! i = Some x ->
      g' !! i
      = Some (if Qltb (unit_of (raw E (cursor w + i))) (mutate_rate self)
              then fadd x (fmul (gauss E (cursor w + length g + i)) point_two)
              else x).
Proof.
  intros Hc. rewrite (mutate_run E self c g w Hc).
  eexists _, _. split; [reflexivity |]. cbn [heap cursor plays files set_heap skip].
  split; [reflexivity |]. split; [apply mutate_cells_length |].
  split; [lia |]. split; [reflexivity |]. split; [reflexivity |].
  intros i x Hi.
  destruct (mutate_cells_lookup (mutate_rate self) g
              (map (fun k => unit_of (raw E k)) (seq (cursor w) (length g)))
              (map (gauss E) (seq (cursor w + length g) (length g))) i x)
    as (u & z & Hu & Hz & Hcell);
    [now rewrite length_map, length_seq | now rewrite length_map, length_seq | exact Hi |].
  assert (Hlt : (i < length g)%nat) by (eapply lookup_lt_Some, Hi).
  rewrite list_lookup_fmap, lookup_seq_lt in Hu by exact Hlt.
  rewrite list_lookup_fmap, lookup_seq_lt in Hz by exact Hlt.
  injection Hu as <-. injection Hz as <-. exact Hcell.
Qed.

(** X2: with a [mutate_rate] of 0 (or less) [mutate] changes no gene: the
    heap is as before, and only the [2 n] draws are consumed. *)
Theorem mutate_rate_zero (self : GA) (c : nat) (g : list Q) (w : world) :
  mutate_rate self <= 0 -> heap w !! c = Some g ->
  mutate E self c w = Some (tt, skip (length g + length g) w).
Proof.
  intros Hr Hc. rewrite (mutate_run E self c g w Hc).
  rewrite mutate_cells_rate_0;
    [| exact Hr | apply Forall_fmap, Forall_forall; intros k _; apply unit_of_range].
  rewrite insert_id by exact Hc. rewrite skip_skip. reflexivity.
Qed.

(** X3: with a [mutate_rate] of 1 (or more) [mutate] perturbs every gene:
    cell [i] becomes [x + z * 0.2] for its own normal draw [z]. *)
Theorem mutate_rate_one (self : GA) (c : nat) (g : list Q) (w : world) :
  1 <= mutate_rate self -> heap w !! c = Some g ->
  exists w' : world,
    mutate E self c w = Some (tt, w') /\
    heap w'
    = <[c := zip_with (fun x z => fadd x (fmul z point_two)) g
                (map (gauss E) (seq (cursor w + length g) (length g)))]> (heap w).
Proof.
  intros Hr Hc. rewrite (mutate_run E self c g w Hc).
  eexists. split; [reflexivity |]. cbn [heap set_heap]. f_equal.
  apply mutate_cells_rate_1; [exact Hr | | |].
  - apply Forall_fmap, Forall_forall. intros k _. apply unit_of_range.
  - now rewrite length_map, length_seq.
  - now rewrite length_map, length_seq.
Qed.

End MutationProperties.

Lemma mutate_cellwise_witness :
  exists (g' : list Q) (w' : world),
    mutate demo_env demo_ga 0 demo_world = Some (tt, w') /\
    heap w' = <[0%nat := g']> (heap demo_world) /\
    length g' = length [1; 2; 3]%Q /\
    cursor w' = (cursor demo_world + 2 * length [1; 2; 3]%Q)%nat /\
    plays w' = plays demo_world /\ files w' = files demo_world /\
    forall (i : nat) (x : Q), [1; 2; 3]%Q !! i = Some x ->
      g' !! i
      = Some (if Qltb (unit_of (raw demo_env (cursor demo_world + i)))
                   (mutate_rate demo_ga)
              then fadd x (fmul (gauss demo_env
                                   (cursor demo_world + length [1; 2; 3]%Q + i))
                             point_two)
              else x).
Proof.
  apply (mutate_cellwise demo_env demo_ga 0 [1; 2; 3]%Q demo_world).
  vm_compute. reflexivity.
Defined.

Lemma mutate_rate_zero_witness :
  mutate demo_env (new_GA 2 2 3 0) 0 demo_world
  = Some (tt, skip (length [1; 2; 3]%Q + length [1; 2; 3]%Q) demo_world).
Proof.
  apply (mutate_rate_zero demo_env (new_GA 2 2 3 0) 0 [1; 2; 3]%Q demo_world);
    [cbn; apply Qle_refl | vm_compute; reflexivity].
Defined.

Lemma mutate_rate_one_witness :
  exists w' : world,
    mutate demo_env (new_GA 2 2 3 1) 0 demo_world = Some (tt, w') /\
    heap w'
    = <[0%nat := zip_with (fun x z => fadd x (fmul z point_two)) [1; 2; 3]%Q
                   (map (gauss demo_env)
                      (seq (cursor demo_world + length [1; 2; 3]%Q)
                         (length [1; 2; 3]%Q)))]> (heap demo_world).
Proof.
  apply (mutate_rate_one demo_env (new_GA 2 2 3 1) 0 [1; 2; 3]%Q demo_world);
    [cbn; apply Qle_refl | vm_compute; reflexivity].
Defined.

(** * Selection, whatever the picks and the sizes *)

Section SelectionProperties.
Variable E : Env.
Local Open Scope Q_scope.



Lemma slice_to_length {A} (l : list A) (k : Z) :
  Z.of_nat (length (slice_to l k))
  = if (k <? 0)%Z then Z.max 0 (Z.of_nat (length l) + k)
    else Z.min k (Z.of_nat (length l)).
Proof.
  unfold slice_to. destruct (Z.ltb_spec k 0); rewrite length_take; lia.
Qed.

(** X5: for every [size], in range or not, [elitism_selection] returns
    individuals of the population in descending order of fitness, each at
    most as often as it occurs there.  It returns [min(size, n)] of the [n]
    individuals for [size >= 0], and all but the last [-size] of the sorted
    population for a negative [size], as a Python slice does. *)
Theorem elitism_selection_any_size (self : GA) (size : Z) :
  StronglySorted fitter (elitism_selection self size) /\
  elitism_selection self size ⊆+ population self /\
  Z.of_nat (length (elitism_selection self size))
  = (if (size <? 0)%Z then Z.max 0 (Z.of_nat (length (population self)) + size)
     else Z.min size (Z.of_nat (length (population self)))).
Proof.
  split; [| split; [apply elitism_selection_submseteq |]].
  - pose proof (sorted_desc_sorted (population self)) as Hs.
    unfold elitism_selection, slice_to.
    destruct (size <? 0)%Z.
    + rewrite <- (take_drop (length (sorted_desc (population self)) - Z.to_nat (- size))) in Hs.
      now apply StronglySorted_app in Hs as (_ & Hl & _).
    + rewrite <- (take_drop (Z.to_nat size)) in Hs.
      now apply StronglySorted_app in Hs as (_ & Hl & _).
  - unfold elitism_selection. rewrite slice_to_length.
    now rewrite (Permutation_length (sorted_desc_Permutation _)).
Qed.

(** Inserting into the sorted list does not reorder individuals of one
    fitness. *)
Lemma insert_desc_filter (f : Q) (x : Individual) (l : list Individual) :
  filter (fun i => Qeq_bool (fitness i) f = true) (insert_desc x l)
  = filter (fun i => Qeq_bool (fitness i) f = true) (x :: l).
Proof.
  induction l as [| y l IH]; [reflexivity |].
  cbn [insert_desc].
  destruct (Qle_bool (fitness y) (fitness x)) eqn:Hb; [reflexivity |].
  assert (Hlt : fitness x < fitness y).
  { apply Qnot_le_lt. intros Hle. apply Qle_bool_iff in Hle. congruence. }
  rewrite (filter_cons _ y), IH, !filter_cons.
  destruct (decide (Qeq_bool (fitness x) f = true)) as [Hx | Hx];
    destruct (decide (Qeq_bool (fitness y) f = true)) as [Hy | Hy];
    try reflexivity.
  apply Qeq_bool_iff in Hx, Hy. lra.
Qed.

Lemma sorted_desc_filter (f : Q) (l : list Individual) :
  filter (fun i => Qeq_bool (fitness i) f = true) (sorted_desc l)
  = filter (fun i => Qeq_bool (fitness i) f = true) l.
Proof.
  induction l as [| x l IH]; [reflexivity |].
  cbn [sorted_desc foldr]. fold (sorted_desc l).
  now rewrite insert_desc_filter, !filter_cons, IH.
Qed.

Lemma filter_take_prefix {A} (P : A -> Prop) `{forall x, Decision (P x)}
    (n : nat) (l : list A) :
  filter P (take n l) `prefix_of` filter P l.
Proof.
  exists (filter P (drop n l)). now rewrite <- filter_app, take_drop.
Qed.

(** X6: ties are broken by position: among the individuals of one fitness,
    [elitism_selection] returns the first ones of the population, in the
    order they have there. *)
Theorem elitism_selection_stable (self : GA) (size : Z) (f : Q) :
  filter (fun i => Qeq_bool (fitness i) f = true) (elitism_selection self size)
  `prefix_of` filter (fun i => Qeq_bool (fitness i) f = true) (population self).
Proof.
  rewrite <- (sorted_desc_filter f (population self)).
  unfold elitism_selection, slice_to.
  destruct (size <? 0)%Z; apply filter_take_prefix.
Qed.

End SelectionProperties.

(** * Evaluation *)

Section EvaluationProperties.
Variable E : Env.
Import B64 B64Facts.
Local Open Scope engine_scope.

Lemma get_fitness_inv (i i' : Individual) (w w' : world) :
  get_fitness E i w = Some (i', w') ->
  exists g : list Q,
    heap w !! genes i = Some g /\ w' = played w /\
    genes i' = genes i /\
    score i' = (play E (plays w) g).1.1 /\
    steps i' = (play E (plays w) g).1.2 /\
    seed i' = Some (play E (plays w) g).2 /\
    compute_fitness (score i') (steps i') = Some (fitness i').
Proof.
  unfold get_fitness. intros H.
  apply bind_Some in H as (g & w0 & Hload & H).
  unfold load, lift in Hload.
  destruct (heap w !! genes i) as [g0 |]; [| discriminate].
  injection Hload as <- <-. exists g0.
  destruct (play E (plays w) g0) as [[sc st] sd].
  destruct (compute_fitness sc st) as [f |] eqn:Hf; [| discriminate].
  injection H as <- <-. cbn. repeat split. exact Hf.
Qed.

(** X7: on an individual that has its genes, and for a game score of at most
    2^1000 in magnitude, [get_fitness] raises exactly when the game returns
    [steps = 0] (the division by zero); a negative number of steps is
    accepted.  When it returns, the fitness it stores is a finite float. *)
Theorem get_fitness_raises_iff (ind : Individual) (w : world) (g : list Q) :
  heap w !! genes ind = Some g ->
  (Z.abs (play E (plays w) g).1.1 <= 2 ^ 1000)%Z ->
  (get_fitness E ind w = None <-> (play E (plays w) g).1.2 = 0%Z) /\
  (forall (ind' : Individual) (w' : world),
     get_fitness E ind w = Some (ind', w') -> (Qabs (fitness ind') < 2 ^ 1024)%Q).
Proof.
  intros Hg Hsc. unfold get_fitness, bind, load, lift. rewrite Hg.
  destruct (play E (plays w) g) as [[sc st] sd] eqn:Hplay. cbn [fst snd] in *.
  destruct (Z.eq_dec st 0%Z) as [-> | Hne].
  - unfold compute_fitness, int_truediv. cbn. split; [now split |].
    intros ind' w' H. discriminate.
  - rewrite (compute_fitness_value sc st Hne). split.
    + split; [discriminate | contradiction].
    + intros ind' w' [= <- _]. cbn [fitness].
      apply (compute_fitness_steps_finite sc st Hsc Hne).
Qed.

Lemma evaluate_all_inv (pop pop' : list Individual) (s s' : Z) (w w' : world) :
  evaluate_all E pop s w = Some ((pop', s'), w') ->
  s' = (s + total_score pop')%Z /\
  length pop' = length pop /\
  w' = World (heap w) (cursor w) (plays w + length pop) (files w) /\
  forall (k : nat) (i : Individual), pop !! k = Some i ->
    exists (g : list Q) (i' : Individual),
      heap w !! genes i = Some g /\ pop' !! k = Some i' /\
      genes i' = genes i /\
      score i' = (play E (plays w + k) g).1.1 /\
      steps i' = (play E (plays w + k) g).1.2 /\
      seed i' = Some (play E (plays w + k) g).2 /\
      compute_fitness (score i') (steps i') = Some (fitness i').
Proof.
  revert pop' s s' w w'. induction pop as [| i pop IH]; intros pop' s s' w w' H.
  - injection H as <- <- <-. cbn. rewrite Z.add_0_r, Nat.add_0_r.
    repeat split; [now destruct w | intros k i Hk; discriminate].
  - cbn [evaluate_all] in H.
    apply bind_Some in H as (i' & w1 & Hi & H).
    apply bind_Some in H as ([pop1 s1] & w2 & Hr & H).
    injection H as <- <- <-. cbn [fst snd] in *.
    apply get_fitness_inv in Hi as (g & Hg & -> & Hgen & Hsc & Hst & Hsd & Hf).
    apply IH in Hr as (-> & Hlen & -> & Hall).
    cbn [heap cursor plays files played length].
    split; [unfold total_score; cbn [foldr]; lia |]. split; [now rewrite Hlen |].
    split; [f_equal; lia |].
    intros [| k] j Hk.
    + injection Hk as <-. exists g, i'. rewrite Nat.add_0_r. repeat split; assumption.
    + destruct (Hall k j Hk) as (g' & j' & H1 & H2 & H3 & H4 & H5 & H6 & H7).
      exists g', j'. replace (plays w + S k)%nat with (S (plays w) + k)%nat by lia.
      repeat split; assumption.
Qed.

Lemma evaluate_phase_inv (self self1 : GA) (w w1 : world) :
  evaluate_phase E self w = Some (self1, w1) ->
  exists (pop' : list Individual) (avg : Q),
    evaluate_all E (population self) 0 w
    = Some ((pop', total_score pop'),
            World (heap w) (cursor w) (plays w + length (population self)) (files w)) /\
    int_truediv (total_score pop') (Z.of_nat (length (population self))) = Some avg /\
    self1 = set_avg_score avg (set_population pop' self) /\
    w1 = World (heap w) (cursor w) (plays w + length (population self)) (files w).
Proof.
  unfold evaluate_phase. intros H.
  apply bind_Some in H as ([pop' s'] & w0 & Hr & H).
  apply bind_Some in H as (avg & w0' & Havg & H).
  injection H as <- <-. cbn [fst snd] in *.
  unfold lift in Havg.
  destruct (int_truediv s' (Z.of_nat (length pop'))) as [a |] eqn:Hdiv; [| discriminate].
  injection Havg as <- <-.
  pose proof (evaluate_all_inv _ _ _ _ _ _ Hr) as (Hs & Hlen & Hw & _).
  rewrite Z.add_0_l in Hs. subst s' w0. rewrite Hlen in Hdiv.
  exists pop', a. repeat split; assumption.
Qed.

(** X8: the evaluation step of [evolve] plays one game per individual, in
    population order: the individual at index [k] receives the score, steps
    and seed of game number [plays + k] played on its genes, and the fitness
    computed from them.  [avg_score] is the sum of these scores divided by
    the number of individuals evaluated. *)
Theorem evolve_evaluates_in_order (self self' : GA) (w w' : world) :
  evolve E self w = Some (self', w') ->
  exists (self1 : GA) (w1 : world),
    evaluate_phase E self w = Some (self1, w1) /\
    plays w1 = (plays w + length (population self))%nat /\
    (forall (k : nat) (i : Individual), population self !! k = Some i ->
       exists (g : list Q) (i' : Individual),
         heap w !! genes i = Some g /\ population self1 !! k = Some i' /\
         genes i' = genes i /\
         score i' = (play E (plays w + k) g).1.1 /\
         steps i' = (play E (plays w + k) g).1.2 /\
         seed i' = Some (play E (plays w + k) g).2 /\
         compute_fitness (score i') (steps i') = Some (fitness i')) /\
    int_truediv (total_score (population self1))
      (Z.of_nat (length (population self))) = Some (avg_score self').
Proof.
  unfold evolve. intros H.
  apply bind_Some in H as (self1 & w1 & Heval & H).
  apply bind_Some in H as (self2 & w2 & Hsel & Hrep).
  exists self1, w1. split; [exact Heval |].
  apply evaluate_phase_inv in Heval as (pop' & avg & Hall & Hdiv & -> & ->).
  apply evaluate_all_inv in Hall as (_ & _ & _ & Hk).
  rewrite select_phase_eq in Hsel.
  destruct (head _) as [best |]; [| discriminate]. injection Hsel as <- <-.
  unfold reproduce_phase in Hrep.
  apply bind_Some in Hrep as (ch & w3 & _ & Hrep).
  apply bind_Some in Hrep as (ch' & w4 & _ & Hrep).
  injection Hrep as <- <-.
  split; [reflexivity |]. split; [exact Hk |]. exact Hdiv.
Qed.

End EvaluationProperties.

(** * Reproduction, for any run *)

Section ReproductionProperties.
Variable E : Env.
Local Open Scope engine_scope.

Lemma same_io_refl (w : world) : same_io w w.
Proof. now split. Qed.

Lemma same_io_trans (w1 w2 w3 : world) :
  same_io w1 w2 -> same_io w2 w3 -> same_io w1 w3.
Proof. intros [H1 H2] [H3 H4]. split; congruence. Qed.

Lemma copy_io (a b : nat) (w w' : world) :
  copy a w = Some (b, w') -> same_io w w'.
Proof.
  unfold copy. destruct (ndarray_copy (heap w) a) as [[b' h] |]; [| discriminate].
  intros [= _ <-]. now split.
Qed.

Lemma crossover_io (self : GA) (c1 c2 : nat) (w w' : world) (u : unit) :
  crossover E self c1 c2 w = Some (u, w') -> same_io w w'.
Proof.
  unfold crossover. intros H.
  apply bind_Some in H as (point & w0 & Hpt & H).
  unfold randint in Hpt. destruct (0 <? genes_len self)%Z; [| discriminate].
  injection Hpt as _ <-.
  destruct (crossover_at _ c1 c2 _) as [h' |]; [| discriminate].
  injection H as _ <-. now split.
Qed.

Lemma mutate_io (self : GA) (c : nat) (w w' : world) (u : unit) :
  mutate E self c w = Some (u, w') -> same_io w w'.
Proof.
  destruct (heap w !! c) as [g |] eqn:Hc.
  - destruct (mutate_eq E self c g w Hc) as (g' & _ & ->).
    intros [= _ <-]. now split.
  - unfold mutate, bind, load, lift. now rewrite Hc.
Qed.

(** What the loop adds to [children], however the draws fall. *)
Lemma breed_shape (self : GA) (fuel : nat) (children ch : list Individual)
    (w w' : world) :
  breed E self fuel children w = Some (ch, w') ->
  exists new : list Individual,
    ch = children ++ new /\
    Forall unevaluated new /\
    Forall (fun c => heap w !! genes c = None /\ is_Some (heap w' !! genes c)) new /\
    NoDup (genes <$> new) /\
    (exists k : nat, length new = 2 * k)%nat /\
    (c_size self <= Z.of_nat (length ch))%Z /\
    (new = [] \/ (Z.of_nat (length ch) < c_size self + 2)%Z) /\
    same_io w w'.
Proof.
  revert children w. induction fuel as [| fuel IH]; intros children w H; cbn [breed] in H.
  - destruct (Z.ltb_spec (Z.of_nat (length children)) (c_size self)); [discriminate |].
    injection H as <- <-. exists []. rewrite app_nil_r.
    split; [reflexivity |]. do 3 (split; [constructor |]).
    split; [now exists 0%nat |]. split; [lia |]. split; [now left | apply same_io_refl].
  - destruct (Z.ltb_spec (Z.of_nat (length children)) (c_size self)) as [Hlt | Hge].
    2:{ injection H as <- <-. exists []. rewrite app_nil_r.
        split; [reflexivity |]. do 3 (split; [constructor |]).
        split; [now exists 0%nat |]. split; [lia |].
        split; [now left | apply same_io_refl]. }
    rewrite (bind_eq _ _ _ _ _ (roulette_wheel_selection_eq E self 2 w)) in H.
    destruct (omap _ _) as [| p1 [| p2 [| p3 sel]]]; try discriminate.
    apply bind_Some in H as (a & w1 & Ha & H).
    apply bind_Some in H as (b & w2 & Hb & H).
    apply bind_Some in H as (u1 & w3 & Hx & H).
    apply bind_Some in H as (u2 & w4 & Hm1 & H).
    apply bind_Some in H as (u3 & w5 & Hm2 & H).
    pose proof (breed_frame E _ _ _ _ _ _ H) as Hsub.
    apply IH in H as (new & -> & Hun & Hfresh & Hnd & [k Hk] & Hc & Hstop & Hio).
    pose proof (copy_io _ _ _ _ Ha) as Hio1. pose proof (copy_io _ _ _ _ Hb) as Hio2.
    pose proof (crossover_io _ _ _ _ _ _ Hx) as Hio3.
    pose proof (mutate_io _ _ _ _ _ Hm1) as Hio4.
    pose proof (mutate_io _ _ _ _ _ Hm2) as Hio5.
    apply copy_inv in Ha as (Hfa & ga & Hw1). cbn [heap skip] in Hfa, Hw1.
    apply copy_inv in Hb as (Hfb & gb & Hw2).
    apply crossover_inv in Hx as (g1 & g2 & Hw3).
    apply mutate_inv in Hm1 as (g3 & Hw4).
    apply mutate_inv in Hm2 as (g4 & Hw5).
    assert (Hab : a <> b).
    { intros ->. rewrite Hw1, lookup_insert_eq in Hfb. discriminate. }
    assert (Hfb0 : heap w !! b = None).
    { rewrite Hw1, lookup_insert_ne in Hfb by exact Hab. exact Hfb. }
    assert (Ha5 : is_Some (heap w5 !! a)).
    { rewrite Hw5, lookup_insert_ne, Hw4, lookup_insert_eq by (intros ->; contradiction).
      eauto. }
    assert (Hb5 : is_Some (heap w5 !! b)).
    { rewrite Hw5, lookup_insert_eq. eauto. }
    assert (Hsub0 : heap w ⊆ heap w5).
    { rewrite Hw5, Hw4, Hw3, Hw2, Hw1.
      repeat (apply insert_subseteq_r; [assumption |]). reflexivity. }
    assert (Hold : forall c, heap w5 !! genes c = None -> heap w !! genes c = None).
    { intros c Hn. destruct (heap w !! genes c) as [g |] eqn:Hg; [| reflexivity].
      rewrite (lookup_weaken _ _ _ _ Hg Hsub0) in Hn. discriminate. }
    assert (Hnot : forall c, c ∈ genes <$> new -> is_Some (heap w5 !! c) -> False).
    { intros c Hin [g Hg]. apply list_elem_of_fmap in Hin as (i & -> & Hi).
      rewrite Forall_forall in Hfresh. destruct (Hfresh i Hi) as [Hn _]. congruence. }
    exists (new_Individual a :: new_Individual b :: new).
    split; [now rewrite <- app_assoc |].
    split; [repeat constructor; assumption |].
    split.
    { constructor; [| constructor].
      - split; [cbn; exact Hfa |]. cbn.
        destruct Ha5 as [g Hg]. exists g. eapply lookup_weaken; eassumption.
      - split; [cbn; exact Hfb0 |]. cbn.
        destruct Hb5 as [g Hg]. exists g. eapply lookup_weaken; eassumption.
      - eapply Forall_impl; [exact Hfresh |]. intros c [Hn Hs]. split; [| exact Hs].
        now apply Hold. }
    split.
    { cbn [fmap list_fmap genes new_Individual]. constructor; [| constructor].
      - rewrite not_elem_of_cons. split; [exact Hab |]. intros Hin. exact (Hnot a Hin Ha5).
      - intros Hin. exact (Hnot b Hin Hb5).
      - exact Hnd. }
    split; [exists (S k); cbn [length]; lia |].
    split; [exact Hc |].
    split.
    { right. destruct Hstop as [-> | Hstop]; [| exact Hstop].
      rewrite !length_app. cbn [length]. lia. }
    unfold same_io in *. cbn [plays files skip] in Hio1.
    destruct Hio as [? ?], Hio1 as [? ?], Hio2 as [? ?], Hio3 as [? ?],
      Hio4 as [? ?], Hio5 as [? ?].
    split; congruence.
Qed.

Lemma reproduce_phase_inv (self self' : GA) (w w' : world) :
  reproduce_phase E self w = Some (self', w') ->
  exists children : list Individual,
    self' = set_population (population self ++ children) self /\
    Forall unevaluated children /\
    Forall (fun c => heap w !! genes c = None /\ is_Some (heap w' !! genes c)) children /\
    NoDup (genes <$> children) /\
    Z.of_nat (length children)
    = (if (c_size self <=? 0)%Z then 0 else c_size self + c_size self mod 2)%Z /\
    same_io w w'.
Proof.
  unfold reproduce_phase. intros H.
  apply bind_Some in H as (ch & w3 & Hbreed & H).
  apply bind_Some in H as (ch' & w4 & Hsh & H).
  injection H as <- <-.
  rewrite shuffle_eq in Hsh. injection Hsh as <- <-.
  apply breed_shape in Hbreed as (new & -> & Hun & Hfresh & Hnd & [k Hk] & Hc & Hstop & Hio).
  cbn [app] in *.
  set (ks := map (raw E) (seq (cursor w3) (length new))).
  pose proof (permute_Permutation ks new) as Hperm.
  exists (permute ks new). split; [reflexivity |].
  split; [now rewrite Hperm |].
  split; [rewrite Hperm; cbn [heap skip]; exact Hfresh |].
  split; [now rewrite Hperm |].
  split; [| destruct Hio; now split].
  rewrite Hperm.
  destruct (Z.leb_spec (c_size self) 0) as [Hle | Hgt].
  - destruct Hstop as [-> | Hstop]; [reflexivity | lia].
  - destruct Hstop as [-> | Hstop]; [cbn in Hc; lia |].
    pose proof (Z.mod_pos_bound (c_size self) 2 ltac:(lia)) as Hm.
    pose proof (Z.div_mod (c_size self) 2 ltac:(lia)) as Hd.
    lia.
Qed.

(** Any run of [evolve], taken apart. *)
Lemma evolve_inv (self self' : GA) (w w' : world) :
  evolve E self w = Some (self', w') ->
  exists (pop' : list Individual) (avg : Q) (best : Individual)
         (parents children : list Individual),
    let self1 := set_avg_score avg (set_population pop' self) in
    let w1 := World (heap w) (cursor w) (plays w + length (population self)) (files w) in
    evaluate_phase E self w = Some (self1, w1) /\
    head (elitism_selection self1 (p_size self)) = Some best /\
    parents ≡ₚ elitism_selection self1 (p_size self) /\
    self' = set_population (parents ++ children) (set_best_individual best self1) /\
    Forall unevaluated children /\
    Forall (fun c => heap w !! genes c = None /\ is_Some (heap w' !! genes c)) children /\
    NoDup (genes <$> children) /\
    Z.of_nat (length children)
    = (if (c_size self <=? 0)%Z then 0 else c_size self + c_size self mod 2)%Z /\
    same_io w1 w'.
Proof.
  unfold evolve. intros H.
  apply bind_Some in H as (self1 & w1 & Heval & H).
  apply bind_Some in H as (self2 & w2 & Hsel & Hrep).
  pose proof (evaluate_phase_inv E _ _ _ _ Heval) as (pop' & avg & _ & _ & -> & ->).
  rewrite select_phase_eq in Hsel.
  cbn [p_size set_avg_score set_population] in Hsel.
  destruct (head _) as [best |] eqn:Hbest; [| discriminate]. injection Hsel as <- <-.
  apply reproduce_phase_inv in Hrep as (children & -> & Hun & Hfresh & Hnd & Hlen & Hio).
  exists pop', avg, best. eexists _, children. cbv zeta.
  split; [exact Heval |]. split; [exact Hbest |].
  split; [apply permute_Permutation |].
  split; [reflexivity |]. split; [exact Hun |]. split; [exact Hfresh |].
  split; [exact Hnd |]. split; [exact Hlen |].
  destruct Hio as [H1 H2]. split; [exact H1 | exact H2].
Qed.

(** X9: after any run of [evolve] the population is the selected parents (the
    [p_size] fittest of the evaluated population, in some order) followed by
    the children.  The children come in pairs: an odd [c_size] gives
    [c_size + 1] of them, and a [c_size] of zero or less gives none.  The
    sizes, the gene length and the mutation rate of the engine are kept. *)
Theorem evolve_population_shape (self self' : GA) (w w' : world) :
  evolve E self w = Some (self', w') ->
  exists (self1 : GA) (w1 : world) (parents children : list Individual),
    evaluate_phase E self w = Some (self1, w1) /\
    population self' = parents ++ children /\
    parents ≡ₚ elitism_selection self1 (p_size self) /\
    Z.of_nat (length children)
    = (if (c_size self <=? 0)%Z then 0 else c_size self + c_size self mod 2)%Z /\
    p_size self' = p_size self /\ c_size self' = c_size self /\
    genes_len self' = genes_len self /\ mutate_rate self' = mutate_rate self.
Proof.
  intros H.
  apply evolve_inv in H
    as (pop' & avg & best & parents & children & Hev & _ & Hp & -> & _ & _ & _ & Hl & _).
  eexists _, _, parents, children. split; [exact Hev |].
  split; [reflexivity |]. split; [exact Hp |]. split; [exact Hl |].
  repeat split.
Qed.

(** X10: every child that [evolve] adds is a new individual, not yet
    evaluated (score, steps and fitness 0, no seed), and owns a buffer of its
    own: one that did not exist before the call, exists after it, and is
    shared with no other child.  The children are the individuals of the new
    population after the selected parents. *)
Theorem evolve_children_fresh (self self' : GA) (w w' : world) :
  evolve E self w = Some (self', w') ->
  exists (self1 : GA) (w1 : world) (children : list Individual),
    evaluate_phase E self w = Some (self1, w1) /\
    children = drop (length (elitism_selection self1 (p_size self))) (population self') /\
    Forall unevaluated children /\
    Forall (fun c => heap w !! genes c = None /\ is_Some (heap w' !! genes c)) children /\
    NoDup (genes <$> children).
Proof.
  intros H.
  apply evolve_inv in H
    as (pop' & avg & best & parents & children & Hev & _ & Hp & -> & Hu & Hf & Hn & _ & _).
  eexists _, _, children. split; [exact Hev |].
  split.
  { cbn [population set_population]. rewrite <- (Permutation_length Hp).
    now rewrite drop_app_length. }
  split; [exact Hu |]. split; [exact Hf | exact Hn].
Qed.

(** X11: [evolve] only plays the game and never touches the gene files: it
    leaves the file store as it is, and the game has been played once per
    individual of the incoming population. *)
Theorem evolve_plays_and_files (self self' : GA) (w w' : world) :
  evolve E self w = Some (self', w') ->
  plays w' = (plays w + length (population self))%nat /\ files w' = files w.
Proof.
  intros H.
  apply evolve_inv in H
    as (pop' & avg & best & parents & children & _ & _ & _ & _ & _ & _ & _ & _ & Hio).
  destruct Hio as [H1 H2]. cbn [plays files] in H1, H2. now split.
Qed.

End ReproductionProperties.

(** * Fitness, within the range of the floats *)

Section FitnessProperties.
Import B64 B64Facts.
Local Open Scope Q_scope.

Lemma compute_fitness_finite (s t : Z) (f : Q) :
  (Z.abs s <= 2 ^ 1000)%Z -> t <> 0%Z ->
  compute_fitness s t = Some f -> Qabs f < 2 ^ 1024.
Proof.
  intros Hs Ht H. rewrite (compute_fitness_value s t Ht) in H. injection H as <-.
  apply (compute_fitness_steps_finite s t Hs Ht).
Qed.

(** X12: for scores of at most 2^1000 in magnitude, where no operation
    overflows, the fitness never decreases with a higher score or with fewer
    steps, whatever the roundings do: for [s1 <= s2] and [0 < t2 <= t1] the
    fitness of [(s1, t1)] is at most that of [(s2, t2)], and both are finite
    floats. *)
Theorem fitness_monotone (s1 s2 t1 t2 : Z) :
  (Z.abs s1 <= 2 ^ 1000)%Z -> (Z.abs s2 <= 2 ^ 1000)%Z ->
  (s1 <= s2)%Z -> (0 < t2 <= t1)%Z ->
  exists f1 f2 : Q,
    compute_fitness s1 t1 = Some f1 /\ compute_fitness s2 t2 = Some f2 /\ f1 <= f2 /\
    Qabs f1 < 2 ^ 1024 /\ Qabs f2 < 2 ^ 1024.
Proof.
  intros Hr1 Hr2 Hs Ht.
  pose proof (compute_fitness_finite s1 t1 _ Hr1 ltac:(lia)
                (compute_fitness_eq s1 t1 ltac:(lia))) as Hf1.
  pose proof (compute_fitness_finite s2 t2 _ Hr2 ltac:(lia)
                (compute_fitness_eq s2 t2 ltac:(lia))) as Hf2.
  rewrite (compute_fitness_eq s1 t1) by lia. rewrite (compute_fitness_eq s2 t2) by lia.
  eexists _, _. split; [reflexivity |]. split; [reflexivity |].
  split; [| split; [exact Hf1 | exact Hf2]].
  unfold fmul, fadd, float_of_int. apply b64_mono.
  rewrite b64_scale. apply Qmult_le_compat_r; [| lra].
  apply b64_mono.
  assert (H1 : b64 (inject_Z s1) <= b64 (inject_Z s2)).
  { apply b64_mono. now rewrite <- Zle_Qle. }
  assert (H2 : b64 (inject_Z 1 / inject_Z t1) <= b64 (inject_Z 1 / inject_Z t2)).
  { apply b64_mono. change (inject_Z 1) with 1.
    pose proof (inject_Z_pos t1 ltac:(lia)) as Hq1.
    pose proof (inject_Z_pos t2 ltac:(lia)) as Hq2.
    assert (Hle : inject_Z t2 <= inject_Z t1) by (rewrite <- Zle_Qle; lia).
    apply Qle_shift_div_l; [exact Hq2 |].
    assert (Heq : 1 / inject_Z t1 * inject_Z t2 == inject_Z t2 / inject_Z t1)
      by (field; lra).
    rewrite Heq.
    apply Qle_shift_div_r; [exact Hq1 |]. lra. }
  lra.
Qed.

Lemma b64_ge_tiny (x : Q) : 2 ^ (-1074) <= x -> 2 ^ (-1074) <= b64 x.
Proof.
  intros H. apply b64_mono in H.
  assert (Hfix : b64 (inject_Z 1 * 2 ^ (-1074)) == inject_Z 1 * 2 ^ (-1074))
    by (apply b64_dyadic; [reflexivity | lia]).
  change (inject_Z 1) with 1 in Hfix.
  rewrite (b64_comp (1 * 2 ^ (-1074)) (2 ^ (-1074))) in Hfix by ring.
  lra.
Qed.

(** X13: for a score between 0 and 2^1000 and a number of steps between 1
    and 2^1074 the fitness is a finite float and strictly positive. *)
Theorem fitness_positive (s t : Z) :
  (0 <= s <= 2 ^ 1000)%Z -> (0 < t <= 2 ^ 1074)%Z ->
  exists f : Q, compute_fitness s t = Some f /\ 0 < f /\ Qabs f < 2 ^ 1024.
Proof.
  intros [Hs Hrange] Ht.
  pose proof (compute_fitness_finite s t _ ltac:(lia) ltac:(lia)
                (compute_fitness_eq s t ltac:(lia))) as Hfin.
  rewrite (compute_fitness_eq s t) by lia.
  eexists. split; [reflexivity |]. split; [| exact Hfin].
  pose proof (pow2_pos (-1074)) as Hpos.
  apply Qlt_le_trans with (2 ^ (-1074)); [exact Hpos |].
  unfold fmul, fadd, float_of_int.
  assert (Hr : 2 ^ (-1074) <= b64 (inject_Z 1 / inject_Z t)).
  { apply b64_ge_tiny.
    pose proof (inject_Z_pos t ltac:(lia)) as Hq.
    assert (Hle : inject_Z t <= inject_Z (2 ^ 1074)) by (rewrite <- Zle_Qle; lia).
    rewrite pow2_inject in Hle by lia.
    change (inject_Z 1) with 1.
    apply Qle_shift_div_l; [exact Hq |].
    assert (Hone : 2 ^ (-1074) * 2 ^ 1074 == 1).
    { rewrite <- pow2_add. reflexivity. }
    assert (Hmul : 2 ^ (-1074) * inject_Z t <= 2 ^ (-1074) * 2 ^ 1074).
    { rewrite !(Qmult_comm (2 ^ (-1074))). apply Qmult_le_compat_r; lra. }
    lra. }
  assert (Hz : 0 <= b64 (inject_Z s)) by (apply b64_nonneg, inject_Z_nonneg, Hs).
  assert (Ha : 2 ^ (-1074) <= b64 (b64 (inject_Z s) + b64 (inject_Z 1 / inject_Z t))).
  { apply b64_ge_tiny. lra. }
  apply b64_ge_tiny. rewrite b64_scale.
  set (a := b64 (b64 (inject_Z s) + b64 (inject_Z 1 / inject_Z t))) in *.
  assert (a * 1 <= a * 100000).
  { rewrite !(Qmult_comm a). apply Qmult_le_compat_r; lra. }
  lra.
Qed.

End FitnessProperties.

Lemma fitness_monotone_witness :
  exists f1 f2 : Q,
    compute_fitness 1 5 = Some f1 /\ compute_fitness 2 3 = Some f2 /\ (f1 <= f2)%Q /\
    (Qabs f1 < 2 ^ 1024)%Q /\ (Qabs f2 < 2 ^ 1024)%Q.
Proof. apply (fitness_monotone 1 2 5 3); cbn; lia. Defined.

Lemma fitness_positive_witness :
  exists f : Q,
    compute_fitness 0 200 = Some f /\ (0 < f)%Q /\ (Qabs f < 2 ^ 1024)%Q.
Proof. apply (fitness_positive 0 200); cbn; lia. Defined.

(** * The first population, for any engine *)

Section AncestorProperties.
Variable E : Env.
Import B64 B64Facts.
Local Open Scope engine_scope.

(** A gene drawn by [np.random.uniform(-1, 1)] is computed without rounding
    error, and lies in [-1, 1). *)
Lemma uniform_gene (r : Z) :
  (uniform_of (-1) 1 (unit_of r) == 2 * unit_of r - 1)%Q /\
  (-1 <= uniform_of (-1) 1 (unit_of r))%Q /\ (uniform_of (-1) 1 (unit_of r) < 1)%Q.
Proof.
  pose proof (unit_of_range r) as [Hu0 Hu1].
  pose proof (Z.mod_pos_bound r (2 ^ 53) ltac:(lia)) as Hm.
  assert (Hu : (unit_of r == inject_Z (r mod 2 ^ 53) * 2 ^ (-53))%Q).
  { unfold unit_of. rewrite Qred_correct. rewrite Qmake_Qdiv.
    change (inject_Z (Z.pos (2 ^ 53))) with (inject_Z (2 ^ 53)).
    rewrite pow2_inject by lia.
    assert (H53 : (2 ^ (-53) == / 2 ^ 53)%Q) by reflexivity.
    rewrite H53. reflexivity. }
  assert (H2 : fsub 1 (-1) = 2%Q) by (vm_compute; reflexivity).
  assert (Hv : (fmul 2 (unit_of r) == 2 * unit_of r)%Q).
  { unfold fmul.
    rewrite (b64_comp (2 * unit_of r) (inject_Z (r mod 2 ^ 53) * 2 ^ (-52))).
    - rewrite b64_dyadic by lia. rewrite Hu.
      assert (H52 : (2 ^ (-52) == 2 * 2 ^ (-53))%Q) by reflexivity.
      rewrite H52. ring.
    - rewrite Hu.
      assert (H52 : (2 ^ (-52) == 2 * 2 ^ (-53))%Q) by reflexivity.
      rewrite H52. ring. }
  assert (Heq : (uniform_of (-1) 1 (unit_of r) == 2 * unit_of r - 1)%Q).
  { unfold uniform_of. rewrite H2. unfold fadd.
    assert (H52 : (2 ^ (-52) == 2 * 2 ^ (-53))%Q) by reflexivity.
    assert (Hone : (inject_Z (2 ^ 52) * 2 ^ (-52) == 1)%Q) by reflexivity.
    rewrite (b64_comp (-1 + fmul 2 (unit_of r))
               (inject_Z (r mod 2 ^ 53 - 2 ^ 52) * 2 ^ (-52))).
    - rewrite b64_dyadic by lia.
      unfold Zminus. rewrite inject_Z_plus, inject_Z_opp, Hu, H52.
      change (inject_Z (2 ^ 52)) with (4503599627370496)%Q.
      assert (Hc : (4503599627370496 * (2 * 2 ^ (-53)) == 1)%Q) by reflexivity.
      lra.
    - rewrite Hv. unfold Zminus. rewrite inject_Z_plus, inject_Z_opp, Hu, H52.
      change (inject_Z (2 ^ 52)) with (4503599627370496)%Q.
      assert (Hc : (4503599627370496 * (2 * 2 ^ (-53)) == 1)%Q) by reflexivity.
      lra. }
  split; [exact Heq |]. rewrite Heq. split; lra.
Qed.

Lemma generate_ancestor_loop_shape (self : GA) (n : nat) (pop : list Individual)
    (w : world) :
  (0 <= genes_len self)%Z ->
  exists (new : list Individual) (w' : world),
    generate_ancestor_loop E self n pop w = Some (pop ++ new, w') /\
    length new = n /\
    Forall unevaluated new /\
    NoDup (genes <$> new) /\
    Forall (fun c =>
              heap w !! genes c = None /\
              exists g : list Q,
                heap w' !! genes c = Some g /\
                length g = Z.to_nat (genes_len self) /\
                Forall (fun x => -1 <= x /\ x < 1)%Q g) new /\
    heap w ⊆ heap w' /\
    cursor w' = (cursor w + n * Z.to_nat (genes_len self))%nat /\
    plays w' = plays w /\ files w' = files w.
Proof.
  intros Hlen. revert pop w. induction n as [| n IH]; intros pop w.
  - exists [], w. rewrite app_nil_r. split; [reflexivity |]. split; [reflexivity |].
    do 3 (split; [constructor |]). split; [reflexivity |].
    split; [cbn; lia |]. now split.
  - cbn [generate_ancestor_loop].
    destruct (Z.ltb_spec (genes_len self) 0) as [Hneg | _]; [lia |].
    rewrite (bind_eq _ _ _ _ _
               (repeatM_draw (uniform E (-1) 1)
                  (fun c => uniform_of (-1) 1 (unit_of (raw E c)))
                  (uniform_eq E (-1) 1) (Z.to_nat (genes_len self)) w)).
    set (g := map _ _). set (w1 := skip _ w).
    unfold bind at 1.
    set (a := fresh (dom (heap w1))). set (w2 := set_heap _ w1).
    assert (Ha : heap w !! a = None) by apply fresh_lookup.
    assert (Ha2 : heap w2 !! a = Some g) by apply lookup_insert_eq.
    assert (Hsub2 : heap w ⊆ heap w2) by (cbn; now apply insert_subseteq).
    destruct (IH (pop ++ [new_Individual a]) w2)
      as (new & w' & Hrun & Hn & Hun & Hnd & Hall & Hsub & Hcur & Hpl & Hfi).
    exists (new_Individual a :: new), w'.
    rewrite <- app_assoc in Hrun. cbn [app] in Hrun.
    split; [exact Hrun |]. split; [cbn; now rewrite Hn |].
    split; [constructor; [reflexivity | exact Hun] |].
    split.
    { cbn [fmap list_fmap genes new_Individual]. constructor; [| exact Hnd].
      intros Hin. apply list_elem_of_fmap in Hin as (i & Hi & Hin).
      rewrite Forall_forall in Hall. destruct (Hall i Hin) as [Hnone _].
      rewrite <- Hi in Hnone. congruence. }
    split.
    { constructor.
      - split; [exact Ha |]. exists g. cbn [genes new_Individual].
        split; [eapply lookup_weaken; eassumption |].
        split; [unfold g; now rewrite length_map, length_seq |].
        unfold g. apply Forall_forall. intros x Hx.
        apply list_elem_of_fmap in Hx as (c & -> & _).
        destruct (uniform_gene (raw E c)) as (_ & H1 & H2). now split.
      - eapply Forall_impl; [exact Hall |]. intros c [Hnone Hg]. split; [| exact Hg].
        destruct (heap w !! genes c) as [g0 |] eqn:Hg0; [| reflexivity].
        rewrite (lookup_weaken _ _ _ _ Hg0 Hsub2) in Hnone. discriminate. }
    split; [etransitivity; eassumption |].
    split; [rewrite Hcur; cbn; lia |].
    split; [rewrite Hpl | rewrite Hfi]; reflexivity.
Qed.

(** X14: on an engine whose [genes_len] is not negative, [generate_ancestor]
    appends [p_size] new individuals to the population.  Each is unevaluated
    and owns a new buffer, distinct from the others, of [genes_len] genes,
    every gene in [-1, 1).  The buffers that existed are untouched;
    [p_size * genes_len] random numbers are drawn, no game is played and no
    file is written. *)
Theorem generate_ancestor_population (self : GA) (w : world) :
  (0 <= genes_len self)%Z ->
  exists (new : list Individual) (w' : world),
    generate_ancestor E self w
    = Some (set_population (population self ++ new) self, w') /\
    length new = Z.to_nat (p_size self) /\
    Forall unevaluated new /\
    NoDup (genes <$> new) /\
    Forall (fun c =>
              heap w !! genes c = None /\
              exists g : list Q,
                heap w' !! genes c = Some g /\
                length g = Z.to_nat (genes_len self) /\
                Forall (fun x => -1 <= x /\ x < 1)%Q g) new /\
    heap w ⊆ heap w' /\
    cursor w' = (cursor w + Z.to_nat (p_size self) * Z.to_nat (genes_len self))%nat /\
    plays w' = plays w /\ files w' = files w.
Proof.
  intros Hlen. unfold generate_ancestor.
  destruct (generate_ancestor_loop_shape self (Z.to_nat (p_size self))
              (population self) w Hlen) as (new & w' & Hrun & Hrest).
  rewrite (bind_eq _ _ _ _ _ Hrun). unfold ret.
  exists new, w'. split; [reflexivity | exact Hrest].
Qed.

(** X15: with [p_size <= 0] the call [generate_ancestor] changes nothing; with
    [p_size > 0] and a negative [genes_len] it raises. *)
Theorem generate_ancestor_edge (self : GA) (w : world) :
  ((p_size self <= 0)%Z -> generate_ancestor E self w = Some (self, w)) /\
  ((0 < p_size self)%Z -> (genes_len self < 0)%Z -> generate_ancestor E self w = None).
Proof.
  unfold generate_ancestor. split.
  - intros Hp. replace (Z.to_nat (p_size self)) with 0%nat by lia.
    cbn. unfold bind, ret. now destruct self.
  - intros Hp Hg. destruct (Z.to_nat (p_size self)) as [| n] eqn:Hn; [lia |].
    cbn [generate_ancestor_loop].
    destruct (Z.ltb_spec (genes_len self) 0) as [_ | Hge]; [| lia].
    reflexivity.
Qed.

End AncestorProperties.

(** * Crossover and the children *)

Section CrossoverFacts.
Variable E : Env.
Import B64 B64Facts.
Local Open Scope engine_scope.

(** [crossover] in closed form, on two distinct arrays of one length. *)
Lemma crossover_run (self : GA) (c1 c2 : nat) (g1 g2 : list Q) (w : world) :
  (0 < genes_len self)%Z -> c1 <> c2 ->
  heap w !! c1 = Some g1 -> heap w !! c2 = Some g2 -> length g1 = length g2 ->
  crossover E self c1 c2 w
  = Some (tt,
          set_heap
            (<[c2 := g2]>
               (<[c1 := take (S (Z.to_nat (raw E (cursor w) mod genes_len self))) g2
                        ++ drop (S (Z.to_nat (raw E (cursor w) mod genes_len self))) g1]>
                  (heap w)))
            (advance w)).
Proof.
  intros Hlen Hne H1 H2 Hl. unfold crossover.
  rewrite (bind_eq _ _ _ _ _ (randint_eq E _ w Hlen)).
  cbn [heap advance].
  now rewrite (crossover_at_distinct _ _ _ _ _ _ Hne H1 H2 Hl).
Qed.

Lemma crossover_Some_len (self : GA) (c1 c2 : nat) (w w' : world) (u : unit) :
  crossover E self c1 c2 w = Some (u, w') -> (0 < genes_len self)%Z.
Proof.
  unfold crossover. intros H.
  apply bind_Some in H as (point & w0 & Hpt & _).
  unfold randint in Hpt. destruct (Z.ltb_spec 0 (genes_len self)); [assumption | discriminate].
Qed.

Lemma mutate_noop (self : GA) (c : nat) (g : list Q) (w : world) :
  (mutate_rate self <= 0)%Q -> heap w !! c = Some g ->
  mutate E self c w = Some (tt, skip (length g + length g) w).
Proof.
  intros Hr Hc. rewrite (mutate_run E self c g w Hc).
  rewrite mutate_cells_rate_0;
    [| exact Hr | apply Forall_fmap, Forall_forall; intros k _; apply unit_of_range].
  rewrite insert_id by exact Hc. rewrite skip_skip. reflexivity.
Qed.

End CrossoverFacts.

Section CrossoverProperties.
Variable E : Env.
Local Open Scope engine_scope.

(** X16: on two distinct arrays of one length [crossover] draws one point in
    [0, genes_len) and copies the first [point + 1] genes of the second array
    over those of the first.  The second array, and every other array, stays
    as it was: nothing of the first array reaches the second. *)
Theorem crossover_copies_prefix (self : GA) (c1 c2 : nat) (g1 g2 : list Q) (w : world) :
  (0 < genes_len self)%Z -> c1 <> c2 ->
  heap w !! c1 = Some g1 -> heap w !! c2 = Some g2 -> length g1 = length g2 ->
  exists (w' : world) (point : nat),
    crossover E self c1 c2 w = Some (tt, w') /\
    Z.of_nat point = (raw E (cursor w) mod genes_len self)%Z /\
    (Z.of_nat point < genes_len self)%Z /\
    heap w' !! c1 = Some (take (S point) g2 ++ drop (S point) g1) /\
    heap w' !! c2 = Some g2 /\
    (forall c : nat, c <> c1 -> c <> c2 -> heap w' !! c = heap w !! c) /\
    cursor w' = S (cursor w) /\ plays w' = plays w /\ files w' = files w.
Proof.
  intros Hlen Hne H1 H2 Hl.
  rewrite (crossover_run E self c1 c2 g1 g2 w Hlen Hne H1 H2 Hl).
  pose proof (Z.mod_pos_bound (raw E (cursor w)) (genes_len self) Hlen) as Hb.
  eexists _, (Z.to_nat (raw E (cursor w) mod genes_len self)).
  split; [reflexivity |]. cbn [heap cursor plays files set_heap advance].
  split; [lia |]. split; [lia |].
  split; [rewrite lookup_insert_ne by (intros Heq; now apply Hne); apply lookup_insert_eq |].
  split; [apply lookup_insert_eq |].
  split; [| repeat split].
  intros c Hc1 Hc2. rewrite !lookup_insert_ne by congruence. reflexivity.
Qed.

Lemma breed_pairs (self : GA) (len fuel : nat) (children ch : list Individual)
    (w w' : world) :
  (mutate_rate self <= 0)%Q ->
  Forall (has_genes len (heap w)) (population self) ->
  breed E self fuel children w = Some (ch, w') ->
  exists pairs : list (Individual * Individual),
    ch = children ++ flat_map (fun ab => [ab.1; ab.2]) pairs /\
    Forall (bred_pair self (heap w) (heap w')) pairs.
Proof.
  intros Hrate. revert children w.
  induction fuel as [| fuel IH]; intros children w Hpar H; cbn [breed] in H.
  - destruct (_ <? _)%Z; [discriminate |]. injection H as <- <-.
    exists []. rewrite app_nil_r. split; [reflexivity | constructor].
  - destruct (_ <? _)%Z.
    2:{ injection H as <- <-. exists []. rewrite app_nil_r.
        split; [reflexivity | constructor]. }
    rewrite (bind_eq _ _ _ _ _ (roulette_wheel_selection_eq E self 2 w)) in H.
    destruct (omap _ _) as [| p1 [| p2 [| p3 sel]]] eqn:Hsel; try discriminate.
    assert (Hin : p1 ∈ population self /\ p2 ∈ population self).
    { assert (Hall : Forall (fun p => p ∈ population self) [p1; p2]).
      { rewrite <- Hsel. apply Forall_forall. intros p Hp.
        apply list_elem_of_omap in Hp as (c & _ & Hc). eapply spin_member, Hc. }
      inversion Hall as [| ? ? Hp1 Hall']; subst.
      inversion Hall' as [| ? ? Hp2 _]; subst. now split. }
    destruct Hin as [Hp1 Hp2].
    pose proof (proj1 (Forall_forall _ _) Hpar) as Hgenes.
    destruct (Hgenes p1 Hp1) as (g1 & H1 & Hl1).
    destruct (Hgenes p2 Hp2) as (g2 & H2 & Hl2).
    set (w0 := skip (Z.to_nat 2) w) in *.
    set (h := heap w).
    set (a := fresh (dom h)). set (h1 := <[a := g1]> h).
    set (b := fresh (dom h1)). set (h2 := <[b := g2]> h1).
    assert (Ha : h !! a = None) by apply fresh_lookup.
    assert (Hb1 : h1 !! b = None) by apply fresh_lookup.
    assert (Hab : a <> b).
    { intros <-. unfold h1 in Hb1. now rewrite lookup_insert_eq in Hb1. }
    assert (Hb : h !! b = None).
    { unfold h1 in Hb1. now rewrite lookup_insert_ne in Hb1 by exact Hab. }
    assert (H1' : heap w0 !! genes p1 = Some g1) by exact H1.
    rewrite (bind_eq _ _ _ _ _ (copy_eq _ _ _ H1')) in H.
    change (heap w0) with h in H. fold a h1 in H.
    assert (H2' : heap (set_heap h1 w0) !! genes p2 = Some g2).
    { cbn. unfold h1. rewrite lookup_insert_ne; [exact H2 |].
      intros Heq. rewrite Heq in Ha. fold h in H2. congruence. }
    rewrite (bind_eq _ _ _ _ _ (copy_eq _ _ _ H2')) in H.
    cbn [heap set_heap] in H. fold b h2 in H.
    set (w2 := set_heap h2 (set_heap h1 w0)) in *.
    assert (Ha2 : heap w2 !! a = Some g1).
    { cbn. unfold h2, h1. rewrite lookup_insert_ne by (intros Heq; now apply Hab).
      apply lookup_insert_eq. }
    assert (Hb2 : heap w2 !! b = Some g2) by (cbn; apply lookup_insert_eq).
    apply bind_Some in H as (u1 & w3 & Hx & H).
    pose proof (crossover_Some_len E _ _ _ _ _ _ Hx) as Hlen.
    rewrite (crossover_run E self a b g1 g2 w2 Hlen Hab Ha2 Hb2 ltac:(lia)) in Hx.
    injection Hx as _ <-.
    set (point := Z.to_nat (raw E (cursor w2) mod genes_len self)) in *.
    set (g1' := take (S point) g2 ++ drop (S point) g1) in *.
    set (w3 := set_heap _ (advance w2)) in *.
    assert (Ha3 : heap w3 !! a = Some g1').
    { cbn. rewrite lookup_insert_ne by (intros Heq; now apply Hab).
      apply lookup_insert_eq. }
    rewrite (bind_eq _ _ _ _ _ (mutate_noop E self a g1' w3 Hrate Ha3)) in H.
    set (w4 := skip _ w3) in *.
    assert (Hb4 : heap w4 !! b = Some g2) by (cbn; apply lookup_insert_eq).
    rewrite (bind_eq _ _ _ _ _ (mutate_noop E self b g2 w4 Hrate Hb4)) in H.
    set (w5 := skip _ w4) in *.
    assert (Hh5 : heap w5 = <[b := g2]> (<[a := g1']> h2)) by reflexivity.
    assert (Hsub : h ⊆ heap w5).
    { rewrite Hh5. unfold h2, h1.
      repeat (apply insert_subseteq_r; [assumption |]). reflexivity. }
    pose proof (breed_frame E _ _ _ _ _ _ H) as Hsub'.
    apply IH in H as (pairs & -> & Hpairs).
    2:{ eapply Forall_impl; [exact Hpar |]. intros i. now apply has_genes_weaken. }
    exists ((new_Individual a, new_Individual b) :: pairs).
    split; [cbn [flat_map fst snd app]; now rewrite <- app_assoc |].
    constructor.
    + exists p1, p2, g1, g2, point.
      pose proof (Z.mod_pos_bound (raw E (cursor w2)) (genes_len self) Hlen) as Hbd.
      split; [exact Hp1 |]. split; [exact Hp2 |].
      split; [exact H1 |]. split; [exact H2 |]. split; [unfold point; lia |].
      cbn [fst snd genes new_Individual]. split.
      * eapply lookup_weaken; [| exact Hsub']. exact Ha3.
      * eapply lookup_weaken; [| exact Hsub']. exact Hb4.
    + eapply Forall_impl; [exact Hpairs |].
      intros ab (q1 & q2 & k1 & k2 & pt & Hq1 & Hq2 & Hk1 & Hk2 & Hpt & Hab1 & Hab2).
      exists q1, q2, k1, k2, pt.
      destruct (Hgenes q1 Hq1) as (k1' & Hk1' & _).
      destruct (Hgenes q2 Hq2) as (k2' & Hk2' & _).
      pose proof (lookup_weaken _ _ _ _ Hk1' Hsub) as E1.
      pose proof (lookup_weaken _ _ _ _ Hk2' Hsub) as E2.
      assert (k1' = k1) by congruence. assert (k2' = k2) by congruence. subst k1' k2'.
      repeat split; assumption.
Qed.

(** X17: with a [mutate_rate] of 0 the children that [evolve] adds come in
    pairs of which only the first is recombined: it has the genes of one
    selected parent with the first [point + 1] genes of a second selected
    parent written over them.  The other child of the pair is an exact copy
    of that second parent. *)
Theorem evolve_children_without_mutation (self self' : GA) (w w' : world) :
  evolve E self w = Some (self', w') ->
  wf_engine self w -> (mutate_rate self <= 0)%Q ->
  exists (self1 : GA) (w1 : world) (pairs : list (Individual * Individual)),
    evaluate_phase E self w = Some (self1, w1) /\
    drop (length (elitism_selection self1 (p_size self))) (population self')
      ≡ₚ flat_map (fun ab => [ab.1; ab.2]) pairs /\
    Forall (fun ab =>
              exists (p1 p2 : Individual) (g1 g2 : list Q) (point : nat),
                p1 ∈ elitism_selection self1 (p_size self) /\
                p2 ∈ elitism_selection self1 (p_size self) /\
                heap w !! genes p1 = Some g1 /\ heap w !! genes p2 = Some g2 /\
                (Z.of_nat point < genes_len self)%Z /\
                heap w' !! genes ab.1 = Some (take (S point) g2 ++ drop (S point) g1) /\
                heap w' !! genes ab.2 = Some g2) pairs.
Proof.
  unfold evolve. intros H Hwf Hrate.
  apply bind_Some in H as (self1 & w1 & Heval & H).
  apply bind_Some in H as (self2 & w2 & Hsel & Hrep).
  pose proof (evaluate_phase_inv E _ _ _ _ Heval) as (pop' & avg & Hall & _ & -> & ->).
  apply evaluate_all_inv in Hall as (_ & Hlen & _ & Hk).
  rewrite select_phase_eq in Hsel.
  destruct (head _) as [best |]; [| discriminate]. injection Hsel as <- <-.
  cbn [p_size set_avg_score set_population cursor] in *.
  set (self1 := set_avg_score avg (set_population pop' self)) in *.
  set (parents := elitism_selection self1 (p_size self)) in *.
  set (ks := map (raw E) (seq (cursor w) (length parents))) in *.
  assert (Hpar : Forall (has_genes (Z.to_nat (genes_len self)) (heap w)) (permute ks parents)).
  { rewrite permute_Permutation. unfold parents.
    apply Forall_forall. intros p Hin.
    assert (Hin' : p ∈ pop').
    { pose proof (elitism_selection_submseteq self1 (p_size self)) as Hsub.
      exact (elem_of_submseteq _ _ _ Hin Hsub). }
    apply list_elem_of_lookup_1 in Hin' as [k Hkp].
    assert (Hlt : (k < length (population self))%nat).
    { rewrite <- Hlen. eapply lookup_lt_Some, Hkp. }
    apply lookup_lt_is_Some_2 in Hlt as [i Hi].
    destruct (Hk k i Hi) as (g & i' & Hg & Hi' & Hgen & _).
    assert (p = i') by congruence. subst i'.
    unfold wf_engine in Hwf. rewrite Forall_forall in Hwf.
    destruct (Hwf i (list_elem_of_lookup_2 _ _ _ Hi)) as (g0 & Hg0 & Hl0).
    exists g0. rewrite Hgen. split; assumption. }
  unfold reproduce_phase in Hrep.
  apply bind_Some in Hrep as (ch & w3 & Hbreed & Hrep).
  apply bind_Some in Hrep as (ch' & w4 & Hsh & Hrep).
  injection Hrep as <- <-.
  rewrite shuffle_eq in Hsh. injection Hsh as <- <-.
  apply (breed_pairs _ (Z.to_nat (genes_len self))) in Hbreed as (pairs & -> & Hpairs);
    [| exact Hrate | exact Hpar].
  eexists _, _, pairs. split; [exact Heval |].
  cbn [app population set_population set_best_individual heap skip] in *.
  split.
  { fold parents. rewrite <- (Permutation_length (permute_Permutation ks parents)).
    rewrite drop_app_length. apply permute_Permutation. }
  fold parents.
  eapply Forall_impl; [exact Hpairs |].
  intros ab (p1 & p2 & g1 & g2 & pt & Hp1 & Hp2 & Hg1 & Hg2 & Hpt & Ha & Hb).
  cbn [population set_population set_best_individual genes_len] in Hp1, Hp2, Hpt.
  rewrite permute_Permutation in Hp1, Hp2.
  exists p1, p2, g1, g2, pt.
  split; [exact Hp1 |]. split; [exact Hp2 |].
  split; [exact Hg1 |]. split; [exact Hg2 |].
  split; [exact Hpt |]. split; [exact Ha | exact Hb].
Qed.

End CrossoverProperties.

(** * Saving and loading the population *)

Section PersistenceProperties.
Variable E : Env.
Local Open Scope engine_scope.

Lemma save_slots_world (self : GA) (slots : list nat) (w w' : world) (u : unit) :
  save_slots self slots w = Some (u, w') ->
  cursor w' = cursor w /\ plays w' = plays w.
Proof.
  revert w. induction slots as [| i slots IH]; intros w H.
  - now injection H as _ <-.
  - cbn [save_slots] in H.
    apply bind_Some in H as (ind & w0 & Hind & H).
    unfold lift in Hind. destruct (population self !! i); [| discriminate].
    injection Hind as <- <-.
    apply bind_Some in H as (u1 & w1 & Hw & H).
    apply write_genes_inv in Hw as (g & _ & ->).
    destruct (IH _ H) as [H1 H2]. now split.
Qed.

(** What [save_all] does, for any run. *)
Lemma save_all_inv (self self' : GA) (w w' : world) :
  save_all E self w = Some (self', w') ->
  exists k : nat,
    k = length (elitism_selection self' (p_size self)) /\
    Z.of_nat k
    = (if (p_size self <? 0)%Z
       then Z.max 0 (Z.of_nat (length (population self)) + p_size self)
       else Z.min (p_size self) (Z.of_nat (length (population self))))%Z /\
    (forall (i : nat) (ind : Individual),
       (i < k)%nat -> population self !! i = Some ind ->
       exists g : list Q, heap w !! genes ind = Some g /\ files w' !! i = Some g) /\
    (forall j : nat, (k <= j)%nat -> files w' !! j = files w !! j) /\
    heap w' = heap w /\ cursor w' = cursor w /\
    plays w' = (plays w + length (population self))%nat.
Proof.
  intros H. pose proof (save_all_files E _ _ _ _ H) as Hfiles.
  unfold save_all in H.
  apply bind_Some in H as ([pop' s'] & w1 & Heval & H).
  cbv zeta in H. cbn [fst snd] in H.
  apply bind_Some in H as (u & w2 & Hsave & H).
  injection H as <- <-.
  cbn [p_size set_population population] in *.
  apply evaluate_all_inv in Heval as (_ & Hlen & -> & Hk).
  destruct (save_slots_other _ _ _ _ _ Hsave) as (Hh & Hother).
  destruct (save_slots_world _ _ _ _ _ Hsave) as (Hc & Hp).
  cbn [heap cursor plays files] in *.
  eexists. split; [reflexivity |].
  split.
  { unfold elitism_selection. rewrite slice_to_length.
    rewrite (Permutation_length (sorted_desc_Permutation _)).
    cbn [population set_population]. now rewrite Hlen. }
  split.
  { intros i ind Hi Hind.
    destruct (Hfiles i Hi) as (ind' & g & Hi' & Hg & Hf).
    destruct (Hk i ind Hind) as (g0 & i' & Hg0 & Hi'' & Hgen & _).
    assert (ind' = i') by congruence. subst i'.
    exists g. split; [| exact Hf]. rewrite <- Hgen, <- Hh. exact Hg. }
  split.
  { intros j Hj. apply Hother. intros Hin. apply elem_of_seq in Hin. lia. }
  split; [exact Hh |]. split; [exact Hc | exact Hp].
Qed.

(** X18: [save_all] evaluates the population, then writes file [i] for every
    [i] below the number [k] of selected individuals.  File [i] receives the
    genes of the individual at index [i] of the population as it stands, not
    those of the [i]-th fittest.  The other files and all the arrays are left
    as they are; no random number is drawn. *)
Theorem save_all_population_order (self self' : GA) (w w' : world) :
  save_all E self w = Some (self', w') ->
  exists k : nat,
    k = length (elitism_selection self' (p_size self)) /\
    Z.of_nat k
    = (if (p_size self <? 0)%Z
       then Z.max 0 (Z.of_nat (length (population self)) + p_size self)
       else Z.min (p_size self) (Z.of_nat (length (population self))))%Z /\
    (forall (i : nat) (ind : Individual),
       (i < k)%nat -> population self !! i = Some ind ->
       exists g : list Q, heap w !! genes ind = Some g /\ files w' !! i = Some g) /\
    (forall j : nat, (k <= j)%nat -> files w' !! j = files w !! j) /\
    heap w' = heap w /\ cursor w' = cursor w /\
    plays w' = (plays w + length (population self))%nat.
Proof. apply save_all_inv. Qed.

Lemma inherit_ancestor_loop_shape (slots : list nat) (pop : list Individual)
    (w : world) :
  (forall i : nat, i ∈ slots -> is_Some (files w !! i)) ->
  exists (new : list Individual) (w' : world),
    inherit_ancestor_loop slots pop w = Some (pop ++ new, w') /\
    length new = length slots /\
    Forall unevaluated new /\
    NoDup (genes <$> new) /\
    Forall (fun c => heap w !! genes c = None) new /\
    (forall (j i : nat), slots !! j = Some i ->
       exists (c : Individual) (g : list Q),
         new !! j = Some c /\ files w !! i = Some g /\ heap w' !! genes c = Some g) /\
    heap w ⊆ heap w' /\
    cursor w' = cursor w /\ plays w' = plays w /\ files w' = files w.
Proof.
  revert pop w. induction slots as [| i slots IH]; intros pop w Hfiles.
  - exists [], w. rewrite app_nil_r. split; [reflexivity |]. split; [reflexivity |].
    do 3 (split; [constructor |]). split; [intros j i Hj; discriminate |].
    split; [reflexivity |]. now repeat split.
  - cbn [inherit_ancestor_loop].
    destruct (Hfiles i ltac:(left)) as [g Hg].
    unfold bind at 1. unfold lift. rewrite Hg.
    unfold bind at 1. unfold alloc.
    set (a := fresh (dom (heap w))). set (w2 := set_heap _ w).
    assert (Ha : heap w !! a = None) by apply fresh_lookup.
    assert (Ha2 : heap w2 !! a = Some g) by apply lookup_insert_eq.
    assert (Hsub2 : heap w ⊆ heap w2) by (cbn; now apply insert_subseteq).
    destruct (IH (pop ++ [new_Individual a]) w2)
      as (new & w' & Hrun & Hn & Hun & Hnd & Hfresh & Hall & Hsub & Hcur & Hpl & Hfi).
    { intros j Hj. cbn [files set_heap]. apply Hfiles. now right. }
    exists (new_Individual a :: new), w'.
    rewrite <- app_assoc in Hrun. cbn [app] in Hrun.
    split; [exact Hrun |]. split; [cbn; now rewrite Hn |].
    split; [constructor; [reflexivity | exact Hun] |].
    split.
    { cbn [fmap list_fmap genes new_Individual]. constructor; [| exact Hnd].
      intros Hin. apply list_elem_of_fmap in Hin as (c & Hc & Hin).
      rewrite Forall_forall in Hfresh. specialize (Hfresh c Hin).
      rewrite <- Hc in Hfresh. congruence. }
    split.
    { constructor; [exact Ha |].
      eapply Forall_impl; [exact Hfresh |]. intros c Hnone. cbv beta in Hnone.
      destruct (heap w !! genes c) as [g0 |] eqn:Hg0; [| reflexivity].
      rewrite (lookup_weaken _ _ _ _ Hg0 Hsub2) in Hnone. discriminate. }
    split.
    { intros [| j] i' Hj.
      - injection Hj as <-. exists (new_Individual a), g.
        split; [reflexivity |]. split; [exact Hg |].
        eapply lookup_weaken; eassumption.
      - exact (Hall j i' Hj). }
    split; [etransitivity; eassumption |].
    split; [exact Hcur |]. split; [exact Hpl | exact Hfi].
Qed.

(** X19: when the files [0 .. p_size - 1] exist, [inherit_ancestor] appends
    [p_size] unevaluated individuals to the population; the [i]-th of them
    owns a new array, distinct from the others, holding the numbers of file
    [i].  Existing arrays and the files are untouched, no random number is
    drawn and no game is played. *)
Theorem inherit_ancestor_loads (self : GA) (w : world) :
  (forall i : nat, (Z.of_nat i < p_size self)%Z -> is_Some (files w !! i)) ->
  exists (new : list Individual) (w' : world),
    inherit_ancestor self w = Some (set_population (population self ++ new) self, w') /\
    length new = Z.to_nat (p_size self) /\
    Forall unevaluated new /\
    NoDup (genes <$> new) /\
    Forall (fun c => heap w !! genes c = None) new /\
    (forall i : nat, (Z.of_nat i < p_size self)%Z ->
       exists (c : Individual) (g : list Q),
         new !! i = Some c /\ files w !! i = Some g /\ heap w' !! genes c = Some g) /\
    heap w ⊆ heap w' /\
    cursor w' = cursor w /\ plays w' = plays w /\ files w' = files w.
Proof.
  intros Hfiles. unfold inherit_ancestor.
  destruct (inherit_ancestor_loop_shape (seq 0 (Z.to_nat (p_size self)))
              (population self) w)
    as (new & w' & Hrun & Hn & Hun & Hnd & Hfresh & Hall & Hrest).
  { intros i Hi. apply elem_of_seq in Hi. apply Hfiles. lia. }
  rewrite (bind_eq _ _ _ _ _ Hrun). unfold ret.
  exists new, w'. split; [reflexivity |].
  split; [now rewrite Hn, length_seq |].
  split; [exact Hun |]. split; [exact Hnd |]. split; [exact Hfresh |].
  split; [| exact Hrest].
  intros i Hi. apply (Hall i i). apply lookup_seq. lia.
Qed.

Lemma inherit_ancestor_loop_missing (slots : list nat) (pop : list Individual)
    (w : world) (i : nat) :
  i ∈ slots -> files w !! i = None -> inherit_ancestor_loop slots pop w = None.
Proof.
  revert pop w. induction slots as [| j slots IH]; intros pop w Hin Hnone.
  - now apply elem_of_nil in Hin.
  - cbn [inherit_ancestor_loop]. unfold bind at 1. unfold lift.
    destruct (files w !! j) as [g |] eqn:Hj; [| reflexivity].
    unfold bind at 1. unfold alloc.
    apply elem_of_cons in Hin as [-> | Hin]; [congruence |].
    apply IH; [exact Hin | exact Hnone].
Qed.

(** X20: [inherit_ancestor] raises when one of the files [0 .. p_size - 1]
    does not exist. *)
Theorem inherit_ancestor_missing_file (self : GA) (w : world) (i : nat) :
  (Z.of_nat i < p_size self)%Z -> files w !! i = None ->
  inherit_ancestor self w = None.
Proof.
  intros Hi Hnone. unfold inherit_ancestor, bind.
  rewrite (inherit_ancestor_loop_missing _ _ _ i); [reflexivity | | exact Hnone].
  apply elem_of_seq. lia.
Qed.

(** X21: a population saved by [save_all] is read back by [inherit_ancestor]
    on a new engine of the same [p_size], as long as the saved population had
    at least [p_size] individuals: the [i]-th individual loaded has the genes
    that the individual at index [i] of the saved population had. *)
Theorem save_all_inherit_ancestor (self self' : GA) (w w1 : world) (c g : Z) (m : Q) :
  save_all E self w = Some (self', w1) ->
  (0 <= p_size self <= Z.of_nat (length (population self)))%Z ->
  exists (new : list Individual) (w2 : world),
    inherit_ancestor (new_GA (p_size self) c g m) w1
    = Some (set_population new (new_GA (p_size self) c g m), w2) /\
    length new = Z.to_nat (p_size self) /\
    forall (i : nat) (ind : Individual),
      (Z.of_nat i < p_size self)%Z -> population self !! i = Some ind ->
      exists (ind' : Individual) (genes0 : list Q),
        new !! i = Some ind' /\
        heap w !! genes ind = Some genes0 /\ heap w2 !! genes ind' = Some genes0.
Proof.
  intros Hsave Hp.
  apply save_all_inv in Hsave as (k & _ & Hk & Hwritten & _).
  destruct (Z.ltb_spec (p_size self) 0) as [Hneg | _]; [lia |].
  destruct (inherit_ancestor_loop_shape (seq 0 (Z.to_nat (p_size self))) [] w1)
    as (new & w2 & Hrun & Hn & _ & _ & _ & Hall & _).
  { intros i Hi. apply elem_of_seq in Hi.
    destruct (lookup_lt_is_Some_2 (population self) i ltac:(lia)) as [ind Hind].
    destruct (Hwritten i ind ltac:(lia) Hind) as (g0 & _ & Hf). eauto. }
  unfold inherit_ancestor. cbn [p_size population new_GA].
  rewrite (bind_eq _ _ _ _ _ Hrun). unfold ret.
  exists new, w2. split; [reflexivity |]. split; [now rewrite Hn, length_seq |].
  intros i ind Hi Hind.
  destruct (Hall i i ltac:(apply lookup_seq; lia)) as (c0 & g0 & Hc0 & Hf & Hh).
  destruct (Hwritten i ind ltac:(lia) Hind) as (g1 & Hg1 & Hf1).
  exists c0, g0. split; [exact Hc0 |]. split; [congruence | exact Hh].
Qed.

End PersistenceProperties.

(** * When a generation cannot be bred *)

Section EvolveFailures.
Variable E : Env.
Import B64 B64Facts.
Local Open Scope engine_scope.

(** A first turn of the loop needs a positive [genes_len]. *)
Lemma breed_Some_len (self : GA) (fuel : nat) (ch : list Individual) (w w' : world) :
  (0 < c_size self)%Z ->
  breed E self fuel [] w = Some (ch, w') -> (0 < genes_len self)%Z.
Proof.
  intros Hc H. destruct fuel as [| fuel]; cbn [breed length] in H.
  - destruct (Z.ltb_spec (Z.of_nat 0) (c_size self)); [discriminate | lia].
  - destruct (Z.ltb_spec (Z.of_nat 0) (c_size self)); [| lia].
    rewrite (bind_eq _ _ _ _ _ (roulette_wheel_selection_eq E self 2 w)) in H.
    destruct (omap _ _) as [| p1 [| p2 [| p3 sel]]]; try discriminate.
    apply bind_Some in H as (a & w1 & _ & H).
    apply bind_Some in H as (b & w2 & _ & H).
    apply bind_Some in H as (u1 & w3 & Hx & _).
    eapply crossover_Some_len, Hx.
Qed.

Lemma roulette_zero (self : GA) (size : Z) (w : world) :
  Forall (fun i => fitness i == 0)%Q (population self) ->
  roulette_wheel_selection E self size w = Some ([], skip (Z.to_nat size) w).
Proof.
  intros Hz.
  assert (Hw : wheel_sum (population self) = 0%Q) by (apply wheel_from_zero, Hz).
  rewrite roulette_wheel_selection_eq. f_equal. f_equal.
  apply omap_none, Forall_forall. intros c _.
  unfold pick_at. rewrite Hw, uniform_of_0_0. apply spin_zero, Hz.
Qed.

(** X22: [evolve] raises on an engine without individuals (the average is a
    division by zero), on an engine with [p_size = 0] (an empty selection has
    no best individual), and on an engine that is asked for children with a
    [genes_len] of zero or less (there is no crossover point to draw). *)
Theorem evolve_raises (self : GA) (w : world) :
  population self = [] \/ p_size self = 0%Z \/
  ((0 < c_size self)%Z /\ (genes_len self <= 0)%Z) ->
  evolve E self w = None.
Proof.
  intros Hcase.
  destruct (evolve E self w) as [[self' w'] |] eqn:H; [exfalso | reflexivity].
  unfold evolve in H.
  apply bind_Some in H as (self1 & w1 & Hev & H).
  apply bind_Some in H as (self2 & w2 & Hsel & Hrep).
  apply evaluate_phase_inv in Hev as (pop1 & avg1 & _ & Hdiv & -> & ->).
  rewrite select_phase_eq in Hsel.
  cbn [p_size set_avg_score set_population] in Hsel.
  destruct (head _) as [best |] eqn:Hbest; [| discriminate].
  injection Hsel as <- <-.
  destruct Hcase as [Hnil | [Hp | [Hc Hg]]].
  - rewrite Hnil in Hdiv. unfold int_truediv in Hdiv. cbn in Hdiv. discriminate.
  - rewrite Hp in Hbest. unfold elitism_selection, slice_to in Hbest.
    cbn in Hbest. rewrite take_0 in Hbest. discriminate.
  - unfold reproduce_phase in Hrep.
    apply bind_Some in Hrep as (ch & w3 & Hbreed & _).
    apply breed_Some_len in Hbreed; [| exact Hc].
    cbn [genes_len set_population set_best_individual set_avg_score] in Hbreed. lia.
Qed.

(** X23: when every selected parent has fitness zero the roulette wheel is
    empty-handed, and [evolve] raises as soon as one child is asked for: the
    selection of two parents returns no individual to unpack. *)
Theorem evolve_raises_on_zero_fitness (self self1 : GA) (w w1 : world) :
  evaluate_phase E self w = Some (self1, w1) ->
  Forall (fun i => fitness i == 0)%Q (elitism_selection self1 (p_size self)) ->
  (0 < c_size self)%Z ->
  evolve E self w = None.
Proof.
  intros Hev Hz Hc. unfold evolve.
  rewrite (bind_eq _ _ _ _ _ Hev).
  apply evaluate_phase_inv in Hev as (pop1 & avg1 & _ & _ & -> & ->).
  unfold bind at 1. rewrite select_phase_eq.
  cbn [p_size set_avg_score set_population] in *.
  destruct (head _) as [best |]; [| reflexivity].
  unfold reproduce_phase, bind.
  cbn [c_size set_population set_best_individual set_avg_score].
  destruct (Z.to_nat (c_size self)) as [| fuel] eqn:Hfuel; [lia |].
  cbn [breed length].
  cbn [c_size set_population set_best_individual set_avg_score].
  destruct (Z.ltb_spec (Z.of_nat 0) (c_size self)); [| lia].
  unfold bind. rewrite roulette_zero; [reflexivity |].
  cbn [population set_population]. now rewrite permute_Permutation.
Qed.

End EvolveFailures.

(** * The main loop *)

Section DriverProperties.
Variable E : Env.
Local Open Scope Z_scope.

Lemma generation_step_inv (show : bool) (s s' : session) :
  generation_step E show s = Some s' ->
  exists (ga : GA) (w : world) (best : Individual),
    evolve E (engine s) (state s) = Some (ga, w) /\
    best_individual ga = Some best /\
    generation s' = generation s + 1 /\
    record s' = Z.max (record s) (score best) /\
    printed s'
    = printed s ++ [Line (generation s + 1) (record s) (score best) (avg_score ga)] /\
    (record s <= score best -> save_best ga (heap w) (disk s) = Some (disk s')) /\
    (score best < record s -> disk s' = disk s) /\
    ((generation s + 1) mod 20 = 0 ->
     save_all E ga (if show then played w else w) = Some (engine s', state s')) /\
    ((generation s + 1) mod 20 <> 0 ->
     engine s' = ga /\ state s' = (if show then played w else w)).
Proof.
  unfold generation_step. intros H.
  destruct (evolve E (engine s) (state s)) as [[ga w] |] eqn:Hev; [| discriminate].
  cbn [mbind option_bind] in H.
  destruct (best_individual ga) as [best |] eqn:Hbest; [| discriminate].
  cbn [mbind option_bind] in H.
  exists ga, w, best. split; [reflexivity |]. split; [exact Hbest |].
  destruct (Z.leb_spec (record s) (score best)) as [Hle | Hgt].
  - destruct (save_best ga (heap w) (disk s)) as [a |]; [| discriminate].
    cbn [mbind option_bind] in H.
    destruct (Z.eqb_spec ((generation s + 1) mod 20) 0) as [Hm | Hm].
    + destruct (save_all E ga _) as [[ga2 w2] |]; [| discriminate].
      injection H as <-. cbn.
      split; [reflexivity |]. split; [lia |]. split; [reflexivity |].
      split; [reflexivity |]. split; [lia |]. split; [reflexivity |]. intros; contradiction.
    + injection H as <-. cbn.
      split; [reflexivity |]. split; [lia |]. split; [reflexivity |].
      split; [reflexivity |]. split; [lia |]. split; [intros; contradiction |]. now split.
  - cbn [mbind option_bind] in H.
    destruct (Z.eqb_spec ((generation s + 1) mod 20) 0) as [Hm | Hm].
    + destruct (save_all E ga _) as [[ga2 w2] |]; [| discriminate].
      injection H as <-. cbn.
      split; [reflexivity |]. split; [lia |]. split; [reflexivity |].
      split; [lia |]. split; [reflexivity |]. split; [reflexivity |]. intros; contradiction.
    + injection H as <-. cbn.
      split; [reflexivity |]. split; [lia |]. split; [reflexivity |].
      split; [lia |]. split; [reflexivity |]. split; [intros; contradiction |]. now split.
Qed.

Lemma foldl_max_le (r : Z) (l : list Z) : r <= foldl Z.max r l.
Proof.
  revert r. induction l as [| x l IH]; intros r; [cbn; lia |].
  cbn. specialize (IH (Z.max r x)). lia.
Qed.

(** The lines printed and the record, over [n] generations. *)
Lemma run_lines (show : bool) (n : nat) (s s' : session) :
  run E show n s = Some s' ->
  exists lines : list line,
    printed s' = printed s ++ lines /\
    length lines = n /\
    generation s' = generation s + Z.of_nat n /\
    record s' = foldl Z.max (record s) (l_best <$> lines) /\
    record s <= record s' /\
    forall (k : nat) (l : line), lines !! k = Some l ->
      l_generation l = generation s + Z.of_nat k + 1 /\
      l_record l = foldl Z.max (record s) (l_best <$> take k lines).
Proof.
  revert s. induction n as [| n IH]; intros s H; cbn [run] in H.
  - injection H as <-. exists []. rewrite app_nil_r.
    split; [reflexivity |]. split; [reflexivity |]. split; [lia |].
    split; [reflexivity |]. split; [lia |]. intros k l Hk. discriminate.
  - destruct (generation_step E show s) as [s1 |] eqn:Hstep; [| discriminate].
    cbn [mbind option_bind] in H.
    apply generation_step_inv in Hstep
      as (ga & w & best & _ & _ & Hgen & Hrec & Hpr & _).
    apply IH in H as (lines & Hlines & Hlen & Hg & Hr & Hle & Hk).
    exists (Line (generation s + 1) (record s) (score best) (avg_score ga) :: lines).
    split; [rewrite Hlines, Hpr, <- app_assoc; reflexivity |].
    split; [cbn; now rewrite Hlen |].
    split; [lia |].
    split; [cbn [fmap list_fmap foldl l_best]; now rewrite <- Hrec |].
    split; [lia |].
    intros [| k] l Hl.
    + injection Hl as <-. cbn. split; [lia | reflexivity].
    + destruct (Hk k l Hl) as [H1 H2]. split; [lia |].
      cbn [take fmap list_fmap foldl l_best]. now rewrite <- Hrec.
Qed.

(** X24: over any number of generations the record is the largest best score
    seen so far, and never less than where it started (0 in the program).
    The line printed for a generation carries the number of that generation
    and the record as it was before the generation ran. *)
Theorem run_record (show : bool) (n : nat) (s s' : session) :
  run E show n s = Some s' ->
  exists lines : list line,
    printed s' = printed s ++ lines /\
    length lines = n /\
    generation s' = generation s + Z.of_nat n /\
    record s' = foldl Z.max (record s) (l_best <$> lines) /\
    record s <= record s' /\
    forall (k : nat) (l : line), lines !! k = Some l ->
      l_generation l = generation s + Z.of_nat k + 1 /\
      l_record l = foldl Z.max (record s) (l_best <$> take k lines).
Proof. apply run_lines. Qed.

Lemma save_best_inv (ga : GA) (h : gmap nat (list Q)) (a a' : archive) :
  save_best ga h a = Some a' ->
  exists (best : Individual) (g : list Q),
    best_individual ga = Some best /\ h !! genes best = Some g /\
    a' = Archive (<[score best := g]> (best_genes a))
                 (<[score best := seed best]> (best_seed a)).
Proof.
  unfold save_best. intros H.
  destruct (best_individual ga) as [best |]; [| discriminate]. cbn in H.
  destruct (h !! genes best) as [g |] eqn:Hg; [| discriminate]. cbn in H.
  injection H as <-. exists best, g. split; [reflexivity |]. split; [exact Hg | reflexivity].
Qed.

Lemma run_archive (show : bool) (n : nat) (s s' : session) :
  run E show n s = Some s' ->
  exists lines : list line,
    printed s' = printed s ++ lines /\
    (forall key : Z, key ∉ l_best <$> lines ->
       best_genes (disk s') !! key = best_genes (disk s) !! key /\
       best_seed (disk s') !! key = best_seed (disk s) !! key) /\
    (record_saved s \/ Exists (fun l => l_record l <= l_best l) lines ->
     record_saved s').
Proof.
  revert s. induction n as [| n IH]; intros s H; cbn [run] in H.
  - injection H as <-. exists []. rewrite app_nil_r.
    split; [reflexivity |]. split; [now split |].
    intros [Hs | Hex]; [exact Hs | inversion Hex].
  - destruct (generation_step E show s) as [s1 |] eqn:Hstep; [| discriminate].
    cbn [mbind option_bind] in H.
    apply generation_step_inv in Hstep
      as (ga & w & best & _ & Hbest & Hgen & Hrec & Hpr & Hsave & Hkeep & _).
    apply IH in H as (lines & Hlines & Hframe & Hsaved).
    exists (Line (generation s + 1) (record s) (score best) (avg_score ga) :: lines).
    split; [rewrite Hlines, Hpr, <- app_assoc; reflexivity |].
    split.
    + intros key Hkey. cbn [fmap list_fmap l_best] in Hkey.
      apply not_elem_of_cons in Hkey as [Hne Hkey].
      destruct (Hframe key Hkey) as [-> ->].
      destruct (Z.le_gt_cases (record s) (score best)) as [Hle | Hgt].
      * apply Hsave, save_best_inv in Hle as (b & g & Hb & _ & ->).
        assert (b = best) by congruence. subst b.
        cbn [best_genes best_seed].
        rewrite !lookup_insert_ne by (intros Heq; now apply Hne). now split.
      * rewrite (Hkeep ltac:(lia)). now split.
    + intros Hcase. apply Hsaved.
      destruct (Z.le_gt_cases (record s) (score best)) as [Hle | Hgt].
      * left. pose proof (Hsave Hle) as Hsb.
        apply save_best_inv in Hsb as (b & g & Hb & _ & Hd).
        assert (b = best) by congruence. subst b.
        unfold record_saved. rewrite Hd, Hrec. cbn [best_genes best_seed].
        replace (Z.max (record s) (score best)) with (score best) by lia.
        rewrite !lookup_insert_eq. split; eauto.
      * destruct Hcase as [Hs | Hex].
        -- left. unfold record_saved in *. rewrite (Hkeep ltac:(lia)), Hrec.
           replace (Z.max (record s) (score best)) with (record s) by lia. exact Hs.
        -- apply Exists_cons in Hex as [Hhd | Htl]; [cbn in Hhd; lia | now right].
Qed.

(** X25: the loop writes the files [genes/best/<score>] and [seed/<score>]
    only for scores that were the best score of a generation; every other
    file of the two directories keeps its content.  As soon as one generation
    reaches the record (best score >= record), the two files named after the
    current record exist, and stay. *)
Theorem run_best_files (show : bool) (n : nat) (s s' : session) :
  run E show n s = Some s' ->
  exists lines : list line,
    printed s' = printed s ++ lines /\
    (forall key : Z, key ∉ l_best <$> lines ->
       best_genes (disk s') !! key = best_genes (disk s) !! key /\
       best_seed (disk s') !! key = best_seed (disk s) !! key) /\
    (Exists (fun l => l_record l <= l_best l) lines ->
     is_Some (best_genes (disk s') !! record s') /\
     is_Some (best_seed (disk s') !! record s')).
Proof.
  intros H. apply run_archive in H as (lines & Hl & Hframe & Hsaved).
  exists lines. split; [exact Hl |]. split; [exact Hframe |].
  intros Hex. apply Hsaved. now right.
Qed.

(** Generations that are not multiples of 20 write no population file. *)
Lemma run_files (show : bool) (n : nat) (s s' : session) :
  run E show n s = Some s' ->
  (forall k : Z, generation s < k <= generation s + Z.of_nat n -> k mod 20 <> 0) ->
  files (state s') = files (state s).
Proof.
  revert s. induction n as [| n IH]; intros s H Hno; cbn [run] in H.
  - now injection H as <-.
  - destruct (generation_step E show s) as [s1 |] eqn:Hstep; [| discriminate].
    cbn [mbind option_bind] in H.
    apply generation_step_inv in Hstep
      as (ga & w & best & Hev & _ & Hgen & _ & _ & _ & _ & _ & Hskip).
    destruct (Hskip (Hno (generation s + 1) ltac:(lia))) as [_ Hst].
    rewrite (IH s1 H); [| intros k Hk; apply Hno; lia].
    rewrite Hst.
    apply evolve_inv in Hev
      as (pop' & avg & b & parents & children & _ & _ & _ & _ & _ & _ & _ & _ & Hio).
    destruct Hio as [_ Hf]. cbn [files] in Hf. now destruct show.
Qed.

(** X26: the population files are written by [save_all] only, which the loop
    calls at the generations that are multiples of 20: over a stretch of
    generations without such a multiple the files [genes/all/i] keep their
    content. *)
Theorem run_population_files (show : bool) (n : nat) (s s' : session) :
  run E show n s = Some s' ->
  (forall k : Z, generation s < k <= generation s + Z.of_nat n -> k mod 20 <> 0) ->
  files (state s') = files (state s).
Proof. apply run_files. Qed.

Lemma generate_ancestor_files (self self' : GA) (w w' : world) :
  generate_ancestor E self w = Some (self', w') -> files w' = files w.
Proof.
  unfold generate_ancestor. intros H.
  apply bind_Some in H as (pop & w1 & Hloop & H). injection H as _ <-.
  destruct (Z.ltb_spec (genes_len self) 0) as [Hneg | Hpos].
  - destruct (Z.to_nat (p_size self)) as [| k]; cbn [generate_ancestor_loop] in Hloop.
    + now injection Hloop as _ <-.
    + destruct (Z.ltb_spec (genes_len self) 0); [discriminate | lia].
  - destruct (generate_ancestor_loop_shape E self (Z.to_nat (p_size self))
                (population self) w Hpos)
      as (new & w2 & Hrun & _ & _ & _ & _ & _ & _ & _ & Hf).
    rewrite Hrun in Hloop. now injection Hloop as _ <-.
Qed.

Lemma inherit_ancestor_loop_files (slots : list nat) (pop r : list Individual)
    (w w' : world) :
  inherit_ancestor_loop slots pop w = Some (r, w') -> files w' = files w.
Proof.
  revert pop w. induction slots as [| i slots IH]; intros pop w H.
  - now injection H as _ <-.
  - cbn [inherit_ancestor_loop] in H.
    apply bind_Some in H as (g & w0 & Hg & H).
    unfold lift in Hg. destruct (files w !! i); [| discriminate].
    injection Hg as _ <-.
    apply bind_Some in H as (a & w1 & Ha & H).
    unfold alloc in Ha. injection Ha as _ <-.
    now rewrite (IH _ _ H).
Qed.

Lemma start_files (inherit : bool) (ga ga' : GA) (w w' : world) :
  start E inherit ga w = Some (ga', w') -> files w' = files w.
Proof.
  unfold start. destruct inherit.
  - unfold inherit_ancestor. intros H.
    apply bind_Some in H as (pop & w1 & Hloop & H). injection H as _ <-.
    eapply inherit_ancestor_loop_files, Hloop.
  - apply generate_ancestor_files.
Qed.

(** X27: the program, stopped after [n] generations that all went through,
    has printed [n] lines; its record is the largest best score printed, and
    at least 0.  Before generation 20 it has written no population file, and
    the only files of [genes/best] and [seed] it has written are named after
    a best score it printed. *)
Theorem main_session (inherit show : bool) (p c g : Z) (m : Q) (n : nat)
    (w : world) (a : archive) (s' : session) :
  main E inherit show p c g m n w a = Some s' ->
  generation s' = Z.of_nat n /\
  length (printed s') = n /\
  record s' = foldl Z.max 0 (l_best <$> printed s') /\
  0 <= record s' /\
  ((n < 20)%nat -> files (state s') = files w) /\
  (forall key : Z, key ∉ l_best <$> printed s' ->
     best_genes (disk s') !! key = best_genes a !! key /\
     best_seed (disk s') !! key = best_seed a !! key).
Proof.
  unfold main. intros H.
  destruct (start E inherit (new_GA p c g m) w) as [[ga w1] |] eqn:Hstart; [| discriminate].
  cbn [mbind option_bind] in H.
  apply start_files in Hstart.
  pose proof (run_lines _ _ _ _ H) as (lines & Hl & Hlen & Hgen & Hrec & Hle & _).
  pose proof (run_archive _ _ _ _ H) as (lines' & Hl' & Hframe & _).
  cbn [printed generation record disk state app] in *.
  subst lines lines'.
  split; [lia |]. split; [exact Hlen |]. split; [exact Hrec |]. split; [exact Hle |].
  split.
  - intros Hn. rewrite <- Hstart. apply (run_files _ _ _ _ H).
    cbn [generation]. intros k Hk Hmod.
    assert (0 < k < 20) by lia.
    rewrite Z.mod_small in Hmod by lia. lia.
  - exact Hframe.
Qed.

End DriverProperties.

(** * The properties on the worked inputs *)

Lemma get_fitness_raises_iff_witness :
  (get_fitness demo_env (new_Individual 0) demo_world = None
   <-> (play demo_env (plays demo_world) [1; 2; 3]%Q).1.2 = 0%Z) /\
  (forall (ind' : Individual) (w' : world),
     get_fitness demo_env (new_Individual 0) demo_world = Some (ind', w') ->
     (Qabs (fitness ind') < 2 ^ 1024)%Q).
Proof.
  apply (get_fitness_raises_iff demo_env (new_Individual 0) demo_world [1; 2; 3]%Q);
    [vm_compute; reflexivity | vm_compute; discriminate].
Defined.

Lemma evolve_evaluates_in_order_witness :
  exists (self' : GA) (w' : world),
    evolve demo_env demo_ga demo_world = Some (self', w') /\
    exists (self1 : GA) (w1 : world),
      evaluate_phase demo_env demo_ga demo_world = Some (self1, w1) /\
      plays w1 = (plays demo_world + length (population demo_ga))%nat /\
      (forall (k : nat) (i : Individual), population demo_ga !! k = Some i ->
         exists (g : list Q) (i' : Individual),
           heap demo_world !! genes i = Some g /\ population self1 !! k = Some i' /\
           genes i' = genes i /\
           score i' = (play demo_env (plays demo_world + k) g).1.1 /\
           steps i' = (play demo_env (plays demo_world + k) g).1.2 /\
           seed i' = Some (play demo_env (plays demo_world + k) g).2 /\
           compute_fitness (score i') (steps i') = Some (fitness i')) /\
      int_truediv (total_score (population self1))
        (Z.of_nat (length (population demo_ga))) = Some (avg_score self').
Proof.
  destruct (evolve demo_env demo_ga demo_world) as [[self' w'] |] eqn:Hev.
  - exists self', w'. split; [reflexivity |].
    exact (evolve_evaluates_in_order demo_env demo_ga self' demo_world w' Hev).
  - vm_compute in Hev. discriminate.
Defined.

Lemma evolve_population_shape_witness :
  exists (self' : GA) (w' : world),
    evolve demo_env odd_ga demo_world = Some (self', w') /\
    exists (self1 : GA) (w1 : world) (parents children : list Individual),
      evaluate_phase demo_env odd_ga demo_world = Some (self1, w1) /\
      population self' = parents ++ children /\
      parents ≡ₚ elitism_selection self1 (p_size odd_ga) /\
      Z.of_nat (length children)
      = (if (c_size odd_ga <=? 0)%Z then 0 else c_size odd_ga + c_size odd_ga mod 2)%Z /\
      p_size self' = p_size odd_ga /\ c_size self' = c_size odd_ga /\
      genes_len self' = genes_len odd_ga /\ mutate_rate self' = mutate_rate odd_ga.
Proof.
  destruct (evolve demo_env odd_ga demo_world) as [[self' w'] |] eqn:Hev.
  - exists self', w'. split; [reflexivity |].
    exact (evolve_population_shape demo_env odd_ga self' demo_world w' Hev).
  - vm_compute in Hev. discriminate.
Defined.

Lemma evolve_children_fresh_witness :
  exists (self' : GA) (w' : world),
    evolve demo_env demo_ga demo_world = Some (self', w') /\
    exists (self1 : GA) (w1 : world) (children : list Individual),
      evaluate_phase demo_env demo_ga demo_world = Some (self1, w1) /\
      children = drop (length (elitism_selection self1 (p_size demo_ga))) (population self') /\
      Forall unevaluated children /\
      Forall (fun c => heap demo_world !! genes c = None /\ is_Some (heap w' !! genes c))
        children /\
      NoDup (genes <$> children).
Proof.
  destruct (evolve demo_env demo_ga demo_world) as [[self' w'] |] eqn:Hev.
  - exists self', w'. split; [reflexivity |].
    exact (evolve_children_fresh demo_env demo_ga self' demo_world w' Hev).
  - vm_compute in Hev. discriminate.
Defined.

Lemma evolve_plays_and_files_witness :
  exists (self' : GA) (w' : world),
    evolve demo_env demo_ga demo_world = Some (self', w') /\
    plays w' = (plays demo_world + length (population demo_ga))%nat /\
    files w' = files demo_world.
Proof.
  destruct (evolve demo_env demo_ga demo_world) as [[self' w'] |] eqn:Hev.
  - exists self', w'. split; [reflexivity |].
    exact (evolve_plays_and_files demo_env demo_ga self' demo_world w' Hev).
  - vm_compute in Hev. discriminate.
Defined.

Lemma evolve_raises_witness :
  evolve demo_env (new_GA 2 2 3 (1 # 2)) demo_world = None.
Proof.
  apply (evolve_raises demo_env (new_GA 2 2 3 (1 # 2)) demo_world).
  left. reflexivity.
Defined.

Lemma evolve_raises_on_zero_fitness_witness :
  evolve losing_env demo_ga demo_world = None.
Proof.
  destruct (evaluate_phase losing_env demo_ga demo_world) as [[self1 w1] |] eqn:Hev.
  - apply (evolve_raises_on_zero_fitness losing_env demo_ga self1 demo_world w1 Hev).
    + vm_compute in Hev. injection Hev as <- _. vm_compute. repeat constructor.
    + reflexivity.
  - vm_compute in Hev. discriminate.
Defined.

Lemma generate_ancestor_population_witness :
  exists (new : list Individual) (w' : world),
    generate_ancestor demo_env (new_GA 2 2 3 (1 # 2)) demo_world
    = Some (set_population (population (new_GA 2 2 3 (1 # 2)) ++ new)
              (new_GA 2 2 3 (1 # 2)), w') /\
    length new = Z.to_nat (p_size (new_GA 2 2 3 (1 # 2))) /\
    Forall unevaluated new /\
    NoDup (genes <$> new) /\
    Forall (fun c =>
              heap demo_world !! genes c = None /\
              exists g : list Q,
                heap w' !! genes c = Some g /\
                length g = Z.to_nat (genes_len (new_GA 2 2 3 (1 # 2))) /\
                Forall (fun x => -1 <= x /\ x < 1)%Q g) new /\
    heap demo_world ⊆ heap w' /\
    cursor w' = (cursor demo_world
                 + Z.to_nat (p_size (new_GA 2 2 3 (1 # 2)))
                   * Z.to_nat (genes_len (new_GA 2 2 3 (1 # 2))))%nat /\
    plays w' = plays demo_world /\ files w' = files demo_world.
Proof.
  apply (generate_ancestor_population demo_env (new_GA 2 2 3 (1 # 2)) demo_world).
  cbn. lia.
Defined.

Lemma crossover_copies_prefix_witness :
  exists (w' : world) (point : nat),
    crossover demo_env demo_ga 0 1 demo_world = Some (tt, w') /\
    Z.of_nat point = (raw demo_env (cursor demo_world) mod genes_len demo_ga)%Z /\
    (Z.of_nat point < genes_len demo_ga)%Z /\
    heap w' !! 0%nat = Some (take (S point) [4; 5; 6]%Q ++ drop (S point) [1; 2; 3]%Q) /\
    heap w' !! 1%nat = Some [4; 5; 6]%Q /\
    (forall c : nat, c <> 0%nat -> c <> 1%nat -> heap w' !! c = heap demo_world !! c) /\
    cursor w' = S (cursor demo_world) /\ plays w' = plays demo_world /\
    files w' = files demo_world.
Proof.
  apply (crossover_copies_prefix demo_env demo_ga 0 1 [1; 2; 3]%Q [4; 5; 6]%Q demo_world);
    [cbn; lia | lia | vm_compute; reflexivity | vm_compute; reflexivity | reflexivity].
Defined.

Lemma still_wf : wf_engine still_ga demo_world.
Proof.
  unfold wf_engine. cbn [population still_ga genes_len].
  repeat constructor; eexists; (split; [vm_compute; reflexivity | reflexivity]).
Qed.

Lemma evolve_children_without_mutation_witness :
  exists (self' : GA) (w' : world),
    evolve demo_env still_ga demo_world = Some (self', w') /\
    exists (self1 : GA) (w1 : world) (pairs : list (Individual * Individual)),
      evaluate_phase demo_env still_ga demo_world = Some (self1, w1) /\
      drop (length (elitism_selection self1 (p_size still_ga))) (population self')
        ≡ₚ flat_map (fun ab => [ab.1; ab.2]) pairs /\
      Forall (fun ab =>
                exists (p1 p2 : Individual) (g1 g2 : list Q) (point : nat),
                  p1 ∈ elitism_selection self1 (p_size still_ga) /\
                  p2 ∈ elitism_selection self1 (p_size still_ga) /\
                  heap demo_world !! genes p1 = Some g1 /\
                  heap demo_world !! genes p2 = Some g2 /\
                  (Z.of_nat point < genes_len still_ga)%Z /\
                  heap w' !! genes ab.1 = Some (take (S point) g2 ++ drop (S point) g1) /\
                  heap w' !! genes ab.2 = Some g2) pairs.
Proof.
  destruct (evolve demo_env still_ga demo_world) as [[self' w'] |] eqn:Hev.
  - exists self', w'. split; [reflexivity |].
    apply (evolve_children_without_mutation demo_env still_ga self' demo_world w' Hev still_wf).
    cbn. apply Qle_refl.
  - vm_compute in Hev. discriminate.
Defined.

Lemma save_all_population_order_witness :
  exists (self' : GA) (w' : world),
    save_all demo_env demo_ga demo_world = Some (self', w') /\
    exists k : nat,
      k = length (elitism_selection self' (p_size demo_ga)) /\
      Z.of_nat k
      = (if (p_size demo_ga <? 0)%Z
         then Z.max 0 (Z.of_nat (length (population demo_ga)) + p_size demo_ga)
         else Z.min (p_size demo_ga) (Z.of_nat (length (population demo_ga))))%Z /\
      (forall (i : nat) (ind : Individual),
         (i < k)%nat -> population demo_ga !! i = Some ind ->
         exists g : list Q,
           heap demo_world !! genes ind = Some g /\ files w' !! i = Some g) /\
      (forall j : nat, (k <= j)%nat -> files w' !! j = files demo_world !! j) /\
      heap w' = heap demo_world /\ cursor w' = cursor demo_world /\
      plays w' = (plays demo_world + length (population demo_ga))%nat.
Proof.
  destruct (save_all demo_env demo_ga demo_world) as [[self' w'] |] eqn:Hsave.
  - exists self', w'. split; [reflexivity |].
    exact (save_all_population_order demo_env demo_ga self' demo_world w' Hsave).
  - vm_compute in Hsave. discriminate.
Defined.

Lemma saved_world_files (i : nat) :
  (Z.of_nat i < 2)%Z -> is_Some (files saved_world !! i).
Proof.
  intros Hi. destruct i as [| [| i]]; [vm_compute; eauto | vm_compute; eauto | lia].
Qed.

Lemma inherit_ancestor_loads_witness :
  exists (new : list Individual) (w' : world),
    inherit_ancestor (new_GA 2 2 3 (1 # 2)) saved_world
    = Some (set_population (population (new_GA 2 2 3 (1 # 2)) ++ new)
              (new_GA 2 2 3 (1 # 2)), w') /\
    length new = Z.to_nat (p_size (new_GA 2 2 3 (1 # 2))) /\
    Forall unevaluated new /\
    NoDup (genes <$> new) /\
    Forall (fun c => heap saved_world !! genes c = None) new /\
    (forall i : nat, (Z.of_nat i < p_size (new_GA 2 2 3 (1 # 2)))%Z ->
       exists (c : Individual) (g : list Q),
         new !! i = Some c /\ files saved_world !! i = Some g /\
         heap w' !! genes c = Some g) /\
    heap saved_world ⊆ heap w' /\
    cursor w' = cursor saved_world /\ plays w' = plays saved_world /\
    files w' = files saved_world.
Proof.
  exact (inherit_ancestor_loads (new_GA 2 2 3 (1 # 2)) saved_world saved_world_files).
Defined.

Lemma inherit_ancestor_missing_file_witness :
  inherit_ancestor (new_GA 2 2 3 (1 # 2)) demo_world = None.
Proof.
  apply (inherit_ancestor_missing_file (new_GA 2 2 3 (1 # 2)) demo_world 0);
    [cbn; lia | reflexivity].
Defined.

Lemma save_all_inherit_ancestor_witness :
  exists (self' : GA) (w1 : world),
    save_all demo_env demo_ga demo_world = Some (self', w1) /\
    exists (new : list Individual) (w2 : world),
      inherit_ancestor (new_GA (p_size demo_ga) 2 3 (1 # 2)) w1
      = Some (set_population new (new_GA (p_size demo_ga) 2 3 (1 # 2)), w2) /\
      length new = Z.to_nat (p_size demo_ga) /\
      forall (i : nat) (ind : Individual),
        (Z.of_nat i < p_size demo_ga)%Z -> population demo_ga !! i = Some ind ->
        exists (ind' : Individual) (genes0 : list Q),
          new !! i = Some ind' /\
          heap demo_world !! genes ind = Some genes0 /\
          heap w2 !! genes ind' = Some genes0.
Proof.
  destruct (save_all demo_env demo_ga demo_world) as [[self' w1] |] eqn:Hsave.
  - exists self', w1. split; [reflexivity |].
    apply (save_all_inherit_ancestor demo_env demo_ga self' demo_world w1 2 3 (1 # 2) Hsave).
    cbn. lia.
  - vm_compute in Hsave. discriminate.
Defined.

Lemma run_record_witness :
  exists s' : session,
    run demo_env false 2 demo_session = Some s' /\
    exists lines : list line,
      printed s' = printed demo_session ++ lines /\
      length lines = 2%nat /\
      generation s' = (generation demo_session + Z.of_nat 2)%Z /\
      record s' = foldl Z.max (record demo_session) (l_best <$> lines) /\
      (record demo_session <= record s')%Z /\
      forall (k : nat) (l : line), lines !! k = Some l ->
        l_generation l = (generation demo_session + Z.of_nat k + 1)%Z /\
        l_record l = foldl Z.max (record demo_session) (l_best <$> take k lines).
Proof.
  destruct (run demo_env false 2 demo_session) as [s' |] eqn:Hrun.
  - exists s'. split; [reflexivity |].
    exact (run_record demo_env false 2 demo_session s' Hrun).
  - vm_compute in Hrun. discriminate.
Defined.

Lemma run_best_files_witness :
  exists s' : session,
    run demo_env false 1 demo_session = Some s' /\
    exists lines : list line,
      printed s' = printed demo_session ++ lines /\
      (forall key : Z, key ∉ l_best <$> lines ->
         best_genes (disk s') !! key = best_genes (disk demo_session) !! key /\
         best_seed (disk s') !! key = best_seed (disk demo_session) !! key) /\
      (Exists (fun l => l_record l <= l_best l)%Z lines ->
       is_Some (best_genes (disk s') !! record s') /\
       is_Some (best_seed (disk s') !! record s')).
Proof.
  destruct (run demo_env false 1 demo_session) as [s' |] eqn:Hrun.
  - exists s'. split; [reflexivity |].
    exact (run_best_files demo_env false 1 demo_session s' Hrun).
  - vm_compute in Hrun. discriminate.
Defined.

Lemma run_population_files_witness :
  exists s' : session,
    run demo_env true 1 demo_session = Some s' /\
    files (state s') = files (state demo_session).
Proof.
  destruct (run demo_env true 1 demo_session) as [s' |] eqn:Hrun.
  - exists s'. split; [reflexivity |].
    apply (run_population_files demo_env true 1 demo_session s' Hrun).
    cbn [generation demo_session]. intros k Hk Hmod.
    assert (k = 1%Z) by lia. subst k. discriminate.
  - vm_compute in Hrun. discriminate.
Defined.

Lemma main_session_witness :
  exists s' : session,
    main demo_env true false 2 2 3 (1 # 2) 1 saved_world empty_archive = Some s' /\
    generation s' = Z.of_nat 1 /\
    length (printed s') = 1%nat /\
    record s' = foldl Z.max 0%Z (l_best <$> printed s') /\
    (0 <= record s')%Z /\
    ((1 < 20)%nat -> files (state s') = files saved_world) /\
    (forall key : Z, key ∉ l_best <$> printed s' ->
       best_genes (disk s') !! key = best_genes empty_archive !! key /\
       best_seed (disk s') !! key = best_seed empty_archive !! key).
Proof.
  destruct (main demo_env true false 2 2 3 (1 # 2) 1 saved_world empty_archive)
    as [s' |] eqn:Hmain.
  - exists s'. split; [reflexivity |].
    exact (main_session demo_env true false 2 2 3 (1 # 2) 1 saved_world empty_archive s' Hmain).
  - vm_compute in Hmain. discriminate.
Defined.
